(** * DPInstrumentationOmission: the instrumentation-omission pass of DiscoPoP

    A shallow embedding of [DPInstrumentationOmission::runOnModule]
    (DPInstrumentationOmission/DPInstrumentationOmission.cpp) and the
    properties of it stated in the specification.

    Pointers of the C++ program are modelled by natural-number addresses:
    an [Instruction*] is the [iaddr] of an instruction, a [BasicBlock*] the
    [baddr] of a block.  A [std::set] or [std::map] keyed by pointers is
    kept as a list sorted by address, which is the order its iterator
    visits.  The sets of [Value*] are only ever searched, extended and
    reduced, so they are finite sets ([gset]). *)

From Stdlib Require Import ZArith Ascii String.
From stdpp Require Import base decidable countable list strings gmap sorting.

Local Open Scope string_scope.
Local Open Scope list_scope.
Local Open Scope nat_scope.

(** ** LLVM values and instructions *)

(** The values the pass looks at.  [Val] stands for arguments, constants
    and instruction results, identified by [id]; a [Function] is a global
    identified by its name; [MetadataAsValue] is the operand wrapper of the
    debug intrinsics, which holds a value or other metadata ([None]);
    [ConstantInt] and [GlobalStringPtr] are the constants the pass creates. *)
Inductive Value :=
| Val (id : nat) (name : string)
| Fn (name : string)
| MetadataAsValue (md : option (nat * string))
| ConstantInt (n : Z)
| GlobalStringPtr (contents : string).

#[global] Instance Value_eq_dec : EqDecision Value.
Proof. solve_decision. Defined.

#[global] Instance Value_countable : Countable Value.
Proof.
  refine (inj_countable'
    (fun v => match v with
              | Val i n => inl (i, n)
              | Fn n => inr (inl n)
              | MetadataAsValue md => inr (inr (inl md))
              | ConstantInt z => inr (inr (inr (inl z)))
              | GlobalStringPtr s => inr (inr (inr (inr s)))
              end)
    (fun e => match e with
              | inl (i, n) => Val i n
              | inr (inl n) => Fn n
              | inr (inr (inl md)) => MetadataAsValue md
              | inr (inr (inr (inl z))) => ConstantInt z
              | inr (inr (inr (inr s))) => GlobalStringPtr s
              end) _).
  by intros [].
Defined.

(** [Value::getName]. *)
Definition getName (v : Value) : string :=
  match v with
  | Val _ n => n
  | Fn n => n
  | _ => ""
  end.

(** The instruction kinds the pass tells apart with [isa] and [dyn_cast].
    The debug intrinsics are calls ([DbgDeclareInst] and [DbgValueInst]
    derive from [CallInst]). *)
Inductive InstKind :=
| Load (ptr : Value)
| Store (val ptr : Value)
| Call (callee : Value) (args : list Value)
| Terminator (ops : list Value)
| Other (ops : list Value).

Record Instruction := mkInst {
  iaddr : nat;          (* the Instruction* *)
  iparent : nat;        (* getParent(): the BasicBlock* *)
  ikind : InstKind;
  idebugloc : bool      (* getDebugLoc() is set *)
}.

Record BasicBlock := mkBlock {
  baddr : nat;          (* the BasicBlock* *)
  insts : list Instruction
}.

Record Function := mkFunction {
  fname : string;
  blocks : list BasicBlock
}.

Definition Module := list Function.

(** [inst_begin(F) .. inst_end(F)]: the instructions of all blocks in
    layout order. *)
Definition instructions (F : Function) : list Instruction :=
  concat (map insts (blocks F)).

Definition getInstructionCount (F : Function) : nat := length (instructions F).

(** [Function::hasName]. *)
Definition hasName (F : Function) : bool := negb (fname F =? "")%string.

(** Operand list of an instruction; the called operand of a call is last. *)
Definition operands (k : InstKind) : list Value :=
  match k with
  | Load p => [p]
  | Store v p => [v; p]
  | Call c args => args ++ [c]
  | Terminator ops => ops
  | Other ops => ops
  end.

Definition getOperand (I : Instruction) (i : nat) : option Value :=
  operands (ikind I) !! i.

Definition isStore (I : Instruction) : bool :=
  match ikind I with Store _ _ => true | _ => false end.

Definition isLoad (I : Instruction) : bool :=
  match ikind I with Load _ => true | _ => false end.

(** [CallInst::getCalledFunction]: the name of the callee of a direct call,
    [None] for a call through a pointer. *)
Definition getCalledFunction (callee : Value) : option string :=
  match callee with
  | Fn n => Some n
  | _ => None
  end.

(** The value wrapped by a metadata operand, when it wraps one. *)
Definition wrappedValue (v : Value) : option Value :=
  match v with
  | MetadataAsValue (Some (i, n)) => Some (Val i n)
  | _ => None
  end.

(** [dyn_cast<DbgDeclareInst>] followed by [getAddress()]: [None] when the
    cast fails, [Some None] when it succeeds and the address is null. *)
Definition asDbgDeclare (I : Instruction) : option (option Value) :=
  match ikind I with
  | Call (Fn "llvm.dbg.declare") args => Some (head args ≫= wrappedValue)
  | _ => None
  end.

(** [dyn_cast<DbgValueInst>] followed by [getValue()]. *)
Definition asDbgValue (I : Instruction) : option (option Value) :=
  match ikind I with
  | Call (Fn "llvm.dbg.value") args => Some (head args ≫= wrappedValue)
  | _ => None
  end.

(** The name test of the two recorder functions of the tracking ABI. *)
Definition isTrackingName (fn : string) : bool :=
  (fn =? "__dp_write")%string || (fn =? "__dp_read")%string.

(** An instruction is a direct call to [__dp_write] or [__dp_read]. *)
Definition isTrackingCall (I : Instruction) : bool :=
  match ikind I with
  | Call callee _ =>
      match getCalledFunction callee with
      | Some fn => isTrackingName fn
      | None => false
      end
  | _ => false
  end.

(** ** Ordered containers

    [std::set<T>] as the strictly increasing list its iterator visits. *)
Section OrderedSet.
Context {A : Type} (ltb : A -> A -> bool).

Fixpoint oset_insert (a : A) (s : list A) : list A :=
  match s with
  | [] => [a]
  | b :: s' =>
      if ltb a b then a :: s
      else if ltb b a then b :: oset_insert a s'
      else s
  end.

(** [s.insert(first, last)]. *)
Definition oset_insert_range (s : list A) (range : list A) : list A :=
  foldl (fun acc x => oset_insert x acc) s range.
End OrderedSet.

(** [std::set<Instruction*>]: ordered by address. *)
Definition ptrset_insert : nat -> list nat -> list nat := oset_insert Nat.ltb.

(** [std::set<std::string>]: ordered by [std::string]'s comparison, the
    lexicographic order on bytes. *)
Definition strset_insert : string -> list string -> list string :=
  oset_insert String.ltb.

(** [std::map<BasicBlock*, std::set<std::string>>] as the list of its pairs
    in increasing key order.  [cdm_update] is lines 121-124: a block
    without an entry gets [tmpDeps], a block with one gets [tmpDeps] merged
    into it. *)
Fixpoint cdm_update (b : nat) (tmpDeps : list string)
    (m : list (nat * list string)) : list (nat * list string) :=
  match m with
  | [] => [(b, tmpDeps)]
  | (k, s) :: m' =>
      if b <? k then (b, tmpDeps) :: m
      else if k <? b then (k, s) :: cdm_update b tmpDeps m'
      else (k, oset_insert_range String.ltb s tmpDeps) :: m'
  end.

Fixpoint cdm_lookup (b : nat) (m : list (nat * list string)) : option (list string) :=
  match m with
  | [] => None
  | (k, s) :: m' => if k =? b then Some s else cdm_lookup b m'
  end.

(** ** Locality classifier, written values, baseline selection (lines 36-90) *)

(** [localValues.insert(p)].  A null [p] is inserted by the source as well;
    no operand of an instruction is null, so no later test can see it, and
    the model leaves it out. *)
Definition insertPtr (p : option Value) (s : gset Value) : gset Value :=
  match p with
  | Some v => {[v]} ∪ s
  | None => s
  end.

(** Body of the first loop (lines 40-46). *)
Definition collectLocal (localValues : gset Value) (I : Instruction) : gset Value :=
  match asDbgDeclare I with
  | Some addr => insertPtr addr localValues
  | None =>
      match asDbgValue I with
      | Some v => insertPtr v localValues
      | None => localValues
      end
  end.

(** Lines 57-61 and 72-76: the search loop erases [v] when it is present
    (the source erases while it iterates over the set; the model takes the
    erasure, and [searchAndErase] below has the loop as the language
    defines it). *)
Definition eraseValue (localValues : gset Value) (v : Value) : gset Value :=
  localValues ∖ {[v]}.

Record ScanState := mkScan {
  total : nat;                    (* totalInstrumentations *)
  localValues : gset Value;
  writtenValues : gset Value
}.

(** Body of the second loop (lines 48-78).  The argument loop runs over
    operands [0 .. getNumOperands() - 2], the arguments of the call. *)
Definition scanStep (st : ScanState) (I : Instruction) : ScanState :=
  let st1 :=
    match ikind I with
    | Call callee args =>
        match getCalledFunction callee with
        | Some fn =>
            mkScan (if isTrackingName fn then S (total st) else total st)
                   (foldl eraseValue (localValues st) args)
                   (writtenValues st)
        | None => st
        end
    | _ => st
    end in
  match ikind I with
  | Store val ptr =>
      mkScan (total st1)
             (eraseValue (localValues st1) val)
             (if idebugloc I then {[ptr]} ∪ writtenValues st1 else writtenValues st1)
  | _ => st1
  end.

Definition localSeeds (F : Function) : gset Value :=
  foldl collectLocal ∅ (instructions F).

Definition scanFunction (total0 : nat) (F : Function) : ScanState :=
  foldl scanStep (mkScan total0 (localSeeds F) ∅) (instructions F).

(** The test of lines 85-87. *)
Definition baselineTest (lv wv : gset Value) (v : Value) : bool :=
  (bool_decide (v ∈ lv) && bool_decide (v ∉ wv)) || (getName v =? "retval")%string.

(** Body of the third loop (lines 81-90). *)
Definition selectStep (lv wv : gset Value) (omit : list nat) (I : Instruction) : list nat :=
  match ikind I with
  | Store _ v | Load v =>
      if baselineTest lv wv v then ptrset_insert (iaddr I) omit else omit
  | _ => omit
  end.

Definition baselineOmittable (lv wv : gset Value) (F : Function) : list nat :=
  foldl (selectStep lv wv) [] (instructions F).

(** ** Dependence graph and dominance analysis (lines 93-132)

    [InstructionDG] and the dominator tree are built outside this file; the
    pass reads them through [getNodes], [getOutEdges], [getInEdges],
    [getItem], [edgeToDPDep] and [dominates].  An edge carries the items of
    its two end nodes and its descriptor. *)
Record Edge := mkEdge {
  srcItem : option Instruction;   (* edge->getSrc()->getItem() *)
  dstItem : option Instruction;   (* edge->getDst()->getItem() *)
  edgeToDPDep : string
}.

Record Node := mkNode {
  getItem : option Instruction;
  getOutEdges : list Edge;
  getInEdges : list Edge
}.

Record Analyses := mkAnalyses {
  getNodes : Function -> list Node;                         (* DG.getNodes() *)
  dominates : Function -> Instruction -> Instruction -> bool (* DT.dominates *)
}.

(** Pointer equality [I == J]. *)
Definition sameInst (I J : Instruction) : bool := iaddr I =? iaddr J.

(** Lines 106-111; [None] is the jump to [next]. *)
Fixpoint checkOutEdges (dom : Instruction -> Instruction -> bool) (I : Instruction)
    (edges : list Edge) (tmpDeps : list string) : option (list string) :=
  match edges with
  | [] => Some tmpDeps
  | edge :: rest =>
      match dstItem edge with
      | Some J =>
          if sameInst I J || negb (dom J I) then None
          else checkOutEdges dom I rest (strset_insert (edgeToDPDep edge) tmpDeps)
      | None => checkOutEdges dom I rest tmpDeps
      end
  end.

(** Lines 112-117. *)
Fixpoint checkInEdges (dom : Instruction -> Instruction -> bool) (I : Instruction)
    (edges : list Edge) (tmpDeps : list string) : option (list string) :=
  match edges with
  | [] => Some tmpDeps
  | edge :: rest =>
      match srcItem edge with
      | Some J =>
          if sameInst I J || negb (dom I J) then None
          else checkInEdges dom I rest (strset_insert (edgeToDPDep edge) tmpDeps)
      | None => checkInEdges dom I rest tmpDeps
      end
  end.

(** The descriptors of a node all of whose edges pass, [None] otherwise. *)
Definition nodeDeps (dom : Instruction -> Instruction -> bool) (I : Instruction)
    (node : Node) : option (list string) :=
  match checkOutEdges dom I (getOutEdges node) [] with
  | Some tmpDeps => checkInEdges dom I (getInEdges node) tmpDeps
  | None => None
  end.

(** Line 118: the address operand.  An instruction without that operand
    would make [getOperand] fail in the source; the model answers [None]
    and the node is then not local. *)
Definition addressOperand (I : Instruction) : option Value :=
  getOperand I (if isStore I then 1 else 0).

Definition isLocal (lv : gset Value) (I : Instruction) : bool :=
  match addressOperand I with
  | Some v => bool_decide (v ∈ lv)
  | None => false
  end.

Record DeepState := mkDeep {
  omittableInstructions : list nat;
  conditionalDepMap : list (nat * list string)
}.

(** Body of the node loop (lines 103-128). *)
Definition analyzeNode (dom : Instruction -> Instruction -> bool) (lv : gset Value)
    (st : DeepState) (node : Node) : DeepState :=
  match getItem node with
  | Some I0 =>
      match nodeDeps dom I0 node with
      | Some tmpDeps =>
          if (0 <? length tmpDeps) && isLocal lv I0 then
            mkDeep (ptrset_insert (iaddr I0) (omittableInstructions st))
                   (cdm_update (iparent I0) tmpDeps (conditionalDepMap st))
          else st
      | None => st
      end
  | None => st
  end.

Definition analyzeNodes (dom : Instruction -> Instruction -> bool) (lv : gset Value)
    (omit : list nat) (nodes : list Node) : DeepState :=
  foldl (analyzeNode dom lv) (mkDeep omit []) nodes.

(** ** Block reports (lines 129-132) *)

(** State of the pass object that outlives a function: the table
    [conditionalBBDeps], a member declared in the header of the pass and
    used as a vector of string sets, and the two statistics.  The
    statistics are declared through LLVM's [STATISTIC] macro and only ever
    incremented; they are modelled as natural numbers. *)
Record PassState := mkPass {
  conditionalBBDeps : list (list string);
  totalInstrumentations : nat;
  removedInstrumentations : nat
}.

(** Address of a newly created instruction: some address no instruction of
    the function has; the model takes the one after the largest. *)
Definition freshAddr (F : Function) : nat :=
  S (max_list (map iaddr (instructions F))).

Definition isTerminator (I : Instruction) : bool :=
  match ikind I with Terminator _ => true | _ => false end.

(** Insertion before [getTerminator()]: the last instruction of the block
    when it is a terminator.  Without one [getTerminator()] is null and
    the created call is inserted nowhere. *)
Fixpoint insertBeforeTerminator (c : Instruction) (l : list Instruction) : list Instruction :=
  match l with
  | [] => []
  | [t] => if isTerminator t then [c; t] else [t]
  | i :: l' => i :: insertBeforeTerminator c l'
  end.

(** [ConstantInt::get(Int32, n)] keeps the low 32 bits of [n]. *)
Definition constInt32 (n : nat) : Value := ConstantInt (Z.of_nat n mod 2 ^ 32).

Definition reportCall (addr parent index : nat) : Instruction :=
  mkInst addr parent (Call (Fn "__dp_report_bb") [constInt32 index]) false.

Definition insertReport (b : nat) (c : Instruction) (F : Function) : Function :=
  mkFunction (fname F)
    (map (fun B => if baddr B =? b
                   then mkBlock (baddr B) (insertBeforeTerminator c (insts B))
                   else B)
         (blocks F)).

(** Body of the loop over [conditionalDepMap]. *)
Definition reportStep (st : Function * list (list string)) (pair : nat * list string)
    : Function * list (list string) :=
  let F := st.1 in
  let table := st.2 in
  (insertReport pair.1 (reportCall (freshAddr F) pair.1 (length table)) F,
   table ++ [pair.2]).

(** ** Removal of tracking calls (lines 166-179) *)

(** [l] does not start with the instruction at [a]; its predecessor, when
    it is a tracking call, is erased.  The flag tells whether one was. *)
Fixpoint erasePrevIn (a : nat) (l : list Instruction) : list Instruction * bool :=
  match l with
  | [] => ([], false)
  | p :: l' =>
      match l' with
      | [] => (l, false)
      | i :: _ =>
          if iaddr i =? a then
            if isTrackingCall p then (l', true) else (l, false)
          else
            let r := erasePrevIn a l' in (p :: r.1, r.2)
      end
  end.

(** In the block of the instruction at [a]: [getPrevNode()] is null for the
    first instruction of a block. *)
Definition erasePrevBlock (a : nat) (l : list Instruction) : list Instruction * bool :=
  match l with
  | [] => ([], false)
  | i :: _ => if iaddr i =? a then (l, false) else erasePrevIn a l
  end.

Definition hasInst (a : nat) (l : list Instruction) : bool :=
  existsb (fun i => iaddr i =? a) l.

(** Dereferencing the pointer [a]: the block that holds the instruction. *)
Fixpoint erasePrevBlocks (a : nat) (bs : list BasicBlock) : list BasicBlock * bool :=
  match bs with
  | [] => ([], false)
  | B :: bs' =>
      if hasInst a (insts B) then
        let r := erasePrevBlock a (insts B) in (mkBlock (baddr B) r.1 :: bs', r.2)
      else
        let r := erasePrevBlocks a bs' in (B :: r.1, r.2)
  end.

(** Body of the loop over [omittableInstructions].  An address that belongs
    to no instruction of the function any more (the source would follow a
    dangling pointer) is passed over. *)
Definition removeStep (st : Function * nat) (a : nat) : Function * nat :=
  let r := erasePrevBlocks a (blocks st.1) in
  (mkFunction (fname st.1) r.1, if r.2 then S st.2 else st.2).

Definition removeOmittable (omit : list nat) (F : Function) (removed : nat) : Function * nat :=
  foldl removeStep (F, removed) omit.

(** ** The body of the loop over the functions (lines 29-181)

    The debug output ([DP_DEBUG] is [false]) and the optional dump of the
    graphs to .dot files change neither the module nor the state of the
    pass and are left out. *)

(** The omittable set at line 165. *)
Definition omittableSet (A : Analyses) (deep : bool) (F : Function) : list nat :=
  let sc := scanFunction 0 F in
  let omit := baselineOmittable (localValues sc) (writtenValues sc) F in
  if deep then
    omittableInstructions
      (analyzeNodes (dominates A F) (localValues sc) omit (getNodes A F))
  else omit.

(** [conditionalDepMap] at line 129. *)
Definition depMapOf (A : Analyses) (F : Function) : list (nat * list string) :=
  let sc := scanFunction 0 F in
  let omit := baselineOmittable (localValues sc) (writtenValues sc) F in
  conditionalDepMap
    (analyzeNodes (dominates A F) (localValues sc) omit (getNodes A F)).

Definition processFunction (A : Analyses) (deep : bool) (st : PassState) (F : Function)
    : Function * PassState :=
  if getInstructionCount F =? 0 then (F, st)
  else
    let sc := scanFunction (totalInstrumentations st) F in
    let omit := baselineOmittable (localValues sc) (writtenValues sc) F in
    let '(omit', F1, table) :=
      if deep then
        let ds := analyzeNodes (dominates A F) (localValues sc) omit (getNodes A F) in
        let r := foldl reportStep (F, conditionalBBDeps st) (conditionalDepMap ds) in
        (omittableInstructions ds, r.1, r.2)
      else (omit, F, conditionalBBDeps st) in
    let r := removeOmittable omit' F1 (removedInstrumentations st) in
    (r.1, mkPass table (total sc) r.2).

Fixpoint runFunctions (A : Analyses) (deep : bool) (st : PassState) (M : Module)
    : Module * PassState :=
  match M with
  | [] => ([], st)
  | F :: M' =>
      let r := processFunction A deep st F in
      let r' := runFunctions A deep r.2 M' in
      (r.1 :: r'.1, r'.2)
  end.

(** ** Serialization of the table (lines 185-196) *)

Definition appendDep (acc : string * bool) (dep : string) : string * bool :=
  let depString := if acc.2 then acc.1 else String.append acc.1 "," in
  (String.append depString dep, false).

Definition appendBBDeps (acc : string * bool) (bbDeps : list string) : string * bool :=
  let depString := if acc.2 then acc.1 else String.append acc.1 "/" in
  ((foldl appendDep (depString, true) bbDeps).1, false).

Definition buildDepString (table : list (list string)) : string :=
  (foldl appendBBDeps ("", true) table).1.

(** ** Attaching the table (lines 199-220) *)

Definition isFinalizeCall (I : Instruction) : bool :=
  match ikind I with
  | Call callee _ =>
      match getCalledFunction callee with
      | Some fn => (fn =? "__dp_finalize")%string
      | None => false
      end
  | _ => false
  end.

(** [CreateGlobalStringPtr] yields a constant and inserts no instruction. *)
Definition addDepsCall (addr parent : nat) (depString : string) : Instruction :=
  mkInst addr parent
    (Call (Fn "__dp_add_omission_deps") [GlobalStringPtr depString]) false.

(** The walk over the instructions of a block; [next] is the address given
    to the next created call. *)
Fixpoint attachInsts (depString : string) (next : nat) (l : list Instruction)
    : list Instruction * nat :=
  match l with
  | [] => ([], next)
  | i :: l' =>
      if isFinalizeCall i then
        let r := attachInsts depString (S next) l' in
        (addDepsCall next (iparent i) depString :: i :: r.1, r.2)
      else
        let r := attachInsts depString next l' in (i :: r.1, r.2)
  end.

Fixpoint attachBlocks (depString : string) (next : nat) (bs : list BasicBlock)
    : list BasicBlock :=
  match bs with
  | [] => []
  | B :: bs' =>
      let r := attachInsts depString next (insts B) in
      mkBlock (baddr B) r.1 :: attachBlocks depString r.2 bs'
  end.

Definition isMain (F : Function) : bool :=
  hasName F && (fname F =? "main")%string.

Definition attachFunction (depString : string) (F : Function) : Function :=
  if negb (hasName F) || negb (fname F =? "main")%string then F
  else mkFunction (fname F) (attachBlocks depString (freshAddr F) (blocks F)).

Definition hasFinalizeCall (F : Function) : bool :=
  existsb isFinalizeCall (instructions F).

(** [getOrInsertFunction] declares [__dp_add_omission_deps] when a call to
    it is created and the module has no function of that name. *)
Definition declareAddDeps (inserted : bool) (M : Module) : Module :=
  if inserted && negb (existsb (fun F => (fname F =? "__dp_add_omission_deps")%string) M)
  then M ++ [mkFunction "__dp_add_omission_deps" []]
  else M.

(** ** [runOnModule] *)

Definition runOnModule (A : Analyses) (deep : bool) (st : PassState) (M : Module)
    : bool * Module * PassState :=
  let r := runFunctions A deep st M in
  if negb deep then (true, r.1, r.2)
  else
    let depString := buildDepString (conditionalBBDeps r.2) in
    let inserted := existsb (fun F => isMain F && hasFinalizeCall F) r.1 in
    (true, declareAddDeps inserted (map (attachFunction depString) r.1), r.2).

(** ** Notions used in the statements *)

(** The address a load or store works on: the operand tested at line 84. *)
Definition memoryAddress (I : Instruction) : option Value :=
  match ikind I with
  | Load v => Some v
  | Store _ v => Some v
  | _ => None
  end.

(** The values an instruction makes the classifier erase: the arguments of
    a direct call, the stored value of a store. *)
Definition escapes (I : Instruction) : list Value :=
  match ikind I with
  | Call callee args =>
      match getCalledFunction callee with
      | Some _ => args
      | None => []
      end
  | Store val _ => [val]
  | _ => []
  end.

(** The address a store with a debug location writes. *)
Definition writes (I : Instruction) : list Value :=
  match ikind I with
  | Store _ ptr => if idebugloc I then [ptr] else []
  | _ => []
  end.

(** Number of direct calls to [__dp_write] and [__dp_read]. *)
Definition trackingCalls (l : list Instruction) : nat :=
  length (List.filter isTrackingCall l).

(** The local set, the written set and the baseline omittable set of a
    function, as they stand at line 91. *)
Definition localSet (F : Function) : gset Value := localValues (scanFunction 0 F).
Definition writtenSet (F : Function) : gset Value := writtenValues (scanFunction 0 F).
Definition baselineSet (F : Function) : list nat :=
  baselineOmittable (localSet F) (writtenSet F) F.

(** The invariant of [std::map]: keys strictly increasing. *)
Definition cdm_sorted (m : list (nat * list string)) : Prop :=
  StronglySorted lt (map fst m).

(** Example: a function whose only local address is handed to a call
    through a function pointer. *)
Definition indirectCallExample : Function :=
  mkFunction "f"
    [mkBlock 100
       [mkInst 1 100 (Call (Fn "llvm.dbg.declare") [MetadataAsValue (Some (7, "x"))]) false;
        mkInst 2 100 (Call (Val 8 "fp") [Val 7 "x"]) true;
        mkInst 3 100 (Terminator []) true]].

(** ** The calls the removal loop erases

    [erasedBlocks a bs] is the call one step of the loop erases in front of
    the instruction at [a], if it erases one; it follows [erasePrevBlocks].
    [removalTrace] lists, over the whole loop, the address worked on and
    the call erased in front of it. *)
Fixpoint erasedIn (a : nat) (l : list Instruction) : option Instruction :=
  match l with
  | [] => None
  | p :: l' =>
      match l' with
      | [] => None
      | i :: _ =>
          if iaddr i =? a then
            if isTrackingCall p then Some p else None
          else erasedIn a l'
      end
  end.

Definition erasedBlock (a : nat) (l : list Instruction) : option Instruction :=
  match l with
  | [] => None
  | i :: _ => if iaddr i =? a then None else erasedIn a l
  end.

Fixpoint erasedBlocks (a : nat) (bs : list BasicBlock) : option Instruction :=
  match bs with
  | [] => None
  | B :: bs' =>
      if hasInst a (insts B) then erasedBlock a (insts B) else erasedBlocks a bs'
  end.

Fixpoint removalTrace (omit : list nat) (F : Function) : list (nat * Instruction) :=
  match omit with
  | [] => []
  | a :: omit' =>
      match erasedBlocks a (blocks F) with
      | Some c => [(a, c)]
      | None => []
      end ++ removalTrace omit' (removeStep (F, 0) a).1
  end.

(** The function and the table at line 165, after the reports of the deep
    analysis have been inserted. *)
Definition afterReports (A : Analyses) (deep : bool) (table : list (list string))
    (F : Function) : Function * list (list string) :=
  if deep then foldl reportStep (F, table) (depMapOf A F) else (F, table).

(** The node of [I] passes the dominance analysis: every edge with an
    operation at its other end is ordered by dominance, and there is one. *)
Definition staticallyOrdered (A : Analyses) (F : Function) (I : Instruction) : Prop :=
  exists node,
    node ∈ getNodes A F /\ getItem node = Some I /\
    (forall e J, e ∈ getOutEdges node -> dstItem e = Some J ->
                 iaddr J <> iaddr I /\ dominates A F J I = true) /\
    (forall e J, e ∈ getInEdges node -> srcItem e = Some J ->
                 iaddr J <> iaddr I /\ dominates A F I J = true) /\
    (exists e, (e ∈ getOutEdges node /\ is_Some (dstItem e)) \/
               (e ∈ getInEdges node /\ is_Some (srcItem e))).

(** Analyses of a function without dependences. *)
Definition noAnalyses : Analyses := mkAnalyses (fun _ => []) (fun _ _ _ => false).

Definition freshPass : PassState := mkPass [] 0 0.

(** Example: the return-value slot.  [retval] is allocated by the compiler
    and has no debug declaration; its load is instrumented. *)
Definition retvalExample : Function :=
  mkFunction "f"
    [mkBlock 100
       [mkInst 1 100 (Call (Fn "__dp_read") [ConstantInt 1]) false;
        mkInst 2 100 (Load (Val 3 "retval")) true;
        mkInst 4 100 (Terminator []) true]].

(** The instructions of a list of blocks, in layout order. *)
Definition allInsts (bs : list BasicBlock) : list Instruction :=
  concat (map insts bs).


(** ** Decoding the table *)

(** Modelled from the spec: the splitting of a string at a delimiter, used
    by the decoder of the serialized table.  The decoder belongs to the
    runtime library, which is not part of the source; the documented
    format is "table entries delimited by [/], in-entry descriptors
    delimited by [,]". *)
Fixpoint splitOn (sep : ascii) (s : string) : list string :=
  match s with
  | EmptyString => [EmptyString]
  | String c s' =>
      if Ascii.eqb c sep then EmptyString :: splitOn sep s'
      else
        match splitOn sep s' with
        | x :: xs => String c x :: xs
        | [] => [String c EmptyString]
        end
  end.

(** Modelled from the spec: the decoder of the serialized table, missing
    from the source like [splitOn].  The string is split at every [/] into
    entries and every entry at every [,] into descriptors; the empty
    string is the empty table. *)
Definition decodeTable (s : string) : list (list string) :=
  if (s =? "")%string then [] else map (splitOn ",") (splitOn "/" s).

Fixpoint contains (c : ascii) (s : string) : bool :=
  match s with
  | EmptyString => false
  | String c' s' => Ascii.eqb c' c || contains c s'
  end.

(** The descriptors of a table contain neither delimiter. *)
Definition noDelimiters (table : list (list string)) : Prop :=
  forall bbDeps dep, bbDeps ∈ table -> dep ∈ bbDeps ->
    contains "/" dep = false /\ contains "," dep = false.

(** [x1 sep x2 sep ... xn]. *)
Fixpoint joinWith (sep : string) (l : list string) : string :=
  match l with
  | [] => ""
  | [x] => x
  | x :: l' => String.append x (String.append sep (joinWith sep l'))
  end.

(** [sep x1 sep x2 ... sep xn]: what the loops add after the first item. *)
Fixpoint tailWith (sep : string) (l : list string) : string :=
  match l with
  | [] => ""
  | x :: l' => String.append sep (String.append x (tailWith sep l'))
  end.

(** A direct call to the function named [name]. *)
Definition isCallTo (name : string) (I : Instruction) : bool :=
  match ikind I with
  | Call callee _ =>
      match getCalledFunction callee with
      | Some fn => (fn =? name)%string
      | None => false
      end
  | _ => false
  end.

(** ** The order of the table *)

(** The entries a function contributes to the table. *)
Definition tableOf (A : Analyses) (F : Function) : list (list string) :=
  if getInstructionCount F =? 0 then [] else map snd (depMapOf A F).

(** The order the specification describes, to compare with: the blocks in
    the order in which the node loop first gives them descriptors. *)
Definition qualifyingBlock (dom : Instruction -> Instruction -> bool) (lv : gset Value)
    (node : Node) : option nat :=
  match getItem node with
  | Some I0 =>
      match nodeDeps dom I0 node with
      | Some tmpDeps =>
          if (0 <? length tmpDeps) && isLocal lv I0 then Some (iparent I0) else None
      | None => None
      end
  | None => None
  end.

Fixpoint firstOccurrences (seen : list nat) (l : list nat) : list nat :=
  match l with
  | [] => []
  | b :: l' =>
      if existsb (Nat.eqb b) seen then firstOccurrences seen l'
      else b :: firstOccurrences (b :: seen) l'
  end.

Definition firstEncounteredBlocks (A : Analyses) (F : Function) : list nat :=
  firstOccurrences []
    (omap (qualifyingBlock (dominates A F) (localSet F)) (getNodes A F)).

Definition firstEncounteredTable (A : Analyses) (F : Function) : list (list string) :=
  map (fun b => default [] (cdm_lookup b (depMapOf A F))) (firstEncounteredBlocks A F).

(** Example: two blocks at the addresses [b1] and [b2], each with a load of
    a local variable.  In the dependence graph every load has one node,
    which depends on the first store of the function; the descriptor is
    the name of the loaded variable, and dominance orders everything. *)
Definition orderExample (b1 b2 : nat) : Function :=
  mkFunction "f"
    [mkBlock b1
       [mkInst 1 b1 (Call (Fn "llvm.dbg.declare") [MetadataAsValue (Some (11, "p"))]) false;
        mkInst 2 b1 (Store (Val 13 "c") (Val 11 "p")) true;
        mkInst 3 b1 (Load (Val 11 "p")) true;
        mkInst 4 b1 (Terminator []) true];
     mkBlock b2
       [mkInst 5 b2 (Call (Fn "llvm.dbg.declare") [MetadataAsValue (Some (12, "q"))]) false;
        mkInst 6 b2 (Load (Val 12 "q")) true;
        mkInst 7 b2 (Terminator []) true]].

Definition orderAnalyses : Analyses :=
  mkAnalyses
    (fun F =>
       omap (fun I0 =>
               match ikind I0 with
               | Load v =>
                   Some (mkNode (Some I0)
                           [mkEdge (Some I0) (head (List.filter isStore (instructions F)))
                                   (getName v)]
                           [])
               | _ => None
               end)
            (instructions F))
    (fun _ _ _ => true).

(** ** Running the pass again *)

(** One step of the removal loop inside a block. *)
Definition eraseL (a : nat) (l : list Instruction) : list Instruction :=
  (erasePrevBlock a l).1.

(** No tracking call stands directly in front of another one. *)
Definition noStackedTracking (l : list Instruction) : Prop :=
  forall n c c',
    l !! n = Some c -> l !! S n = Some c' ->
    isTrackingCall c' = true -> isTrackingCall c = false.

(** No instruction at [a] has a tracking call directly in front of it. *)
Definition settledAt (a : nat) (l : list Instruction) : Prop :=
  forall n c i,
    l !! n = Some c -> l !! S n = Some i -> iaddr i = a -> isTrackingCall c = false.

(** No tracking call takes an address bound by a debug intrinsic of the
    function as an argument. *)
Definition trackingArgsUndeclared (F : Function) : Prop :=
  forall c v,
    c ∈ instructions F -> isTrackingCall c = true -> v ∈ escapes c -> v ∉ localSeeds F.

Definition rerunSafe (F : Function) : Prop :=
  NoDup (map iaddr (instructions F)) /\
  (forall B, B ∈ blocks F -> noStackedTracking (insts B)) /\
  trackingArgsUndeclared F.

(** Examples for a second run.  [finalizeExample] is an entry function
    that calls [__dp_finalize]; in [stackedExample] two tracking calls
    stand in front of a load of a local address; in [declaredArgExample]
    the tracking call in front of the load of [x] takes the declared
    address [y] as an argument. *)
Definition finalizeExample : Function :=
  mkFunction "main"
    [mkBlock 100
       [mkInst 1 100 (Call (Fn "__dp_finalize") []) true;
        mkInst 2 100 (Terminator []) true]].

Definition stackedExample : Function :=
  mkFunction "f"
    [mkBlock 100
       [mkInst 1 100 (Call (Fn "llvm.dbg.declare") [MetadataAsValue (Some (7, "x"))]) false;
        mkInst 2 100 (Call (Fn "__dp_read") [ConstantInt 1]) false;
        mkInst 3 100 (Call (Fn "__dp_read") [ConstantInt 2]) false;
        mkInst 4 100 (Load (Val 7 "x")) true;
        mkInst 5 100 (Terminator []) true]].

Definition declaredArgExample : Function :=
  mkFunction "f"
    [mkBlock 100
       [mkInst 1 100 (Call (Fn "llvm.dbg.declare") [MetadataAsValue (Some (7, "x"))]) false;
        mkInst 2 100 (Call (Fn "llvm.dbg.declare") [MetadataAsValue (Some (8, "y"))]) false;
        mkInst 3 100 (Call (Fn "__dp_read") [Val 8 "y"]) false;
        mkInst 4 100 (Load (Val 7 "x")) true;
        mkInst 5 100 (Call (Fn "__dp_read") [ConstantInt 2]) false;
        mkInst 6 100 (Load (Val 8 "y")) true;
        mkInst 7 100 (Terminator []) true]].

(** The module and the state of the pass after one run and after two. *)
Definition runOnce (A : Analyses) (deep : bool) (M : Module) : Module * PassState :=
  let r := runOnModule A deep freshPass M in (r.1.2, r.2).

Definition runTwice (A : Analyses) (deep : bool) (M : Module) : Module :=
  let r := runOnce A deep M in (runOnModule A deep r.2 r.1).1.2.

(** The facts the removal loop maintains about the blocks. *)
Definition goodBlocks (bs : list BasicBlock) : Prop :=
  NoDup (map iaddr (allInsts bs)) /\
  Forall (fun B => noStackedTracking (insts B)) bs.

(** The instructions that are not tracking calls. *)
Definition untracked (l : list Instruction) : list Instruction :=
  List.filter (fun i => negb (isTrackingCall i)) l.

(** ** Further notions for the properties beyond the claims *)

(** The value a debug intrinsic binds (lines 41-45): the address of a
    [llvm.dbg.declare], the value of a [llvm.dbg.value]; nothing when the
    operand wraps no value. *)
Definition seedsOf (I : Instruction) : list Value :=
  match asDbgDeclare I with
  | Some addr => option_list addr
  | None =>
      match asDbgValue I with
      | Some v => option_list v
      | None => []
      end
  end.

(** The instructions of all functions of a module. *)
Definition moduleInsts (M : Module) : list Instruction :=
  concat (map instructions M).

(** The address of [i] is in the set. *)
Definition inOmit (omit : list nat) (i : Instruction) : bool :=
  existsb (Nat.eqb (iaddr i)) omit.

(** One pass over a block that drops every tracking call standing directly
    in front of an instruction of the set; the decision looks at the
    block as it is given. *)
Fixpoint sweep (omit : list nat) (l : list Instruction) : list Instruction :=
  match l with
  | [] => []
  | c :: l' =>
      match l' with
      | [] => [c]
      | i :: _ =>
          if isTrackingCall c && inOmit omit i then sweep omit l'
          else c :: sweep omit l'
      end
  end.

Definition sweepBlocks (omit : list nat) (bs : list BasicBlock) : list BasicBlock :=
  map (fun B => mkBlock (baddr B) (sweep omit (insts B))) bs.

(** The instructions the pass neither erases nor creates: everything but
    direct calls to [__dp_write], [__dp_read], [__dp_report_bb] and
    [__dp_add_omission_deps]. *)
Definition isProgramInst (i : Instruction) : bool :=
  negb (isTrackingCall i) && negb (isCallTo "__dp_report_bb" i)
  && negb (isCallTo "__dp_add_omission_deps" i).

(** [Module::getOrInsertFunction]: the module as it is when it has a
    function of that name, with a declaration appended otherwise. *)
Definition getOrInsertFunction (name : string) (M : Module) : Module :=
  if existsb (fun F => (fname F =? name)%string) M then M
  else M ++ [mkFunction name []].

(** [doInitialization] (lines 224-230), as far as it changes the module: it
    declares [__dp_report_bb].  The types and the name finder it stores
    have no part in the model, and the source returns no value. *)
Definition doInitialization (M : Module) : Module :=
  getOrInsertFunction "__dp_report_bb" M.

Definition declares (name : string) (M : Module) : bool :=
  existsb (fun F => (fname F =? name)%string) M.

(** Example: [stackedExample] with the load moved in front of the tracking
    calls and the declaration moved to the end. *)
Definition reorderedExample : Function :=
  mkFunction "f"
    [mkBlock 100
       [mkInst 4 100 (Load (Val 7 "x")) true;
        mkInst 2 100 (Call (Fn "__dp_read") [ConstantInt 1]) false;
        mkInst 3 100 (Call (Fn "__dp_read") [ConstantInt 2]) false];
     mkBlock 101
       [mkInst 1 100 (Call (Fn "llvm.dbg.declare") [MetadataAsValue (Some (7, "x"))]) false;
        mkInst 5 100 (Terminator []) true]].

(** Two blocks at the same address that end in the same instruction. *)
Definition sameFrame (B B' : BasicBlock) : Prop :=
  baddr B' = baddr B /\ last (insts B') = last (insts B).

(** ** Locality as the specification has it

    The specification revokes locality when the address is "passed as an
    argument to any function call" or is the stored value of a store.  The
    erase loop of lines 55-62 runs for direct calls only, so the set the
    pass computes and the local addresses of the specification can differ
    where an address is handed to a call through a pointer. *)


(** The values bound by the debug intrinsics of a function. *)
Definition boundValues (F : Function) : list Value :=
  instructions F ≫= seedsOf.


(** An address is provably local: a debug intrinsic of the function binds
    it, no call of the function, direct or not, takes it as an argument,
    and no store of the function stores it. *)
Definition provablyLocal (F : Function) (v : Value) : Prop :=
  (exists I, I ∈ instructions F /\ v ∈ seedsOf I) /\
  (forall I callee args, I ∈ instructions F -> ikind I = Call callee args -> v ∉ args) /\
  (forall I val ptr, I ∈ instructions F -> ikind I = Store val ptr -> v <> val).


(** ** Accepted nodes of the dependence graph *)

(** Every edge of the node with an operation at its other end passes the
    test of lines 108 and 114. *)
Definition orderedNode (A : Analyses) (F : Function) (node : Node) (I : Instruction)
    : Prop :=
  (forall e J, e ∈ getOutEdges node -> dstItem e = Some J ->
               iaddr J <> iaddr I /\ dominates A F J I = true) /\
  (forall e J, e ∈ getInEdges node -> srcItem e = Some J ->
               iaddr J <> iaddr I /\ dominates A F I J = true).

(** Some edge of the node fails the test. *)
Definition failingNode (A : Analyses) (F : Function) (node : Node) (I : Instruction)
    : Prop :=
  (exists e J, e ∈ getOutEdges node /\ dstItem e = Some J /\
               (iaddr J = iaddr I \/ dominates A F J I = false)) \/
  (exists e J, e ∈ getInEdges node /\ srcItem e = Some J /\
               (iaddr J = iaddr I \/ dominates A F I J = false)).

(** [d] is the descriptor of an edge of the node that has an operation at
    its other end. *)
Definition descriptorOf (node : Node) (d : string) : Prop :=
  (exists e, e ∈ getOutEdges node /\ is_Some (dstItem e) /\ edgeToDPDep e = d) \/
  (exists e, e ∈ getInEdges node /\ is_Some (srcItem e) /\ edgeToDPDep e = d).

(** The node loop accepts the node: it is a node of the graph with
    operation [I], all its edges pass, it has an edge, and the address
    operand of [I] is in the local set (line 119). *)
Definition acceptedNode (A : Analyses) (F : Function) (node : Node) (I : Instruction)
    : Prop :=
  node ∈ getNodes A F /\ getItem node = Some I /\
  orderedNode A F node I /\ (exists d, descriptorOf node d) /\
  isLocal (localSet F) I = true.

(** [d] is in the descriptor set of the block at [b] after the node loop. *)
Definition inBlockSet (A : Analyses) (F : Function) (b : nat) (d : string) : Prop :=
  exists ds, cdm_lookup b (depMapOf A F) = Some ds /\ d ∈ ds.

(** The statement C2 as it reads for a node with a failing edge: its
    operation is not added to the omittable set and none of the
    descriptors of its edges is in the set of any block. *)
Definition rejectedContributesNothing (A : Analyses) (F : Function) : Prop :=
  forall node I,
    node ∈ getNodes A F -> getItem node = Some I -> failingNode A F node I ->
    (iaddr I ∈ omittableSet A true F -> iaddr I ∈ baselineSet F) /\
    (forall d b, descriptorOf node d -> ~ inBlockSet A F b d).

(** Example: a load of the local [x] between two stores to it.  The load
    depends on the store before it, which dominates it, and on the store
    after it (through the back edge of a loop), which does not.  The edge
    to the first store is an outgoing edge of the load and an incoming
    edge of that store. *)
Definition sharedEdgeExample : Function :=
  mkFunction "f"
    [mkBlock 100
       [mkInst 1 100 (Call (Fn "llvm.dbg.declare") [MetadataAsValue (Some (7, "x"))]) false;
        mkInst 4 100 (Store (Val 9 "c") (Val 7 "x")) true;
        mkInst 5 100 (Load (Val 7 "x")) true;
        mkInst 6 100 (Store (Val 10 "d") (Val 7 "x")) true;
        mkInst 8 100 (Terminator []) true]].

Definition sharedStore1 : Instruction := mkInst 4 100 (Store (Val 9 "c") (Val 7 "x")) true.
Definition sharedLoad : Instruction := mkInst 5 100 (Load (Val 7 "x")) true.
Definition sharedStore2 : Instruction := mkInst 6 100 (Store (Val 10 "d") (Val 7 "x")) true.
Definition sharedEdge1 : Edge := mkEdge (Some sharedLoad) (Some sharedStore1) "RAW 4".
Definition sharedEdge2 : Edge := mkEdge (Some sharedLoad) (Some sharedStore2) "RAW 6".
Definition sharedLoadNode : Node := mkNode (Some sharedLoad) [sharedEdge1; sharedEdge2] [].

(** Within the block an instruction dominates the ones after it. *)
Definition sharedEdgeAnalyses : Analyses :=
  mkAnalyses
    (fun _ => [mkNode (Some sharedStore1) [] [sharedEdge1];
               sharedLoadNode;
               mkNode (Some sharedStore2) [] [sharedEdge2]])
    (fun _ J I0 => iaddr J <? iaddr I0).

(** ** The block reports, block by block *)

(** The block is the target of no report: the map has no entry for it, or
    it does not end in a terminator ([getTerminator()] is null). *)
Definition noReportFor (A : Analyses) (F : Function) (B : BasicBlock) : Prop :=
  baddr B ∉ map fst (depMapOf A F) \/
  (forall t, last (insts B) = Some t -> isTerminator t = false).

(** ** The erase inside the search loops (lines 57-61 and 72-76)

    [for (Value *w : localValues) if (w == v) localValues.erase(v);]
    erases the element the iterator of the loop stands on and then
    increments that iterator.  [std::set::erase] invalidates the iterators
    to the erased element, so the loop has defined behaviour exactly when
    no element of the set equals [v], and it then leaves the set as it
    is.  [None] stands for undefined behaviour. *)
Definition searchAndErase (localValues : gset Value) (v : Value) : option (gset Value) :=
  if bool_decide (v ∈ localValues) then None else Some localValues.

(** Lines 55-62: the loop over the arguments. *)
Fixpoint eraseArgs (localValues : gset Value) (args : list Value) : option (gset Value) :=
  match args with
  | [] => Some localValues
  | v :: args' =>
      match searchAndErase localValues v with
      | Some lv => eraseArgs lv args'
      | None => None
      end
  end.

(** [scanStep] with the erase loops as the language defines them. *)
Definition scanStepDefined (st : ScanState) (I : Instruction) : option ScanState :=
  let st1 :=
    match ikind I with
    | Call callee args =>
        match getCalledFunction callee with
        | Some fn =>
            match eraseArgs (localValues st) args with
            | Some lv =>
                Some (mkScan (if isTrackingName fn then S (total st) else total st)
                             lv (writtenValues st))
            | None => None
            end
        | None => Some st
        end
    | _ => Some st
    end in
  match st1 with
  | Some st1 =>
      match ikind I with
      | Store val ptr =>
          match searchAndErase (localValues st1) val with
          | Some lv =>
              Some (mkScan (total st1) lv
                      (if idebugloc I then {[ptr]} ∪ writtenValues st1
                       else writtenValues st1))
          | None => None
          end
      | _ => Some st1
      end
  | None => None
  end.

Fixpoint scanDefinedFrom (st : ScanState) (l : list Instruction) : option ScanState :=
  match l with
  | [] => Some st
  | I0 :: l' =>
      match scanStepDefined st I0 with
      | Some st' => scanDefinedFrom st' l'
      | None => None
      end
  end.

Definition scanFunctionDefined (total0 : nat) (F : Function) : option ScanState :=
  scanDefinedFrom (mkScan total0 (localSeeds F) ∅) (instructions F).

(** The second loop has defined behaviour on [F]. *)
Definition scanDefined (F : Function) : bool :=
  match scanFunctionDefined 0 F with Some _ => true | None => false end.

(** [runOnModule] where it has defined behaviour: every function the loop
    of line 29 does not skip is scanned without erasing under the
    iterator. *)
Definition definedRun (A : Analyses) (deep : bool) (st : PassState) (M : Module)
    : option (bool * Module * PassState) :=
  if forallb (fun F => (getInstructionCount F =? 0) || scanDefined F) M
  then Some (runOnModule A deep st M)
  else None.

(** Example: the address of the local [x] is handed to the function [g],
    as in [int x; g(&x);]. *)
Definition passedLocalExample : Function :=
  mkFunction "f"
    [mkBlock 100
       [mkInst 1 100 (Call (Fn "llvm.dbg.declare") [MetadataAsValue (Some (7, "x"))]) false;
        mkInst 2 100 (Call (Fn "g") [Val 7 "x"]) true;
        mkInst 3 100 (Terminator []) true]].

(** The module of that function, with the declarations of the functions
    it calls. *)
Definition passedLocalModule : Module :=
  [passedLocalExample; mkFunction "g" []; mkFunction "llvm.dbg.declare" []].

(** ** Further examples *)

(** Two reads of local addresses, each behind its tracking call. *)
Definition twoReadsExample : Function :=
  mkFunction "f"
    [mkBlock 100
       [mkInst 1 100 (Call (Fn "llvm.dbg.declare") [MetadataAsValue (Some (7, "x"))]) false;
        mkInst 2 100 (Call (Fn "llvm.dbg.declare") [MetadataAsValue (Some (8, "y"))]) false;
        mkInst 3 100 (Call (Fn "__dp_read") [ConstantInt 1]) false;
        mkInst 4 100 (Load (Val 7 "x")) true;
        mkInst 5 100 (Call (Fn "__dp_read") [ConstantInt 2]) false;
        mkInst 6 100 (Load (Val 8 "y")) true;
        mkInst 7 100 (Terminator []) true]].

(** The kinds of the instructions of a block after the table has been
    attached: a call to [__dp_add_omission_deps] with the string in front
    of every direct call to [__dp_finalize]. *)
Definition attachedKinds (depString : string) (l : list Instruction) : list InstKind :=
  flat_map (fun i =>
              if isFinalizeCall i
              then [Call (Fn "__dp_add_omission_deps") [GlobalStringPtr depString]; ikind i]
              else [ikind i]) l.

(** * Properties *)

(** ** Ordered sets *)

Section OrderedSetFacts.
Context {A : Type} (ltb : A -> A -> bool).
Hypothesis ltb_total : forall a b, ltb a b = false -> ltb b a = false -> a = b.

Lemma elem_of_oset_insert a s x :
  x ∈ oset_insert ltb a s <-> x = a \/ x ∈ s.
Proof.
  induction s as [|b s IH]; simpl.
  - rewrite list_elem_of_singleton. set_solver.
  - destruct (ltb a b) eqn:Hab.
    + rewrite elem_of_cons. tauto.
    + destruct (ltb b a) eqn:Hba.
      * rewrite !elem_of_cons, IH. tauto.
      * rewrite (ltb_total _ _ Hab Hba), elem_of_cons. tauto.
Qed.

Lemma elem_of_oset_insert_range s r x :
  x ∈ oset_insert_range ltb s r <-> x ∈ s \/ x ∈ r.
Proof.
  unfold oset_insert_range. revert s.
  induction r as [|y r IH]; intros s; simpl.
  - rewrite elem_of_nil. tauto.
  - rewrite IH, elem_of_oset_insert, elem_of_cons. tauto.
Qed.
End OrderedSetFacts.

Lemma nat_ltb_total a b : (a <? b) = false -> (b <? a) = false -> a = b.
Proof. rewrite !Nat.ltb_ge. lia. Qed.

Lemma string_ltb_total a b : String.ltb a b = false -> String.ltb b a = false -> a = b.
Proof.
  unfold String.ltb. rewrite (String.compare_antisym b a).
  destruct (String.compare a b) eqn:Hc; simpl; try discriminate.
  intros _ _. by apply String.compare_eq_iff.
Qed.

Lemma elem_of_ptrset_insert a s x : x ∈ ptrset_insert a s <-> x = a \/ x ∈ s.
Proof. apply elem_of_oset_insert, nat_ltb_total. Qed.

Lemma elem_of_strset_insert a s x : x ∈ strset_insert a s <-> x = a \/ x ∈ s.
Proof. apply elem_of_oset_insert, string_ltb_total. Qed.

(** ** The instruction list *)

Lemma elem_of_instructions F I :
  I ∈ instructions F <-> exists B, B ∈ blocks F /\ I ∈ insts B.
Proof.
  unfold instructions. induction (blocks F) as [|B bs IH]; simpl.
  - rewrite elem_of_nil. split; [done|]. intros (B & HB & _). by apply elem_of_nil in HB.
  - rewrite elem_of_app, IH. split.
    + intros [H|(B' & HB' & H)].
      * exists B. split; [left|done].
      * exists B'. split; [by right|done].
    + intros (B' & HB' & H). apply elem_of_cons in HB' as [->|HB'].
      * by left.
      * right. by exists B'.
Qed.

(** ** Closed forms of the scan *)

Lemma foldl_eraseValue lv args :
  foldl eraseValue lv args = lv ∖ list_to_set args.
Proof.
  revert lv. induction args as [|v args IH]; intros lv; simpl.
  - set_solver.
  - rewrite IH. unfold eraseValue. set_solver.
Qed.

Lemma scanStep_local st I :
  localValues (scanStep st I) = localValues st ∖ list_to_set (escapes I).
Proof.
  unfold scanStep, escapes.
  destruct (ikind I) as [p|v p|c args|ops|ops]; simpl; try set_solver.
  - unfold eraseValue. set_solver.
  - destruct (getCalledFunction c); simpl; [apply foldl_eraseValue|set_solver].
Qed.

Lemma scanStep_written st I :
  writtenValues (scanStep st I) = writtenValues st ∪ list_to_set (writes I).
Proof.
  unfold scanStep, writes.
  destruct (ikind I) as [p|v p|c args|ops|ops]; simpl; try set_solver.
  - destruct (idebugloc I); set_solver.
  - destruct (getCalledFunction c); simpl; set_solver.
Qed.

Lemma scanStep_total st I :
  total (scanStep st I) = total st + trackingCalls [I].
Proof.
  unfold scanStep, trackingCalls, isTrackingCall. simpl.
  destruct (ikind I) as [p|v p|c args|ops|ops]; simpl; try lia.
  destruct (getCalledFunction c) as [fn|]; simpl; [|lia].
  destruct (isTrackingName fn); simpl; lia.
Qed.

Lemma scan_local l st :
  localValues (foldl scanStep st l) = localValues st ∖ list_to_set (l ≫= escapes).
Proof.
  revert st. induction l as [|I l IH]; intros st; simpl.
  - set_solver.
  - rewrite IH, scanStep_local. set_solver.
Qed.

Lemma scan_written l st :
  writtenValues (foldl scanStep st l) = writtenValues st ∪ list_to_set (l ≫= writes).
Proof.
  revert st. induction l as [|I l IH]; intros st; simpl.
  - set_solver.
  - rewrite IH, scanStep_written. set_solver.
Qed.

Lemma trackingCalls_cons I l :
  trackingCalls (I :: l) = trackingCalls [I] + trackingCalls l.
Proof. unfold trackingCalls. simpl. destruct (isTrackingCall I); simpl; lia. Qed.

Lemma trackingCalls_app l1 l2 :
  trackingCalls (l1 ++ l2) = trackingCalls l1 + trackingCalls l2.
Proof. unfold trackingCalls. rewrite List.filter_app, length_app. lia. Qed.

Lemma scan_total l st :
  total (foldl scanStep st l) = total st + trackingCalls l.
Proof.
  revert st. induction l as [|I l IH]; intros st; simpl.
  - unfold trackingCalls. simpl. lia.
  - rewrite IH, scanStep_total, (trackingCalls_cons I l). lia.
Qed.

(** The counter does not influence the two sets. *)
Lemma scanFunction_local t F :
  localValues (scanFunction t F) = localSet F.
Proof. unfold localSet, scanFunction. by rewrite !scan_local. Qed.

Lemma scanFunction_written t F :
  writtenValues (scanFunction t F) = writtenSet F.
Proof. unfold writtenSet, scanFunction. by rewrite !scan_written. Qed.

Lemma localSet_closed F :
  localSet F = localSeeds F ∖ list_to_set (instructions F ≫= escapes).
Proof. unfold localSet, scanFunction. by rewrite scan_local. Qed.

Lemma writtenSet_closed F :
  writtenSet F = list_to_set (instructions F ≫= writes).
Proof. unfold writtenSet, scanFunction. rewrite scan_written. simpl. set_solver. Qed.

(** ** Baseline selection *)

Lemma elem_of_select lv wv l omit a :
  a ∈ foldl (selectStep lv wv) omit l <->
  a ∈ omit \/
  exists I v, I ∈ l /\ iaddr I = a /\ memoryAddress I = Some v /\
              baselineTest lv wv v = true.
Proof.
  revert omit. induction l as [|I l IH]; intros omit; simpl.
  - split; [by left|]. intros [H|(I & v & H & _)]; [done|]. by apply elem_of_nil in H.
  - rewrite IH. split.
    + intros [H|(J & v & HJ & Ha & Hm & Ht)].
      * unfold selectStep in H. unfold memoryAddress.
        destruct (ikind I) as [p|w p|c args|ops|ops] eqn:Hk; try by left.
        -- destruct (baselineTest lv wv p) eqn:Ht; [|by left].
           apply elem_of_ptrset_insert in H as [->|H]; [|by left].
           right. exists I, p. rewrite Hk. split; [left|done].
        -- destruct (baselineTest lv wv p) eqn:Ht; [|by left].
           apply elem_of_ptrset_insert in H as [->|H]; [|by left].
           right. exists I, p. rewrite Hk. split; [left|done].
      * right. exists J, v. split; [by right|done].
    + intros [H|(J & v & HJ & Ha & Hm & Ht)].
      * left. unfold selectStep.
        destruct (ikind I) as [p|w p|c args|ops|ops]; try done;
          destruct (baselineTest lv wv p); try done;
          apply elem_of_ptrset_insert; by right.
      * apply elem_of_cons in HJ as [->|HJ].
        -- left. unfold selectStep. unfold memoryAddress in Hm.
           destruct (ikind I) as [p|w p|c args|ops|ops]; try done;
             injection Hm as ->; rewrite Ht; apply elem_of_ptrset_insert; by left.
        -- right. by exists J, v.
Qed.

Lemma elem_of_baselineSet F a :
  a ∈ baselineSet F <->
  exists I v, I ∈ instructions F /\ iaddr I = a /\ memoryAddress I = Some v /\
              baselineTest (localSet F) (writtenSet F) v = true.
Proof.
  unfold baselineSet, baselineOmittable. rewrite elem_of_select.
  split; [intros [H|H]; [by apply elem_of_nil in H|done]|by right].
Qed.

Lemma baselineTest_true lv wv v :
  baselineTest lv wv v = true <-> (v ∈ lv /\ v ∉ wv) \/ getName v = "retval".
Proof.
  unfold baselineTest.
  rewrite orb_true_iff, andb_true_iff, !bool_decide_eq_true, String.eqb_eq. tauto.
Qed.

Lemma NoDup_map_inj {A B} (f : A -> B) (l : list A) x y :
  NoDup (map f l) -> x ∈ l -> y ∈ l -> f x = f y -> x = y.
Proof.
  induction l as [|z l IH]; simpl; intros Hnd Hx Hy Hf.
  - by apply elem_of_nil in Hx.
  - apply NoDup_cons in Hnd as [Hz Hnd].
    apply elem_of_cons in Hx as [->|Hx]; apply elem_of_cons in Hy as [->|Hy]; auto.
    + exfalso. apply Hz. rewrite Hf. apply list_elem_of_In, in_map. by apply list_elem_of_In.
    + exfalso. apply Hz. rewrite <- Hf. apply list_elem_of_In, in_map. by apply list_elem_of_In.
Qed.

(** C3. For a function whose instructions have pairwise distinct addresses,
    a load or store [I] with address operand [v] is in the baseline
    omittable set exactly when [v] is in the local set and not in the
    written set, or [v] is named [retval].  The set is computed before the
    flag of the deep analysis is looked at: without the flag it is the
    omittable set, with the flag it is the set the node loop starts from. *)
Theorem C3_baseline_selection (F : Function) (I : Instruction) (v : Value) :
  NoDup (map iaddr (instructions F)) ->
  I ∈ instructions F ->
  memoryAddress I = Some v ->
  (iaddr I ∈ baselineSet F <->
     (v ∈ localSet F /\ v ∉ writtenSet F) \/ getName v = "retval")
  /\ (forall A, omittableSet A false F = baselineSet F)
  /\ (forall A, omittableSet A true F =
         omittableInstructions
           (analyzeNodes (dominates A F) (localSet F) (baselineSet F) (getNodes A F))).
Proof.
  intros Hnd HI Hv. split; [|split; reflexivity].
  rewrite elem_of_baselineSet. split.
  - intros (J & w & HJ & Ha & Hm & Ht).
    assert (J = I) as -> by (eapply NoDup_map_inj; eauto).
    rewrite Hv in Hm. injection Hm as <-. by apply baselineTest_true.
  - intros H. exists I, v. repeat split; try done. by apply baselineTest_true.
Qed.

(** The baseline theorem at [stackedExample]: the load of [x] at address 4
    is selected, [x] being local and unwritten. *)
Lemma C3_baseline_selection_witness :
  (4 ∈ baselineSet stackedExample <->
     (Val 7 "x" ∈ localSet stackedExample /\ Val 7 "x" ∉ writtenSet stackedExample)
     \/ getName (Val 7 "x") = "retval")
  /\ (forall A, omittableSet A false stackedExample = baselineSet stackedExample)
  /\ (forall A, omittableSet A true stackedExample =
         omittableInstructions
           (analyzeNodes (dominates A stackedExample) (localSet stackedExample)
              (baselineSet stackedExample) (getNodes A stackedExample))).
Proof.
  apply (C3_baseline_selection stackedExample (mkInst 4 100 (Load (Val 7 "x")) true)
           (Val 7 "x")).
  - apply (bool_decide_unpack _). by vm_compute.
  - apply list_elem_of_In. simpl. auto.
  - reflexivity.
Defined.

(** ** Locality classifier *)

Lemma elem_of_bind_escapes (l : list Instruction) (I : Instruction) v :
  I ∈ l -> v ∈ escapes I -> v ∈ l ≫= escapes.
Proof. intros HI Hv. apply list_elem_of_bind. by exists I. Qed.

(** What the classifier does achieve: no argument of a direct call and no
    stored value is left in the local set. *)
Lemma local_not_direct_call_argument F I callee args v :
  I ∈ instructions F -> ikind I = Call callee args ->
  is_Some (getCalledFunction callee) -> v ∈ args -> v ∉ localSet F.
Proof.
  intros HI Hk [fn Hfn] Hv. rewrite localSet_closed.
  assert (v ∈ instructions F ≫= escapes).
  { eapply elem_of_bind_escapes; [done|]. unfold escapes. by rewrite Hk, Hfn. }
  set_solver.
Qed.

Lemma local_not_stored_value F I val ptr :
  I ∈ instructions F -> ikind I = Store val ptr -> val ∉ localSet F.
Proof.
  intros HI Hk. rewrite localSet_closed.
  assert (val ∈ instructions F ≫= escapes).
  { eapply elem_of_bind_escapes; [done|]. unfold escapes. rewrite Hk. by left. }
  set_solver.
Qed.

(** C4. At [indirectCallExample] the address [x] is declared by a debug
    intrinsic and passed as the argument of a call through a function
    pointer; it is still in the local set when the classifier is done. *)
Theorem C4_indirect_call_argument_stays_local :
  let x := Val 7 "x" in
  x ∈ localSet indirectCallExample /\
  exists I callee args,
    I ∈ instructions indirectCallExample /\ ikind I = Call callee args /\ x ∈ args.
Proof.
  split.
  - by vm_compute.
  - eexists (mkInst 2 100 _ true), _, _. split; [|split; [reflexivity|]].
    + apply list_elem_of_In. simpl. right. left. reflexivity.
    + left.
Qed.

(** ** Monotonicity of the deep analysis *)

Lemma analyzeNode_omit_mono dom lv st node a :
  a ∈ omittableInstructions st -> a ∈ omittableInstructions (analyzeNode dom lv st node).
Proof.
  intros Ha. unfold analyzeNode.
  destruct (getItem node) as [I0|]; [|done].
  destruct (nodeDeps dom I0 node) as [tmpDeps|]; [|done].
  destruct ((0 <? length tmpDeps) && isLocal lv I0); [|done].
  simpl. apply elem_of_ptrset_insert. by right.
Qed.

Lemma analyzeNodes_omit_mono dom lv nodes st a :
  a ∈ omittableInstructions st ->
  a ∈ omittableInstructions (foldl (analyzeNode dom lv) st nodes).
Proof.
  revert st. induction nodes as [|n nodes IH]; intros st Ha; simpl; [done|].
  by apply IH, analyzeNode_omit_mono.
Qed.

(** C5. Every operation of the baseline omittable set (deep analysis
    disabled) is in the omittable set computed with the deep analysis
    enabled. *)
Theorem C5_deep_analysis_only_adds (A : Analyses) (F : Function) (a : nat) :
  a ∈ omittableSet A false F -> a ∈ omittableSet A true F.
Proof.
  unfold omittableSet. intros Ha. by apply analyzeNodes_omit_mono.
Qed.

Lemma C5_deep_analysis_only_adds_witness :
  4 ∈ omittableSet noAnalyses false stackedExample /\
  4 ∈ omittableSet noAnalyses true stackedExample.
Proof.
  assert (H : 4 ∈ omittableSet noAnalyses false stackedExample)
    by (vm_compute; left).
  split; [exact H|].
  exact (C5_deep_analysis_only_adds noAnalyses stackedExample 4 H).
Defined.

(** ** The map from blocks to descriptor sets *)

Lemma cdm_lookup_None b m :
  Forall (fun k => k <> b) (map fst m) -> cdm_lookup b m = None.
Proof.
  induction m as [|[k s] m IH]; simpl; [done|].
  intros H. apply Forall_cons in H as [Hk H].
  destruct (Nat.eqb_spec k b); [done|]. by apply IH.
Qed.

Lemma cdm_lookup_update_eq b deps m :
  cdm_sorted m ->
  cdm_lookup b (cdm_update b deps m) =
    Some (match cdm_lookup b m with
          | Some s => oset_insert_range String.ltb s deps
          | None => deps
          end).
Proof.
  unfold cdm_sorted. induction m as [|[k s] m IH]; simpl; intros Hs.
  - by rewrite Nat.eqb_refl.
  - apply StronglySorted_inv in Hs as [Hs Hk].
    destruct (Nat.ltb_spec b k) as [Hbk|Hbk]; simpl.
    + rewrite Nat.eqb_refl. destruct (Nat.eqb_spec k b); [lia|].
      rewrite cdm_lookup_None; [done|].
      eapply Forall_impl; [exact Hk|]. simpl. lia.
    + destruct (Nat.ltb_spec k b) as [Hkb|Hkb]; simpl.
      * destruct (Nat.eqb_spec k b); [lia|]. by apply IH.
      * destruct (Nat.eqb_spec k b); [done|lia].
Qed.

Lemma cdm_lookup_update_ne b b' deps m :
  b <> b' -> cdm_lookup b' (cdm_update b deps m) = cdm_lookup b' m.
Proof.
  intros Hne. induction m as [|[k s] m IH]; simpl.
  - destruct (Nat.eqb_spec b b'); [done|done].
  - destruct (Nat.ltb_spec b k) as [Hbk|Hbk]; simpl.
    + destruct (Nat.eqb_spec b b'); [done|done].
    + destruct (Nat.ltb_spec k b) as [Hkb|Hkb]; simpl.
      * by rewrite IH.
      * assert (k = b) as -> by lia. destruct (Nat.eqb_spec b b'); [done|done].
Qed.

Lemma cdm_update_keys b deps m k :
  k ∈ map fst (cdm_update b deps m) <-> k = b \/ k ∈ map fst m.
Proof.
  induction m as [|[k' s] m IH]; simpl.
  - rewrite list_elem_of_singleton, elem_of_nil. tauto.
  - destruct (Nat.ltb_spec b k') as [Hbk|Hbk]; simpl.
    + rewrite !elem_of_cons. tauto.
    + destruct (Nat.ltb_spec k' b) as [Hkb|Hkb]; simpl.
      * rewrite !elem_of_cons, IH. tauto.
      * assert (k' = b) as -> by lia. rewrite !elem_of_cons. tauto.
Qed.

Lemma cdm_update_sorted b deps m :
  cdm_sorted m -> cdm_sorted (cdm_update b deps m).
Proof.
  unfold cdm_sorted. induction m as [|[k s] m IH]; simpl; intros Hs.
  - repeat constructor.
  - apply StronglySorted_inv in Hs as [Hs Hk].
    destruct (Nat.ltb_spec b k) as [Hbk|Hbk]; simpl.
    + constructor; [by constructor|]. constructor; [done|].
      eapply Forall_impl; [exact Hk|]. simpl. lia.
    + destruct (Nat.ltb_spec k b) as [Hkb|Hkb]; simpl.
      * constructor; [by apply IH|]. apply Forall_forall. intros x Hx.
        apply cdm_update_keys in Hx as [-> | Hx]; [done|].
        by eapply Forall_forall in Hk.
      * by constructor.
Qed.

(** ** The edge tests *)

Lemma checkOutEdges_fail dom I edges tmp :
  (exists e J, e ∈ edges /\ dstItem e = Some J /\
               (iaddr J = iaddr I \/ dom J I = false)) ->
  checkOutEdges dom I edges tmp = None.
Proof.
  revert tmp. induction edges as [|e0 edges IH]; intros tmp (e & J & He & HJ & Hbad).
  - by apply elem_of_nil in He.
  - simpl. apply elem_of_cons in He as [-> | He].
    + rewrite HJ. unfold sameInst.
      destruct Hbad as [-> | ->]; [by rewrite Nat.eqb_refl|by rewrite orb_true_r].
    + destruct (dstItem e0) as [J0|]; [|apply IH; eauto].
      destruct (sameInst I J0 || negb (dom J0 I)); [done|]. apply IH; eauto.
Qed.

Lemma checkInEdges_fail dom I edges tmp :
  (exists e J, e ∈ edges /\ srcItem e = Some J /\
               (iaddr J = iaddr I \/ dom I J = false)) ->
  checkInEdges dom I edges tmp = None.
Proof.
  revert tmp. induction edges as [|e0 edges IH]; intros tmp (e & J & He & HJ & Hbad).
  - by apply elem_of_nil in He.
  - simpl. apply elem_of_cons in He as [-> | He].
    + rewrite HJ. unfold sameInst.
      destruct Hbad as [-> | ->]; [by rewrite Nat.eqb_refl|by rewrite orb_true_r].
    + destruct (srcItem e0) as [J0|]; [|apply IH; eauto].
      destruct (sameInst I J0 || negb (dom I J0)); [done|]. apply IH; eauto.
Qed.

Lemma checkOutEdges_pass dom I edges tmp :
  (forall e J, e ∈ edges -> dstItem e = Some J ->
               iaddr J <> iaddr I /\ dom J I = true) ->
  exists tmp', checkOutEdges dom I edges tmp = Some tmp' /\
    forall d, d ∈ tmp' <->
      d ∈ tmp \/ exists e, e ∈ edges /\ is_Some (dstItem e) /\ edgeToDPDep e = d.
Proof.
  revert tmp. induction edges as [|e0 edges IH]; intros tmp Hall; simpl.
  - exists tmp. split; [done|]. intros d. split; [by left|].
    intros [H|(e & He & _)]; [done|]. by apply elem_of_nil in He.
  - assert (Hrest : forall e J, e ∈ edges -> dstItem e = Some J ->
                      iaddr J <> iaddr I /\ dom J I = true).
    { intros e J He. apply Hall. by right. }
    destruct (dstItem e0) as [J0|] eqn:HJ0.
    + destruct (Hall e0 J0) as [Hne Hdom]; [left|done|].
      unfold sameInst. destruct (Nat.eqb_spec (iaddr I) (iaddr J0)); [congruence|].
      rewrite Hdom. simpl.
      destruct (IH (strset_insert (edgeToDPDep e0) tmp) Hrest) as (tmp' & -> & Htmp').
      exists tmp'. split; [done|]. intros d. rewrite Htmp', elem_of_strset_insert.
      split.
      * intros [[-> | H]|(e & He & Hs & Hd)]; [right|by left|right].
        -- exists e0. split; [left|]. by rewrite HJ0.
        -- exists e. split; [by right|done].
      * intros [H|(e & He & Hs & Hd)]; [by left; right|].
        apply elem_of_cons in He as [-> | He]; [by left; left|].
        right. by exists e.
    + destruct (IH tmp Hrest) as (tmp' & -> & Htmp').
      exists tmp'. split; [done|]. intros d. rewrite Htmp'. split.
      * intros [H|(e & He & Hs & Hd)]; [by left|]. right. exists e. split; [by right|done].
      * intros [H|(e & He & Hs & Hd)]; [by left|].
        apply elem_of_cons in He as [-> | He].
        -- rewrite HJ0 in Hs. by destruct Hs.
        -- right. by exists e.
Qed.

Lemma checkInEdges_pass dom I edges tmp :
  (forall e J, e ∈ edges -> srcItem e = Some J ->
               iaddr J <> iaddr I /\ dom I J = true) ->
  exists tmp', checkInEdges dom I edges tmp = Some tmp' /\
    forall d, d ∈ tmp' <->
      d ∈ tmp \/ exists e, e ∈ edges /\ is_Some (srcItem e) /\ edgeToDPDep e = d.
Proof.
  revert tmp. induction edges as [|e0 edges IH]; intros tmp Hall; simpl.
  - exists tmp. split; [done|]. intros d. split; [by left|].
    intros [H|(e & He & _)]; [done|]. by apply elem_of_nil in He.
  - assert (Hrest : forall e J, e ∈ edges -> srcItem e = Some J ->
                      iaddr J <> iaddr I /\ dom I J = true).
    { intros e J He. apply Hall. by right. }
    destruct (srcItem e0) as [J0|] eqn:HJ0.
    + destruct (Hall e0 J0) as [Hne Hdom]; [left|done|].
      unfold sameInst. destruct (Nat.eqb_spec (iaddr I) (iaddr J0)); [congruence|].
      rewrite Hdom. simpl.
      destruct (IH (strset_insert (edgeToDPDep e0) tmp) Hrest) as (tmp' & -> & Htmp').
      exists tmp'. split; [done|]. intros d. rewrite Htmp', elem_of_strset_insert.
      split.
      * intros [[-> | H]|(e & He & Hs & Hd)]; [right|by left|right].
        -- exists e0. split; [left|]. by rewrite HJ0.
        -- exists e. split; [by right|done].
      * intros [H|(e & He & Hs & Hd)]; [by left; right|].
        apply elem_of_cons in He as [-> | He]; [by left; left|].
        right. by exists e.
    + destruct (IH tmp Hrest) as (tmp' & -> & Htmp').
      exists tmp'. split; [done|]. intros d. rewrite Htmp'. split.
      * intros [H|(e & He & Hs & Hd)]; [by left|]. right. exists e. split; [by right|done].
      * intros [H|(e & He & Hs & Hd)]; [by left|].
        apply elem_of_cons in He as [-> | He].
        -- rewrite HJ0 in Hs. by destruct Hs.
        -- right. by exists e.
Qed.

(** ** One node of the dependence graph *)

Lemma nodeDeps_fail dom I node :
  (exists e J, e ∈ getOutEdges node /\ dstItem e = Some J /\
               (iaddr J = iaddr I \/ dom J I = false)) \/
  (exists e J, e ∈ getInEdges node /\ srcItem e = Some J /\
               (iaddr J = iaddr I \/ dom I J = false)) ->
  nodeDeps dom I node = None.
Proof.
  unfold nodeDeps. intros [Hout|Hin].
  - by rewrite checkOutEdges_fail.
  - destruct (checkOutEdges dom I (getOutEdges node) []); [|done].
    by apply checkInEdges_fail.
Qed.

Lemma nodeDeps_pass dom I node :
  (forall e J, e ∈ getOutEdges node -> dstItem e = Some J ->
               iaddr J <> iaddr I /\ dom J I = true) ->
  (forall e J, e ∈ getInEdges node -> srcItem e = Some J ->
               iaddr J <> iaddr I /\ dom I J = true) ->
  exists deps, nodeDeps dom I node = Some deps /\
    forall d, d ∈ deps <->
      (exists e, e ∈ getOutEdges node /\ is_Some (dstItem e) /\ edgeToDPDep e = d) \/
      (exists e, e ∈ getInEdges node /\ is_Some (srcItem e) /\ edgeToDPDep e = d).
Proof.
  intros Hout Hin. unfold nodeDeps.
  destruct (checkOutEdges_pass dom I _ [] Hout) as (tmp & -> & Htmp).
  destruct (checkInEdges_pass dom I _ tmp Hin) as (deps & -> & Hdeps).
  exists deps. split; [done|]. intros d. rewrite Hdeps, Htmp, elem_of_nil. tauto.
Qed.

(** A node that yields descriptors has only edges that pass. *)
Lemma nodeDeps_Some dom I node deps :
  nodeDeps dom I node = Some deps ->
  (forall e J, e ∈ getOutEdges node -> dstItem e = Some J ->
               iaddr J <> iaddr I /\ dom J I = true) /\
  (forall e J, e ∈ getInEdges node -> srcItem e = Some J ->
               iaddr J <> iaddr I /\ dom I J = true).
Proof.
  intros Hd. split; intros e J He HJ.
  - destruct (decide (iaddr J = iaddr I)) as [Heq|Hne].
    + rewrite nodeDeps_fail in Hd; [done|]. left. exists e, J. auto.
    + split; [done|]. destruct (dom J I) eqn:Hdom; [done|].
      rewrite nodeDeps_fail in Hd; [done|]. left. exists e, J. auto.
  - destruct (decide (iaddr J = iaddr I)) as [Heq|Hne].
    + rewrite nodeDeps_fail in Hd; [done|]. right. exists e, J. auto.
    + split; [done|]. destruct (dom I J) eqn:Hdom; [done|].
      rewrite nodeDeps_fail in Hd; [done|]. right. exists e, J. auto.
Qed.

Lemma length_pos_elem {A} (l : list A) : (0 <? length l) = true <-> exists x, x ∈ l.
Proof.
  destruct l as [|x l]; simpl.
  - split; [done|]. intros [x Hx]. by apply elem_of_nil in Hx.
  - split; [|done]. intros _. exists x. left.
Qed.

(** One iteration of the node loop.  Let [I] be the operation of the
    node.  If some outgoing edge leads to an operation that is [I] itself
    or does not dominate [I], or some incoming edge comes from an
    operation that is [I] itself or is not dominated by [I], the iteration
    leaves the omittable set and the map of descriptor sets as they were.
    If every edge with an operation at its other end passes, there is at
    least one such edge and the address operand of [I] is in the local
    set, then [I] is in the omittable set afterwards and the set of its
    block is the former set of that block together with the descriptors
    of all these edges, the sets of the other blocks being unchanged. *)
Lemma analyzeNode_all_or_nothing
    (dom : Instruction -> Instruction -> bool) (lv : gset Value)
    (st : DeepState) (node : Node) (I : Instruction) :
  getItem node = Some I ->
  cdm_sorted (conditionalDepMap st) ->
  ((exists e J, e ∈ getOutEdges node /\ dstItem e = Some J /\
                (iaddr J = iaddr I \/ dom J I = false)) \/
   (exists e J, e ∈ getInEdges node /\ srcItem e = Some J /\
                (iaddr J = iaddr I \/ dom I J = false)) ->
   analyzeNode dom lv st node = st)
  /\
  ((forall e J, e ∈ getOutEdges node -> dstItem e = Some J ->
                iaddr J <> iaddr I /\ dom J I = true) ->
   (forall e J, e ∈ getInEdges node -> srcItem e = Some J ->
                iaddr J <> iaddr I /\ dom I J = true) ->
   (exists e, (e ∈ getOutEdges node /\ is_Some (dstItem e)) \/
              (e ∈ getInEdges node /\ is_Some (srcItem e))) ->
   (exists v, addressOperand I = Some v /\ v ∈ lv) ->
   iaddr I ∈ omittableInstructions (analyzeNode dom lv st node) /\
   (exists deps,
      cdm_lookup (iparent I) (conditionalDepMap (analyzeNode dom lv st node)) = Some deps /\
      forall d, d ∈ deps <->
        d ∈ default [] (cdm_lookup (iparent I) (conditionalDepMap st)) \/
        (exists e, e ∈ getOutEdges node /\ is_Some (dstItem e) /\ edgeToDPDep e = d) \/
        (exists e, e ∈ getInEdges node /\ is_Some (srcItem e) /\ edgeToDPDep e = d)) /\
   (forall b, b <> iparent I ->
      cdm_lookup b (conditionalDepMap (analyzeNode dom lv st node)) =
      cdm_lookup b (conditionalDepMap st))).
Proof.
  intros Hitem Hsorted. split.
  - intros Hbad. unfold analyzeNode. rewrite Hitem. by rewrite nodeDeps_fail.
  - intros Hout Hin (e0 & He0) (v & Hv & Hlv).
    destruct (nodeDeps_pass dom I node Hout Hin) as (deps & Hdeps & Hmem).
    unfold analyzeNode. rewrite Hitem, Hdeps.
    assert (Hpos : (0 <? length deps) = true).
    { apply length_pos_elem. exists (edgeToDPDep e0). apply Hmem.
      destruct He0 as [[He Hs]|[He Hs]]; [left|right]; by exists e0. }
    assert (Hloc : isLocal lv I = true).
    { unfold isLocal. rewrite Hv. by apply bool_decide_eq_true. }
    rewrite Hpos, Hloc. simpl. split; [|split].
    + apply elem_of_ptrset_insert. by left.
    + rewrite cdm_lookup_update_eq by done. eexists. split; [reflexivity|].
      intros d. destruct (cdm_lookup (iparent I) (conditionalDepMap st)) as [s|]; simpl.
      * rewrite (elem_of_oset_insert_range _ string_ltb_total), Hmem. tauto.
      * rewrite Hmem, elem_of_nil. tauto.
    + intros b Hb. by apply cdm_lookup_update_ne.
Qed.

(** Membership in the omittable set after the node loop. *)
Lemma elem_of_analyzeNodes dom lv nodes st a :
  a ∈ omittableInstructions (foldl (analyzeNode dom lv) st nodes) <->
  a ∈ omittableInstructions st \/
  exists node I deps,
    node ∈ nodes /\ getItem node = Some I /\ iaddr I = a /\
    nodeDeps dom I node = Some deps /\ deps <> [] /\ isLocal lv I = true.
Proof.
  revert st. induction nodes as [|n nodes IH]; intros st; simpl.
  - split; [by left|]. intros [H|(node & I & deps & H & _)]; [done|].
    by apply elem_of_nil in H.
  - rewrite IH. split.
    + intros [H|(node & I & deps & Hn & H)].
      * unfold analyzeNode in H.
        destruct (getItem n) as [I0|] eqn:Hitem; [|by left].
        destruct (nodeDeps dom I0 n) as [tmpDeps|] eqn:Hd; [|by left].
        destruct (0 <? length tmpDeps) eqn:Hpos; simpl in H; [|by left].
        destruct (isLocal lv I0) eqn:Hloc; simpl in H; [|by left].
        apply elem_of_ptrset_insert in H as [-> | H]; [|by left].
        right. exists n, I0, tmpDeps. split; [left|]. repeat split; try done.
        intros ->. simpl in Hpos. discriminate.
      * right. exists node, I, deps. split; [by right|done].
    + intros [H|(node & I & deps & Hn & Hitem & Ha & Hd & Hne & Hloc)].
      * left. by apply analyzeNode_omit_mono.
      * apply elem_of_cons in Hn as [-> | Hn].
        -- left. unfold analyzeNode. rewrite Hitem, Hd, Hloc.
           destruct deps; [done|]. simpl. apply elem_of_ptrset_insert. by left.
        -- right. by exists node, I, deps.
Qed.

(** ** One step of the removal loop *)

Lemma erasePrevIn_cons a p i l :
  erasePrevIn a (p :: i :: l) =
    if iaddr i =? a then
      if isTrackingCall p then (i :: l, true) else (p :: i :: l, false)
    else ((p :: (erasePrevIn a (i :: l)).1), (erasePrevIn a (i :: l)).2).
Proof. reflexivity. Qed.

Lemma erasedIn_cons a p i l :
  erasedIn a (p :: i :: l) =
    if iaddr i =? a then
      if isTrackingCall p then Some p else None
    else erasedIn a (i :: l).
Proof. reflexivity. Qed.

Lemma erasePrevIn_spec a l :
  (erasePrevIn a l = (l, false) /\ erasedIn a l = None) \/
  (exists l1 c i l2,
     l = l1 ++ c :: i :: l2 /\ iaddr i = a /\ isTrackingCall c = true /\
     Forall (fun x => iaddr x <> a) (tail (l1 ++ [c])) /\
     erasePrevIn a l = (l1 ++ i :: l2, true) /\ erasedIn a l = Some c).
Proof.
  induction l as [|p l IH]; [by left|].
  destruct l as [|i l']; [by left|].
  rewrite erasePrevIn_cons, erasedIn_cons.
  destruct (Nat.eqb_spec (iaddr i) a) as [Ha|Ha].
  - destruct (isTrackingCall p) eqn:Hp; [|by left].
    right. exists [], p, i, l'. simpl. repeat split; try done.
  - destruct IH as [[-> ->]|(l1 & c & i' & l2 & Hl & Hi & Hc & Hall & -> & ->)].
    + by left.
    + right. exists (p :: l1), c, i', l2. simpl. rewrite Hl. repeat split; try done.
      destruct l1 as [|x l1]; simpl in *.
      * injection Hl as -> _. by constructor.
      * injection Hl as -> _. by constructor.
Qed.

Lemma erasePrevBlock_spec a l :
  (erasePrevBlock a l = (l, false) /\ erasedBlock a l = None) \/
  (exists l1 c i l2,
     l = l1 ++ c :: i :: l2 /\ iaddr i = a /\ isTrackingCall c = true /\
     Forall (fun x => iaddr x <> a) (l1 ++ [c]) /\
     erasePrevBlock a l = (l1 ++ i :: l2, true) /\ erasedBlock a l = Some c).
Proof.
  unfold erasePrevBlock, erasedBlock. destruct l as [|i0 l]; [by left|].
  destruct (Nat.eqb_spec (iaddr i0) a) as [Ha|Ha]; [by left|].
  destruct (erasePrevIn_spec a (i0 :: l))
    as [[-> ->]|(l1 & c & i & l2 & Hl & Hi & Hc & Hall & -> & ->)]; [by left|].
  right. exists l1, c, i, l2. repeat split; try done.
  destruct l1 as [|x l1]; simpl in *.
  - injection Hl as -> _. by constructor.
  - injection Hl as -> _. by constructor.
Qed.

Lemma erasePrevBlocks_spec a bs :
  (erasePrevBlocks a bs = (bs, false) /\ erasedBlocks a bs = None) \/
  (exists bs1 B bs2 l1 c i l2,
     bs = bs1 ++ B :: bs2 /\ insts B = l1 ++ c :: i :: l2 /\
     iaddr i = a /\ isTrackingCall c = true /\
     Forall (fun x => iaddr x <> a) (l1 ++ [c]) /\
     Forall (fun B' => hasInst a (insts B') = false) bs1 /\
     erasePrevBlocks a bs = (bs1 ++ mkBlock (baddr B) (l1 ++ i :: l2) :: bs2, true) /\
     erasedBlocks a bs = Some c).
Proof.
  induction bs as [|B bs IH]; [by left|]. simpl.
  destruct (hasInst a (insts B)) eqn:Hhas.
  - destruct (erasePrevBlock_spec a (insts B))
      as [[-> ->]|(l1 & c & i & l2 & Hl & Hi & Hc & Hall & -> & ->)].
    + left. by destruct B.
    + right. exists [], B, bs, l1, c, i, l2. simpl. repeat split; try done.
  - destruct IH as [[-> ->]|(bs1 & B' & bs2 & l1 & c & i & l2 & Hbs & Hl & Hi & Hc
                              & Hall & Hnot & -> & ->)].
    + by left.
    + right. exists (B :: bs1), B', bs2, l1, c, i, l2. simpl. rewrite Hbs.
      repeat split; try done. by constructor.
Qed.

(** ** Counting tracking calls *)

Lemma allInsts_app bs1 bs2 : allInsts (bs1 ++ bs2) = allInsts bs1 ++ allInsts bs2.
Proof. unfold allInsts. by rewrite map_app, concat_app. Qed.

Lemma allInsts_middle bs1 B bs2 :
  allInsts (bs1 ++ B :: bs2) = allInsts bs1 ++ insts B ++ allInsts bs2.
Proof. by rewrite allInsts_app. Qed.

Lemma erasePrevBlocks_count a bs :
  trackingCalls (allInsts (erasePrevBlocks a bs).1)
    + (if (erasePrevBlocks a bs).2 then 1 else 0)
  = trackingCalls (allInsts bs).
Proof.
  destruct (erasePrevBlocks_spec a bs)
    as [[-> _]|(bs1 & B & bs2 & l1 & c & i & l2 & -> & Hl & Hi & Hc & _ & _ & -> & _)].
  - simpl. lia.
  - cbn [fst snd]. rewrite !allInsts_middle, Hl. cbn [insts].
    rewrite !trackingCalls_app, (trackingCalls_cons c (i :: l2)).
    assert (trackingCalls [c] = 1) as ->.
    { unfold trackingCalls. simpl. by rewrite Hc. }
    lia.
Qed.

Lemma removeStep_count st a :
  trackingCalls (instructions (removeStep st a).1) + (removeStep st a).2
  = trackingCalls (instructions st.1) + st.2.
Proof.
  unfold removeStep, instructions. simpl.
  pose proof (erasePrevBlocks_count a (blocks st.1)) as H. unfold allInsts in H.
  destruct (erasePrevBlocks a (blocks st.1)) as [bs' []]; simpl in *; lia.
Qed.

Lemma removeOmittable_count omit F r :
  trackingCalls (instructions (removeOmittable omit F r).1) + (removeOmittable omit F r).2
  = trackingCalls (instructions F) + r.
Proof.
  unfold removeOmittable.
  change F with (F, r).1 at 3. change r with (F, r).2 at 4.
  generalize (F, r). induction omit as [|a omit IH]; intros st; simpl; [done|].
  by rewrite IH, removeStep_count.
Qed.

Lemma removeStep_snd st a :
  (removeStep st a).2 =
  st.2 + length (match erasedBlocks a (blocks st.1) with Some c => [(a, c)] | None => [] end).
Proof.
  unfold removeStep. simpl.
  destruct (erasePrevBlocks_spec a (blocks st.1))
    as [[-> ->]|(bs1 & B & bs2 & l1 & c & i & l2 & _ & _ & _ & _ & _ & _ & -> & ->)];
    simpl; lia.
Qed.

(** The counter grows by the length of the trace. *)
Lemma foldl_removeStep_trace omit st :
  (foldl removeStep st omit).2 = st.2 + length (removalTrace omit st.1).
Proof.
  revert st. induction omit as [|a omit IH]; intros st; simpl; [lia|].
  rewrite IH, removeStep_snd, length_app.
  destruct st as [F r]. simpl. lia.
Qed.

Lemma removeOmittable_trace omit F r :
  (removeOmittable omit F r).2 = r + length (removalTrace omit F).
Proof. apply (foldl_removeStep_trace omit (F, r)). Qed.

Lemma removalTrace_elem omit F a c :
  (a, c) ∈ removalTrace omit F -> a ∈ omit /\ isTrackingCall c = true.
Proof.
  revert F. induction omit as [|a0 omit IH]; intros F; simpl.
  - intros H. by apply elem_of_nil in H.
  - rewrite elem_of_app. intros [H|H].
    + destruct (erasePrevBlocks_spec a0 (blocks F))
        as [[_ He]|(bs1 & B & bs2 & l1 & c0 & i & l2 & _ & _ & _ & Hc & _ & _ & _ & He)];
        rewrite He in H.
      * by apply elem_of_nil in H.
      * apply list_elem_of_singleton in H. inversion H; subst. split; [left|done].
    + destruct (IH _ H) as [Ha Hc]. split; [by right|done].
Qed.

(** ** What the rewriting keeps

    Instructions selected by a test [p] that rejects the calls the pass
    creates or erases are the same before and after. *)
Section Kept.
Variable p : Instruction -> bool.

Lemma filter_insertBeforeTerminator c l :
  p c = false ->
  List.filter p (insertBeforeTerminator c l) = List.filter p l.
Proof.
  intros Hc. induction l as [|i l IH]; [done|].
  destruct l as [|j l].
  - simpl. destruct (isTerminator i); simpl; by rewrite ?Hc.
  - change (insertBeforeTerminator c (i :: j :: l))
      with (i :: insertBeforeTerminator c (j :: l)).
    assert (H : forall x k, List.filter p (x :: k)
              = if p x then x :: List.filter p k else List.filter p k) by reflexivity.
    by rewrite (H i (insertBeforeTerminator c (j :: l))), (H i (j :: l)), IH.
Qed.

Lemma filter_insertReport b c F :
  p c = false ->
  List.filter p (instructions (insertReport b c F)) = List.filter p (instructions F).
Proof.
  intros Hc. unfold instructions, insertReport. simpl.
  induction (blocks F) as [|B bs IH]; [done|]. simpl.
  rewrite !List.filter_app, IH. f_equal.
  destruct (baddr B =? b); [|done]. simpl. by apply filter_insertBeforeTerminator.
Qed.

Hypothesis p_report : forall addr parent index, p (reportCall addr parent index) = false.

Lemma filter_reportSteps m st :
  List.filter p (instructions (foldl reportStep st m).1) = List.filter p (instructions st.1).
Proof.
  revert st. induction m as [|pair m IH]; intros st; simpl; [done|].
  rewrite IH. unfold reportStep. simpl. by apply filter_insertReport.
Qed.

Lemma filter_afterReports A deep table F :
  List.filter p (instructions (afterReports A deep table F).1)
  = List.filter p (instructions F).
Proof.
  unfold afterReports. destruct deep; [|done]. by rewrite filter_reportSteps.
Qed.

Hypothesis p_tracking : forall c, isTrackingCall c = true -> p c = false.

Lemma filter_erasePrevBlocks a bs :
  List.filter p (allInsts (erasePrevBlocks a bs).1) = List.filter p (allInsts bs).
Proof.
  destruct (erasePrevBlocks_spec a bs)
    as [[-> _]|(bs1 & B & bs2 & l1 & c & i & l2 & -> & Hl & Hi & Hc & _ & _ & -> & _)];
    [done|].
  cbn [fst]. rewrite !allInsts_middle, Hl. cbn [insts].
  rewrite !List.filter_app. simpl. by rewrite (p_tracking c Hc).
Qed.

Lemma filter_removeOmittable omit F r :
  List.filter p (instructions (removeOmittable omit F r).1) = List.filter p (instructions F).
Proof.
  unfold removeOmittable. change F with (F, r).1 at 2. generalize (F, r).
  induction omit as [|a omit IH]; intros st; simpl; [done|].
  rewrite IH. unfold removeStep, instructions. simpl. apply filter_erasePrevBlocks.
Qed.
End Kept.

(** ** The loop body in terms of its parts *)

Lemma processFunction_eq A deep st F :
  getInstructionCount F <> 0 ->
  processFunction A deep st F =
    (let r1 := afterReports A deep (conditionalBBDeps st) F in
     let r := removeOmittable (omittableSet A deep F) r1.1 (removedInstrumentations st) in
     (r.1, mkPass r1.2 (totalInstrumentations st + trackingCalls (instructions F)) r.2)).
Proof.
  intros Hn. unfold processFunction.
  destruct (Nat.eqb_spec (getInstructionCount F) 0) as [|_]; [done|].
  rewrite !scanFunction_local, !scanFunction_written.
  assert (total (scanFunction (totalInstrumentations st) F)
          = totalInstrumentations st + trackingCalls (instructions F)) as ->.
  { unfold scanFunction. by rewrite scan_total. }
  unfold afterReports, omittableSet, depMapOf. fold (localSet F). fold (writtenSet F).
  by destruct deep.
Qed.

Lemma processFunction_skip A deep st F :
  getInstructionCount F = 0 -> processFunction A deep st F = (F, st).
Proof. intros Hn. unfold processFunction. by rewrite Hn. Qed.

Lemma reportCall_not_tracking addr parent index :
  isTrackingCall (reportCall addr parent index) = false.
Proof. reflexivity. Qed.

(** The counters after one function. *)
Lemma processFunction_counters A deep st F :
  getInstructionCount F <> 0 ->
  totalInstrumentations (processFunction A deep st F).2
    = totalInstrumentations st + trackingCalls (instructions F) /\
  removedInstrumentations (processFunction A deep st F).2
    = removedInstrumentations st
      + length (removalTrace (omittableSet A deep F)
                             (afterReports A deep (conditionalBBDeps st) F).1) /\
  removedInstrumentations (processFunction A deep st F).2
    <= removedInstrumentations st + trackingCalls (instructions F).
Proof.
  intros Hn. rewrite processFunction_eq by done. cbn [snd totalInstrumentations
    removedInstrumentations]. split; [done|]. split.
  - apply removeOmittable_trace.
  - pose proof (removeOmittable_count (omittableSet A deep F)
                  (afterReports A deep (conditionalBBDeps st) F).1
                  (removedInstrumentations st)) as H.
    assert (trackingCalls (instructions (afterReports A deep (conditionalBBDeps st) F).1)
            = trackingCalls (instructions F)) as Heq.
    { unfold trackingCalls. f_equal. apply filter_afterReports, reportCall_not_tracking. }
    rewrite Heq in H. lia.
Qed.

Lemma runFunctions_counters A deep M st :
  removedInstrumentations st <= totalInstrumentations st ->
  removedInstrumentations (runFunctions A deep st M).2
    <= totalInstrumentations (runFunctions A deep st M).2.
Proof.
  revert st. induction M as [|F M IH]; intros st Hst; simpl; [done|].
  apply IH.
  destruct (decide (getInstructionCount F = 0)) as [Hz|Hnz].
  - by rewrite processFunction_skip.
  - destruct (processFunction_counters A deep st F Hnz) as (-> & _ & Hle). lia.
Qed.

Lemma runOnModule_state A deep st M :
  (runOnModule A deep st M).2 = (runFunctions A deep st M).2.
Proof. unfold runOnModule. by destruct deep. Qed.

(** C10. If the removed counter is at most the total counter when the pass
    starts (both are zero in a fresh process), it is at most the total
    counter when the pass is done.  For every function that is processed:
    the total counter grows by the number of direct calls to [__dp_write]
    and [__dp_read] the function has on entry, the removed counter grows
    by the number of calls the removal loop erases, each erased call is
    such a direct call, and there are at most as many of them as were
    counted. *)
Theorem C10_removed_at_most_total
    (A : Analyses) (deep : bool) (st : PassState) (M : Module) :
  removedInstrumentations st <= totalInstrumentations st ->
  removedInstrumentations (runOnModule A deep st M).2
    <= totalInstrumentations (runOnModule A deep st M).2
  /\ forall F st0,
       getInstructionCount F <> 0 ->
       totalInstrumentations (processFunction A deep st0 F).2
         = totalInstrumentations st0 + trackingCalls (instructions F) /\
       removedInstrumentations (processFunction A deep st0 F).2
         = removedInstrumentations st0
           + length (removalTrace (omittableSet A deep F)
                                  (afterReports A deep (conditionalBBDeps st0) F).1) /\
       (forall a c,
          (a, c) ∈ removalTrace (omittableSet A deep F)
                                (afterReports A deep (conditionalBBDeps st0) F).1 ->
          isTrackingCall c = true) /\
       removedInstrumentations (processFunction A deep st0 F).2
         <= removedInstrumentations st0 + trackingCalls (instructions F).
Proof.
  intros Hst. split.
  - rewrite runOnModule_state. by apply runFunctions_counters.
  - intros F st0 Hn.
    destruct (processFunction_counters A deep st0 F Hn) as (H1 & H2 & H3).
    repeat split; try done.
    intros a c Hac. by apply removalTrace_elem in Hac as [_ Hc].
Qed.

Lemma C10_removed_at_most_total_witness :
  removedInstrumentations freshPass <= totalInstrumentations freshPass /\
  removedInstrumentations (runOnModule noAnalyses false freshPass [retvalExample]).2
    <= totalInstrumentations (runOnModule noAnalyses false freshPass [retvalExample]).2.
Proof.
  assert (H : removedInstrumentations freshPass <= totalInstrumentations freshPass)
    by (simpl; lia).
  split; [exact H|].
  exact (proj1 (C10_removed_at_most_total noAnalyses false freshPass [retvalExample] H)).
Defined.

(** ** Which calls are removed *)



Lemma nodeDeps_staticallyOrdered A F node I deps :
  node ∈ getNodes A F -> getItem node = Some I ->
  nodeDeps (dominates A F) I node = Some deps -> deps <> [] ->
  staticallyOrdered A F I.
Proof.
  intros Hn Hitem Hd Hne. exists node.
  destruct (nodeDeps_Some _ _ _ _ Hd) as [Hout Hin].
  split; [done|]. split; [done|]. split; [done|]. split; [done|].
  destruct (nodeDeps_pass _ _ _ Hout Hin) as (deps' & Hd' & Hmem).
  rewrite Hd in Hd'. injection Hd' as <-.
  destruct deps as [|d deps]; [done|].
  assert (Hd1 : d ∈ d :: deps) by left. apply Hmem in Hd1.
  destruct Hd1 as [(e1 & He & Hs & _)|(e1 & He & Hs & _)]; exists e1; auto.
Qed.



(** ** Serialization *)

Lemma append_cons x (a b : string) :
  String.append (String x a) b = String x (String.append a b).
Proof. reflexivity. Qed.

Lemma append_empty_l (b : string) : String.append "" b = b.
Proof. reflexivity. Qed.

Lemma append_assoc (a b c : string) :
  String.append (String.append a b) c = String.append a (String.append b c).
Proof.
  induction a as [|x a IH]; [done|]. by rewrite !append_cons, IH.
Qed.

Lemma append_empty_r (a : string) : String.append a "" = a.
Proof. induction a as [|x a IH]; [done|]. by rewrite append_cons, IH. Qed.

Lemma joinWith_cons sep x l :
  joinWith sep (x :: l) = String.append x (tailWith sep l).
Proof.
  revert x. induction l as [|y l IH]; intros x.
  - simpl. by rewrite append_empty_r.
  - change (joinWith sep (x :: y :: l))
      with (String.append x (String.append sep (joinWith sep (y :: l)))).
    by rewrite IH.
Qed.

Lemma appendDep_tail ds s :
  foldl appendDep (s, false) ds = (String.append s (tailWith "," ds), false).
Proof.
  revert s. induction ds as [|d ds IH]; intros s; simpl.
  - by rewrite append_empty_r.
  - unfold appendDep at 2. simpl. rewrite IH. by rewrite !append_assoc.
Qed.

Lemma appendDep_join ds s :
  (foldl appendDep (s, true) ds).1 = String.append s (joinWith "," ds).
Proof.
  destruct ds as [|d ds].
  - simpl. by rewrite append_empty_r.
  - rewrite joinWith_cons. simpl. unfold appendDep at 2. simpl.
    rewrite appendDep_tail. simpl. by rewrite append_assoc.
Qed.

Lemma appendBBDeps_tail table s :
  foldl appendBBDeps (s, false) table
  = (String.append s (tailWith "/" (map (joinWith ",") table)), false).
Proof.
  revert s. induction table as [|e table IH]; intros s; simpl.
  - by rewrite append_empty_r.
  - unfold appendBBDeps at 2. simpl. rewrite appendDep_join, IH.
    by rewrite !append_assoc.
Qed.

(** The loops of lines 185-196 write the entries separated by [/] and the
    descriptors of an entry separated by [,]. *)
Lemma buildDepString_join table :
  buildDepString table = joinWith "/" (map (joinWith ",") table).
Proof.
  unfold buildDepString. destruct table as [|e table]; [done|].
  simpl map. rewrite joinWith_cons. simpl. unfold appendBBDeps at 2. simpl.
  rewrite appendDep_join, appendBBDeps_tail. done.
Qed.

Lemma contains_append c a b :
  contains c (String.append a b) = contains c a || contains c b.
Proof.
  induction a as [|x a IH]; simpl; [done|]. rewrite IH. by rewrite orb_assoc.
Qed.

Lemma splitOn_plain sep x :
  contains sep x = false -> splitOn sep x = [x].
Proof.
  induction x as [|c x IH]; simpl; [done|].
  intros H. apply orb_false_iff in H as [Hc Hx].
  rewrite Hc, IH; done.
Qed.

Lemma splitOn_append sep x rest :
  contains sep x = false ->
  splitOn sep (String.append x (String sep rest)) = x :: splitOn sep rest.
Proof.
  induction x as [|c x IH]; simpl.
  - intros _. by rewrite Ascii.eqb_refl.
  - intros H. apply orb_false_iff in H as [Hc Hx]. by rewrite Hc, IH.
Qed.

Lemma splitOn_joinWith sep l :
  l <> [] -> Forall (fun x => contains sep x = false) l ->
  splitOn sep (joinWith (String sep "") l) = l.
Proof.
  induction l as [|x l IH]; [done|]. intros _ Hall.
  apply Forall_cons in Hall as [Hx Hall].
  destruct l as [|y l].
  - simpl. by apply splitOn_plain.
  - change (joinWith (String sep "") (x :: y :: l))
      with (String.append x (String.append (String sep "") (joinWith (String sep "") (y :: l)))).
    rewrite (append_cons sep "" _), append_empty_l, splitOn_append by done.
    by rewrite IH.
Qed.

Lemma contains_joinWith c sep l :
  contains c sep = false -> Forall (fun x => contains c x = false) l ->
  contains c (joinWith sep l) = false.
Proof.
  intros Hsep. induction l as [|x l IH]; [done|]. intros Hall.
  apply Forall_cons in Hall as [Hx Hall].
  destruct l as [|y l]; [done|].
  change (joinWith sep (x :: y :: l))
    with (String.append x (String.append sep (joinWith sep (y :: l)))).
  rewrite !contains_append, Hx, Hsep, IH; done.
Qed.

Lemma joinWith_empty sep l :
  joinWith (String sep "") l = "" -> l = [] \/ l = [""].
Proof.
  destruct l as [|x [|y l]]; [by left|simpl; intros ->; by right|].
  change (joinWith (String sep "") (x :: y :: l))
    with (String.append x (String.append (String sep "") (joinWith (String sep "") (y :: l)))).
  destruct x; rewrite ?append_cons, ?append_empty_l; discriminate.
Qed.

(** C7, as the code has it.  If no descriptor contains [/] or [,], every
    entry of the table has at least one descriptor (the pass only appends
    such entries) and the table is not the single entry that holds only
    the empty descriptor, then decoding the serialized table gives the
    table back; and the empty table serializes to the empty string. *)
Theorem C7_round_trip (table : list (list string)) :
  noDelimiters table ->
  (forall bbDeps, bbDeps ∈ table -> bbDeps <> []) ->
  table <> [[""]] ->
  decodeTable (buildDepString table) = table /\ buildDepString [] = "".
Proof.
  intros Hnd Hne Hnot. split; [|done].
  rewrite buildDepString_join. unfold decodeTable.
  destruct (String.eqb_spec (joinWith "/" (map (joinWith ",") table)) "") as [He|He].
  - destruct table as [|e table]; [done|]. exfalso.
    apply joinWith_empty in He as [He|He]; [done|].
    destruct table as [|e' table]; [|done]. simpl in He. injection He as He.
    apply joinWith_empty in He as [-> | ->]; [|done].
    apply (Hne []); [left|done].
  - assert (table <> []) as Ht by (by intros ->).
    rewrite splitOn_joinWith.
    + rewrite map_map. rewrite <- (map_id table) at 2. apply map_ext_in.
      intros e Hin. apply list_elem_of_In in Hin. apply splitOn_joinWith; [by apply Hne|].
      apply Forall_forall. intros d Hd. by destruct (Hnd e d Hin Hd).
    + by destruct table.
    + apply Forall_forall. intros s Hs. apply list_elem_of_In, in_map_iff in Hs
        as (e & <- & Hin). apply list_elem_of_In in Hin.
      apply contains_joinWith; [done|]. apply Forall_forall. intros d Hd.
      by destruct (Hnd e d Hin Hd).
Qed.

Lemma C7_round_trip_witness :
  decodeTable (buildDepString [["a"; "b"]; ["c"]]) = [["a"; "b"]; ["c"]]
  /\ buildDepString [] = "".
Proof.
  apply (C7_round_trip [["a"; "b"]; ["c"]]).
  - intros e d He Hd.
    repeat (apply elem_of_cons in He as [-> | He];
            [repeat (apply elem_of_cons in Hd as [-> | Hd]; [by vm_compute|]);
             by apply elem_of_nil in Hd|]).
    by apply elem_of_nil in He.
  - intros e He.
    repeat (apply elem_of_cons in He as [-> | He]; [done|]). by apply elem_of_nil in He.
  - done.
Defined.

(** C7 as stated fails: the table whose only entry holds only the empty
    descriptor contains no delimiter and serializes to the empty string,
    like the empty table, so no decoder can give both back; the decoder
    of the documented format gives the empty table. *)
Lemma C7_counterexample_empty_descriptor :
  noDelimiters [[""]] /\
  buildDepString [[""]] = buildDepString [] /\
  decodeTable (buildDepString [[""]]) <> [[""]].
Proof.
  split; [|split; [reflexivity|by vm_compute]].
  intros e d He Hd. apply list_elem_of_singleton in He as ->.
  apply list_elem_of_singleton in Hd as ->. by vm_compute.
Qed.

(** ** The loop over the functions *)

Lemma isTrackingName_spec fn :
  isTrackingName fn = true -> fn = "__dp_write" \/ fn = "__dp_read".
Proof.
  unfold isTrackingName. rewrite orb_true_iff, !String.eqb_eq. tauto.
Qed.

Lemma tracking_not_callTo name c :
  name <> "__dp_write" -> name <> "__dp_read" ->
  isTrackingCall c = true -> isCallTo name c = false.
Proof.
  intros Hw Hr. unfold isTrackingCall, isCallTo.
  destruct (ikind c) as [| |callee args| |]; try done.
  destruct (getCalledFunction callee) as [fn|]; [|done].
  intros [-> | ->]%isTrackingName_spec; by apply String.eqb_neq.
Qed.

Lemma report_not_callTo name addr parent index :
  name <> "__dp_report_bb" -> isCallTo name (reportCall addr parent index) = false.
Proof.
  intros Hn. unfold isCallTo, reportCall. cbn [ikind getCalledFunction].
  apply String.eqb_neq. congruence.
Qed.

Lemma fname_reportSteps m st : fname (foldl reportStep st m).1 = fname st.1.
Proof.
  revert st. induction m as [|pair m IH]; intros st; simpl; [done|]. by rewrite IH.
Qed.

Lemma fname_removeOmittable omit F r : fname (removeOmittable omit F r).1 = fname F.
Proof.
  unfold removeOmittable. change F with (F, r).1 at 2. generalize (F, r).
  induction omit as [|a omit IH]; intros st; simpl; [done|]. by rewrite IH.
Qed.

Lemma fname_processFunction A deep st F : fname (processFunction A deep st F).1 = fname F.
Proof.
  destruct (decide (getInstructionCount F = 0)) as [Hz|Hnz].
  - by rewrite processFunction_skip.
  - rewrite processFunction_eq by done. cbn [fst].
    rewrite fname_removeOmittable. unfold afterReports.
    destruct deep; [|done]. by rewrite fname_reportSteps.
Qed.

(** Calls to a function other than the two recorders and [__dp_report_bb]
    are the same before and after the loop body. *)
Lemma callsTo_processFunction name A deep st F :
  name <> "__dp_write" -> name <> "__dp_read" -> name <> "__dp_report_bb" ->
  List.filter (isCallTo name) (instructions (processFunction A deep st F).1)
  = List.filter (isCallTo name) (instructions F).
Proof.
  intros Hw Hr Hb.
  destruct (decide (getInstructionCount F = 0)) as [Hz|Hnz].
  - by rewrite processFunction_skip.
  - rewrite processFunction_eq by done. cbn [fst].
    rewrite filter_removeOmittable by (intros c; by apply tracking_not_callTo).
    apply filter_afterReports. intros. by apply report_not_callTo.
Qed.

Lemma existsb_filter {X} (p : X -> bool) l :
  existsb p l = match List.filter p l with [] => false | _ => true end.
Proof.
  induction l as [|x l IH]; [done|]. simpl. destruct (p x); [done|]. by rewrite IH.
Qed.

Lemma hasFinalizeCall_processFunction A deep st F :
  hasFinalizeCall (processFunction A deep st F).1 = hasFinalizeCall F.
Proof.
  unfold hasFinalizeCall. rewrite !existsb_filter.
  change isFinalizeCall with (isCallTo "__dp_finalize").
  by rewrite callsTo_processFunction.
Qed.

Lemma isMain_processFunction A deep st F :
  isMain (processFunction A deep st F).1 = isMain F.
Proof. unfold isMain, hasName. by rewrite fname_processFunction. Qed.

Lemma runFunctions_lookup A deep M st k F :
  M !! k = Some F ->
  exists stk, (runFunctions A deep st M).1 !! k = Some (processFunction A deep stk F).1.
Proof.
  revert st k. induction M as [|F0 M IH]; intros st k Hk; [done|].
  destruct k as [|k]; simpl in *.
  - injection Hk as ->. by exists st.
  - by apply IH.
Qed.

(** ** Attaching the table *)

Lemma map_lookup_Some {X Y} (f : X -> Y) (l : list X) k x :
  l !! k = Some x -> map f l !! k = Some (f x).
Proof.
  revert k. induction l as [|y l IH]; intros k Hk; [done|].
  destruct k as [|k]; simpl in *; [by injection Hk as ->|by apply IH].
Qed.

Lemma declareAddDeps_lookup b (M : Module) k F :
  M !! k = Some F -> declareAddDeps b M !! k = Some F.
Proof.
  intros Hk. unfold declareAddDeps.
  destruct (b && _); [|done]. by apply lookup_app_l_Some.
Qed.


(** ** The table and the block reports *)

Lemma cdm_update_nonempty b deps m :
  deps <> [] -> Forall (fun p => p.2 <> []) m ->
  Forall (fun p => p.2 <> []) (cdm_update b deps m).
Proof.
  intros Hd. induction m as [|[k s] m IH]; simpl; intros Hm.
  - by repeat constructor.
  - apply Forall_cons in Hm as [Hs Hm].
    destruct (b <? k); [by repeat constructor|].
    destruct (k <? b); [constructor; [done|by apply IH]|].
    constructor; [|done]. simpl in *. destruct s as [|x s]; [done|].
    intros Hnil.
    assert (Hx : x ∈ oset_insert_range String.ltb (x :: s) deps).
    { apply (elem_of_oset_insert_range _ string_ltb_total). left. left. }
    rewrite Hnil in Hx. by apply elem_of_nil in Hx.
Qed.

Lemma analyzeNode_map_inv dom lv st node :
  cdm_sorted (conditionalDepMap st) /\ Forall (fun p => p.2 <> []) (conditionalDepMap st) ->
  cdm_sorted (conditionalDepMap (analyzeNode dom lv st node)) /\
  Forall (fun p => p.2 <> []) (conditionalDepMap (analyzeNode dom lv st node)).
Proof.
  intros [Hs Hn]. unfold analyzeNode.
  destruct (getItem node) as [I0|]; [|done].
  destruct (nodeDeps dom I0 node) as [tmpDeps|]; [|done].
  destruct (0 <? length tmpDeps) eqn:Hpos; simpl; [|done].
  destruct (isLocal lv I0); simpl; [|done].
  split; [by apply cdm_update_sorted|]. apply cdm_update_nonempty; [|done].
  intros ->. simpl in Hpos. discriminate.
Qed.

Lemma analyzeNodes_map_inv dom lv nodes st :
  cdm_sorted (conditionalDepMap st) /\ Forall (fun p => p.2 <> []) (conditionalDepMap st) ->
  cdm_sorted (conditionalDepMap (foldl (analyzeNode dom lv) st nodes)) /\
  Forall (fun p => p.2 <> []) (conditionalDepMap (foldl (analyzeNode dom lv) st nodes)).
Proof.
  revert st. induction nodes as [|n nodes IH]; intros st Hst; simpl; [done|].
  by apply IH, analyzeNode_map_inv.
Qed.

Lemma depMapOf_inv A F :
  cdm_sorted (depMapOf A F) /\ Forall (fun p => p.2 <> []) (depMapOf A F).
Proof.
  unfold depMapOf, analyzeNodes. apply analyzeNodes_map_inv. simpl.
  split; constructor.
Qed.

Lemma reportSteps_table m st :
  (foldl reportStep st m).2 = st.2 ++ map snd m.
Proof.
  revert st. induction m as [|pair m IH]; intros st; simpl.
  - by rewrite app_nil_r.
  - rewrite IH. simpl. by rewrite <- app_assoc.
Qed.

Lemma processFunction_table A st F :
  conditionalBBDeps (processFunction A true st F).2 = conditionalBBDeps st ++ tableOf A F.
Proof.
  unfold tableOf. destruct (Nat.eqb_spec (getInstructionCount F) 0) as [Hz|Hnz].
  - rewrite processFunction_skip by done. by rewrite app_nil_r.
  - rewrite processFunction_eq by done. cbn [snd conditionalBBDeps].
    unfold afterReports. by rewrite reportSteps_table.
Qed.

Lemma runFunctions_table A M st :
  conditionalBBDeps (runFunctions A true st M).2
  = conditionalBBDeps st ++ concat (map (tableOf A) M).
Proof.
  revert st. induction M as [|F M IH]; intros st; simpl.
  - by rewrite app_nil_r.
  - rewrite IH, processFunction_table. by rewrite <- app_assoc.
Qed.

Lemma insertBeforeTerminator_snoc c body t :
  isTerminator t = true -> insertBeforeTerminator c (body ++ [t]) = body ++ [c; t].
Proof.
  intros Ht. induction body as [|i body IH]; simpl; [by rewrite Ht|].
  rewrite IH. by destruct body.
Qed.

Lemma insertReport_lookup_other b c F k B :
  blocks F !! k = Some B -> baddr B <> b -> blocks (insertReport b c F) !! k = Some B.
Proof.
  intros Hk Hb. unfold insertReport. simpl.
  rewrite (map_lookup_Some _ _ _ _ Hk).
  by destruct (Nat.eqb_spec (baddr B) b).
Qed.

Lemma insertReport_lookup_same c F k B :
  blocks F !! k = Some B ->
  blocks (insertReport (baddr B) c F) !! k
  = Some (mkBlock (baddr B) (insertBeforeTerminator c (insts B))).
Proof.
  intros Hk. unfold insertReport. simpl.
  rewrite (map_lookup_Some _ _ _ _ Hk). by rewrite Nat.eqb_refl.
Qed.

Lemma reportSteps_lookup_other m st k B :
  blocks st.1 !! k = Some B -> baddr B ∉ map fst m ->
  blocks (foldl reportStep st m).1 !! k = Some B.
Proof.
  revert st. induction m as [|[b deps] m IH]; intros st Hk Hb; simpl; [done|].
  apply IH.
  - unfold reportStep. cbn [fst snd]. apply insertReport_lookup_other; [done|].
    intros Heq. apply Hb. simpl. rewrite Heq. left.
  - intros Hin. apply Hb. simpl. by right.
Qed.

(** The block of the [i]-th pair of the map gets the report with the
    index of its entry. *)
Lemma reportSteps_lookup_at m st i b deps k B body t :
  cdm_sorted m -> m !! i = Some (b, deps) ->
  blocks st.1 !! k = Some B -> baddr B = b ->
  insts B = body ++ [t] -> isTerminator t = true ->
  exists addr,
    blocks (foldl reportStep st m).1 !! k
    = Some (mkBlock b (body ++ [reportCall addr b (length st.2 + i); t])).
Proof.
  revert st i. induction m as [|[b0 deps0] m IH]; intros st i Hs Hi Hk Hb Hl Ht; [done|].
  unfold cdm_sorted in Hs. simpl in Hs. apply StronglySorted_inv in Hs as [Hs Hlt].
  destruct i as [|i]; simpl in Hi.
  - injection Hi as -> ->. simpl.
    exists (freshAddr st.1). apply reportSteps_lookup_other.
    + unfold reportStep. cbn [fst snd]. subst b.
      rewrite (insertReport_lookup_same _ _ _ _ Hk), Hl.
      rewrite insertBeforeTerminator_snoc by done. by rewrite Nat.add_0_r.
    + simpl. intros Hin. eapply Forall_forall in Hlt; [|exact Hin]. lia.
  - simpl.
    assert (Hne : baddr B <> b0).
    { rewrite Hb. intros ->.
      assert (b0 ∈ map fst m).
      { apply list_elem_of_In, in_map_iff. exists (b0, deps). split; [done|].
        apply list_elem_of_In. by eapply list_elem_of_lookup_2. }
      eapply Forall_forall in Hlt; [|done]. lia. }
    destruct (IH (reportStep st (b0, deps0)) i Hs Hi) as (addr & Hres); try done.
    + unfold reportStep. cbn [fst snd]. by apply insertReport_lookup_other.
    + exists addr. rewrite Hres. unfold reportStep. cbn [fst snd].
      rewrite length_app. simpl.
      by replace (length st.2 + 1 + i) with (length st.2 + S i) by lia.
Qed.

(** The removal loop keeps the end of a block that is not a tracking call
    followed by one more instruction. *)
Lemma list_tail_cases {X} (l : list X) :
  l = [] \/ (exists x, l = [x]) \/ exists l' y z, l = l' ++ [y; z].
Proof.
  destruct l as [|z l _] using rev_ind; [by left|]. right.
  destruct l as [|y l _] using rev_ind; [left; by exists z|]. right.
  exists l, y, z. by rewrite <- app_assoc.
Qed.

Lemma erase_keeps_tail l1 c i l2 body r t :
  l1 ++ c :: i :: l2 = body ++ [r; t] ->
  isTrackingCall c = true -> isTrackingCall r = false ->
  exists body', l1 ++ i :: l2 = body' ++ [r; t].
Proof.
  intros Heq Hc Hr.
  destruct (list_tail_cases l2) as [-> |[[x ->]|(l' & y & z & ->)]].
  - apply app_inj_2 in Heq as [_ Heq]; [|done]. injection Heq as -> _. congruence.
  - change (l1 ++ [c; i; x]) with (l1 ++ [c] ++ [i; x]) in Heq.
    rewrite app_assoc in Heq. apply app_inj_2 in Heq as [_ Heq]; [|done].
    injection Heq as -> ->. by exists l1.
  - change (l1 ++ c :: i :: l' ++ [y; z]) with (l1 ++ (c :: i :: l') ++ [y; z]) in Heq.
    rewrite app_assoc in Heq. apply app_inj_2 in Heq as [_ Heq]; [|done].
    injection Heq as -> ->. exists (l1 ++ i :: l'). by rewrite <- app_assoc.
Qed.

Lemma erasePrevBlocks_keeps_tail a bs k b body r t :
  bs !! k = Some (mkBlock b (body ++ [r; t])) -> isTrackingCall r = false ->
  exists body', (erasePrevBlocks a bs).1 !! k = Some (mkBlock b (body' ++ [r; t])).
Proof.
  intros Hk Hr.
  destruct (erasePrevBlocks_spec a bs)
    as [[-> _]|(bs1 & B0 & bs2 & l1 & c & i & l2 & -> & Hl & Hi & Hc & _ & _ & -> & _)].
  - by exists body.
  - cbn [fst]. destruct (decide (k < length bs1)) as [Hlt|Hge].
    + exists body. rewrite lookup_app_l in Hk by done. by rewrite lookup_app_l.
    + rewrite lookup_app_r in Hk by lia. rewrite lookup_app_r by lia.
      destruct (k - length bs1) as [|k']; simpl in *.
      * injection Hk as ->. simpl in *.
        destruct (erase_keeps_tail _ _ _ _ _ _ _ (eq_sym Hl) Hc Hr) as (body' & ->).
        by exists body'.
      * by exists body.
Qed.

Lemma removeOmittable_keeps_tail omit F removed k b body r t :
  blocks F !! k = Some (mkBlock b (body ++ [r; t])) -> isTrackingCall r = false ->
  exists body',
    blocks (removeOmittable omit F removed).1 !! k = Some (mkBlock b (body' ++ [r; t])).
Proof.
  unfold removeOmittable. change F with (F, removed).1 at 1. generalize (F, removed).
  clear F removed. intros st. revert st body.
  induction omit as [|a omit IH]; intros st body Hk Hr; simpl; [by exists body|].
  destruct (erasePrevBlocks_keeps_tail a _ _ _ _ _ _ Hk Hr) as (body1 & H1).
  by apply (IH (removeStep st a) body1).
Qed.

Lemma elem_of_depMap_keys dom lv nodes st b :
  b ∈ map fst (conditionalDepMap (foldl (analyzeNode dom lv) st nodes)) <->
  b ∈ map fst (conditionalDepMap st) \/
  exists node, node ∈ nodes /\ qualifyingBlock dom lv node = Some b.
Proof.
  revert st. induction nodes as [|n nodes IH]; intros st; simpl.
  - split; [by left|]. intros [H|(node & H & _)]; [done|]. by apply elem_of_nil in H.
  - rewrite IH. clear IH.
    assert (Hstep : b ∈ map fst (conditionalDepMap (analyzeNode dom lv st n)) <->
                    b ∈ map fst (conditionalDepMap st) \/ qualifyingBlock dom lv n = Some b).
    { unfold analyzeNode, qualifyingBlock.
      destruct (getItem n) as [I0|]; [|naive_solver].
      destruct (nodeDeps dom I0 n) as [tmpDeps|]; [|naive_solver].
      destruct ((0 <? length tmpDeps) && isLocal lv I0); [|naive_solver].
      simpl. rewrite cdm_update_keys. naive_solver. }
    rewrite Hstep. split.
    + intros [[H|H]|(node & Hn & H)]; [by left|right; exists n|right; exists node].
      * split; [left|done].
      * split; [by right|done].
    + intros [H|(node & Hn & H)]; [by left; left|].
      apply elem_of_cons in Hn as [-> | Hn]; [by left; right|].
      right. by exists node.
Qed.

(** What the removal loop does to one block: the block keeps its place
    and its address and loses tracking calls only. *)
Lemma erasePrevBlocks_block (p : Instruction -> bool) a bs k B :
  (forall c, isTrackingCall c = true -> p c = false) ->
  bs !! k = Some B ->
  exists B', (erasePrevBlocks a bs).1 !! k = Some B' /\ baddr B' = baddr B /\
             List.filter p (insts B') = List.filter p (insts B).
Proof.
  intros Hp Hk.
  destruct (erasePrevBlocks_spec a bs)
    as [[-> _]|(bs1 & B0 & bs2 & l1 & c & i & l2 & -> & Hl & _ & Hc & _ & _ & -> & _)].
  - by exists B.
  - cbn [fst]. destruct (decide (k < length bs1)) as [Hlt|Hge].
    + exists B. rewrite lookup_app_l in Hk by done. by rewrite lookup_app_l.
    + rewrite lookup_app_r in Hk by lia. rewrite lookup_app_r by lia.
      destruct (k - length bs1) as [|k']; simpl in *.
      * injection Hk as ->. eexists. split; [done|]. split; [done|]. simpl.
        rewrite Hl, !List.filter_app. simpl. by rewrite (Hp c Hc).
      * by exists B.
Qed.

Lemma removeOmittable_block (p : Instruction -> bool) omit F r k B :
  (forall c, isTrackingCall c = true -> p c = false) ->
  blocks F !! k = Some B ->
  exists B', blocks (removeOmittable omit F r).1 !! k = Some B' /\ baddr B' = baddr B /\
             List.filter p (insts B') = List.filter p (insts B).
Proof.
  intros Hp. unfold removeOmittable. change F with (F, r).1 at 1. generalize (F, r).
  clear F r. intros st. revert st B.
  induction omit as [|a omit IH]; intros st B Hk; simpl; [by exists B|].
  destruct (erasePrevBlocks_block p a _ _ _ Hp Hk) as (B1 & H1 & Hb1 & Hf1).
  destruct (IH (removeStep st a) B1 H1) as (B' & H' & Hb' & Hf').
  exists B'. split; [done|]. split; congruence.
Qed.

Lemma length_erasePrevBlocks a bs : length (erasePrevBlocks a bs).1 = length bs.
Proof.
  induction bs as [|B bs IH]; [done|]. simpl.
  destruct (hasInst a (insts B)); simpl; by rewrite ?IH.
Qed.

Lemma length_removeOmittable omit F r :
  length (blocks (removeOmittable omit F r).1) = length (blocks F).
Proof.
  unfold removeOmittable. change F with (F, r).1 at 2. generalize (F, r).
  induction omit as [|a omit IH]; intros st; simpl; [done|].
  rewrite IH. unfold removeStep. cbn [fst blocks]. apply length_erasePrevBlocks.
Qed.

Lemma length_reportSteps m st :
  length (blocks (foldl reportStep st m).1) = length (blocks st.1).
Proof.
  revert st. induction m as [|pair m IH]; intros st; simpl; [done|].
  rewrite IH. unfold reportStep, insertReport. cbn [fst blocks]. apply length_map.
Qed.

(** A block without a terminator at its end gets no report. *)
Lemma insertBeforeTerminator_none c l :
  (forall t, last l = Some t -> isTerminator t = false) ->
  insertBeforeTerminator c l = l.
Proof.
  induction l as [|i l IH]; intros Hl; [done|]. destruct l as [|j l].
  - simpl. by rewrite (Hl i eq_refl).
  - change (insertBeforeTerminator c (i :: j :: l))
      with (i :: insertBeforeTerminator c (j :: l)).
    rewrite IH; [done|]. intros t Ht. apply Hl. by rewrite last_cons_cons.
Qed.

Lemma reportSteps_lookup_none m st k B :
  blocks st.1 !! k = Some B ->
  (forall t, last (insts B) = Some t -> isTerminator t = false) ->
  blocks (foldl reportStep st m).1 !! k = Some B.
Proof.
  revert st. induction m as [|[b deps] m IH]; intros st Hk Hl; simpl; [done|].
  apply IH; [|done]. unfold reportStep, insertReport. cbn [fst snd blocks].
  rewrite (map_lookup_Some _ _ _ _ Hk).
  destruct (baddr B =? b); [|done].
  rewrite insertBeforeTerminator_none by done. by destruct B.
Qed.

Lemma untracked_app l1 l2 : untracked (l1 ++ l2) = untracked l1 ++ untracked l2.
Proof. apply List.filter_app. Qed.

Lemma untracked_not_tracking c :
  isTrackingCall c = true -> negb (isTrackingCall c) = false.
Proof. by intros ->. Qed.

(** C6, as the code has it.  With the deep analysis enabled the table after
    the pass is the table before it followed, function by function in
    module order, by the descriptor sets of the function's map from
    blocks to sets, in increasing order of the block addresses.  That
    map has one pair for every block that holds an operation accepted by
    the node loop and no other, and no set in it is empty.  The block of
    the [i]-th pair of a function, when it ends in a terminator, ends
    after the pass in a call to [__dp_report_bb] followed by that
    terminator, the argument of the call is the position of the block's
    set in the table (reduced to 32 bits by [ConstantInt::get]), and in
    front of that call the block holds what it held in front of the
    terminator, tracking calls aside.  A block that has no pair in the
    map, or does not end in a terminator, holds after the pass what it
    held before, tracking calls aside; and the function has as many
    blocks as before.  So the calls to [__dp_report_bb] the pass inserts
    are these, one per pair, and no other. *)
Theorem C6_table_order_and_reports (A : Analyses) (st : PassState) (M : Module) :
  conditionalBBDeps (runOnModule A true st M).2
    = conditionalBBDeps st ++ concat (map (tableOf A) M)
  /\ (forall F,
        cdm_sorted (depMapOf A F) /\
        Forall (fun p => p.2 <> []) (depMapOf A F) /\
        forall b, b ∈ map fst (depMapOf A F) <->
                  exists node, node ∈ getNodes A F /\
                    qualifyingBlock (dominates A F) (localSet F) node = Some b)
  /\ (forall F st0 i b deps k B body t,
        getInstructionCount F <> 0 ->
        depMapOf A F !! i = Some (b, deps) ->
        blocks F !! k = Some B -> baddr B = b ->
        insts B = body ++ [t] -> isTerminator t = true ->
        exists body' addr,
          blocks (processFunction A true st0 F).1 !! k
          = Some (mkBlock b
                    (body' ++ [reportCall addr b (length (conditionalBBDeps st0) + i); t]))
          /\ untracked body' = untracked body
          /\ conditionalBBDeps (processFunction A true st0 F).2
               !! (length (conditionalBBDeps st0) + i) = Some deps)
  /\ (forall F st0 k B,
        getInstructionCount F <> 0 ->
        blocks F !! k = Some B -> noReportFor A F B ->
        exists B',
          blocks (processFunction A true st0 F).1 !! k = Some B' /\
          baddr B' = baddr B /\ untracked (insts B') = untracked (insts B))
  /\ (forall F st0,
        length (blocks (processFunction A true st0 F).1) = length (blocks F)).
Proof.
  split; [|split; [|split; [|split]]].
  - rewrite runOnModule_state. apply runFunctions_table.
  - intros F. destruct (depMapOf_inv A F) as [Hs Hn]. split; [done|]. split; [done|].
    intros b. unfold depMapOf, analyzeNodes. rewrite elem_of_depMap_keys. simpl.
    rewrite elem_of_nil. fold (localSet F). tauto.
  - intros F st0 i b deps k B body t Hn Hi Hk Hb Hl Ht.
    destruct (depMapOf_inv A F) as [Hs _].
    destruct (reportSteps_lookup_at (depMapOf A F) (F, conditionalBBDeps st0)
                i b deps k B body t Hs Hi Hk Hb Hl Ht) as (addr & Hrep).
    rewrite processFunction_eq by done. cbn [fst snd conditionalBBDeps] in *.
    unfold afterReports.
    destruct (removeOmittable_keeps_tail (omittableSet A true F)
                (foldl reportStep (F, conditionalBBDeps st0) (depMapOf A F)).1
                (removedInstrumentations st0) k b body
                (reportCall addr b (length (conditionalBBDeps st0) + i)) t Hrep)
      as (body' & Hfin); [apply reportCall_not_tracking|].
    destruct (removeOmittable_block (fun x => negb (isTrackingCall x))
                (omittableSet A true F) _ (removedInstrumentations st0) k _
                untracked_not_tracking Hrep) as (B' & HB' & _ & Hf).
    rewrite Hfin in HB'. injection HB' as <-. cbn [insts] in Hf.
    fold (untracked (body' ++ [reportCall addr b (length (conditionalBBDeps st0) + i); t]))
      in Hf.
    fold (untracked (body ++ [reportCall addr b (length (conditionalBBDeps st0) + i); t]))
      in Hf.
    rewrite !untracked_app in Hf. apply app_inv_tail in Hf.
    exists body', addr. split; [done|]. split; [done|].
    rewrite reportSteps_table. cbn [snd]. rewrite lookup_app_r by lia.
    replace (length (conditionalBBDeps st0) + i - length (conditionalBBDeps st0)) with i
      by lia.
    by apply map_lookup_Some with (f := snd) in Hi.
  - intros F st0 k B Hn Hk Hno.
    rewrite processFunction_eq by done. cbn [fst snd]. unfold afterReports.
    assert (Hrep : blocks (foldl reportStep (F, conditionalBBDeps st0) (depMapOf A F)).1
                     !! k = Some B).
    { destruct Hno as [Hkey|Hterm].
      - by apply reportSteps_lookup_other.
      - by apply reportSteps_lookup_none. }
    apply (removeOmittable_block (fun x => negb (isTrackingCall x))
             (omittableSet A true F) _ (removedInstrumentations st0) k B
             untracked_not_tracking Hrep).
  - intros F st0. destruct (decide (getInstructionCount F = 0)) as [Hz|Hnz].
    + by rewrite processFunction_skip.
    + rewrite processFunction_eq by done. cbn [fst]. unfold afterReports.
      rewrite length_removeOmittable.
      apply (length_reportSteps _ (F, conditionalBBDeps st0)).
Qed.

(** C6 as stated fails at [orderExample 200 100]: the node loop meets the
    block at address 200 first, the specified order puts its set first,
    and the table has the set of the block at address 100 first.  With
    the two addresses exchanged the same function yields the other
    order. *)
Lemma C6_counterexample_address_order :
  conditionalBBDeps (runOnModule orderAnalyses true freshPass [orderExample 200 100]).2
    = [["q"]; ["p"]]
  /\ firstEncounteredTable orderAnalyses (orderExample 200 100) = [["p"]; ["q"]]
  /\ conditionalBBDeps (runOnModule orderAnalyses true freshPass [orderExample 100 200]).2
    = [["p"]; ["q"]].
Proof. by vm_compute. Qed.

(** ** Running the removal loop twice: inside a block *)

Lemma eraseL_spec a l :
  (erasePrevBlock a l = (l, false)) \/
  (exists n c i,
     l !! n = Some c /\ l !! S n = Some i /\ iaddr i = a /\
     isTrackingCall c = true /\ erasePrevBlock a l = (delete n l, true)).
Proof.
  destruct (erasePrevBlock_spec a l)
    as [[H _]|(l1 & c & i & l2 & -> & Hi & Hc & _ & H & _)]; [by left|].
  right. exists (length l1), c, i. split; [by apply list_lookup_middle|].
  split.
  { change (l1 ++ c :: i :: l2) with (l1 ++ [c] ++ i :: l2).
    rewrite app_assoc. apply list_lookup_middle. rewrite length_app. simpl. lia. }
  split; [done|]. split; [done|]. rewrite H. f_equal.
  by rewrite delete_middle.
Qed.

Lemma hasInst_false a l :
  hasInst a l = false <-> forall x, x ∈ l -> iaddr x <> a.
Proof.
  unfold hasInst. induction l as [|y l IH]; simpl.
  - split; [|done]. intros _ x Hx. by apply elem_of_nil in Hx.
  - rewrite orb_false_iff, IH, Nat.eqb_neq. split.
    + intros [Hy Hl] x [-> | Hx]%elem_of_cons; auto.
    + intros H. split; [apply H; left|]. intros x Hx. apply H. by right.
Qed.

Lemma hasInst_true a l :
  hasInst a l = true <-> exists x, x ∈ l /\ iaddr x = a.
Proof.
  unfold hasInst. rewrite existsb_exists. split.
  - intros (x & Hx & He). exists x. split; [by apply list_elem_of_In|].
    by apply Nat.eqb_eq.
  - intros (x & Hx & He). exists x. split; [by apply list_elem_of_In|].
    by apply Nat.eqb_eq.
Qed.

Lemma settledAt_absent a l : hasInst a l = false -> settledAt a l.
Proof.
  intros H n c i _ Hi Ha. exfalso.
  eapply (proj1 (hasInst_false a l) H i); [|done]. by eapply list_elem_of_lookup_2.
Qed.

(** A step in front of an address that is settled changes nothing. *)
Lemma eraseL_settled a l : settledAt a l -> erasePrevBlock a l = (l, false).
Proof.
  intros Hs. destruct (eraseL_spec a l) as [H|(n & c & i & Hc & Hi & Ha & Ht & _)];
    [done|].
  rewrite (Hs n c i Hc Hi Ha) in Ht. discriminate.
Qed.

Lemma NoDup_iaddr_lookup l j j' y y' :
  NoDup (map iaddr l) -> l !! j = Some y -> l !! j' = Some y' ->
  iaddr y = iaddr y' -> j = j'.
Proof.
  intros Hnd Hj Hj' Heq.
  eapply NoDup_lookup; [exact Hnd| |].
  - by apply map_lookup_Some.
  - rewrite Heq. by apply map_lookup_Some.
Qed.

Lemma map_delete {X Y} (f : X -> Y) n (l : list X) :
  map f (delete n l) = delete n (map f l).
Proof.
  revert n. induction l as [|x l IH]; intros [|n]; simpl; try done. by rewrite IH.
Qed.

Lemma NoDup_delete {X} n (l : list X) : NoDup l -> NoDup (delete n l).
Proof.
  intros H. eapply sublist_NoDup; [exact H|]. apply sublist_delete.
Qed.

Lemma erasePrevIn_hit a l n c i :
  l !! n = Some c -> l !! S n = Some i -> iaddr i = a -> isTrackingCall c = true ->
  (forall j z, 0 < j -> j <= n -> l !! j = Some z -> iaddr z <> a) ->
  erasePrevIn a l = (delete n l, true).
Proof.
  revert n. induction l as [|p l IH]; intros n Hc Hi Ha Ht Hbefore; [done|].
  destruct l as [|i0 l]; [done|]. rewrite erasePrevIn_cons.
  destruct n as [|n]; simpl in Hc, Hi.
  - injection Hc as ->. injection Hi as ->.
    rewrite (proj2 (Nat.eqb_eq _ _) Ha), Ht. done.
  - assert (iaddr i0 <> a) as Hi0 by (apply (Hbefore 1 i0); [lia|lia|done]).
    destruct (Nat.eqb_spec (iaddr i0) a); [done|].
    rewrite (IH n Hc Hi Ha Ht); [done|].
    intros j z Hj Hjn Hz. apply (Hbefore (S j) z); [lia|lia|done].
Qed.

(** With distinct addresses, a tracking call directly in front of the
    instruction at [a] is found and erased. *)
Lemma eraseL_hit a l n c i :
  NoDup (map iaddr l) ->
  l !! n = Some c -> l !! S n = Some i -> iaddr i = a -> isTrackingCall c = true ->
  erasePrevBlock a l = (delete n l, true).
Proof.
  intros Hnd Hc Hi Ha Ht.
  assert (Huniq : forall j z, l !! j = Some z -> iaddr z = a -> j = S n).
  { intros j z Hz Hza. eapply NoDup_iaddr_lookup; eauto. congruence. }
  unfold erasePrevBlock. destruct l as [|x l]; [done|].
  destruct (Nat.eqb_spec (iaddr x) a) as [Hx|Hx].
  - specialize (Huniq 0 x eq_refl Hx). lia.
  - apply erasePrevIn_hit with (c := c) (i := i); try done.
    intros j z Hj Hjn Hz Hza. specialize (Huniq j z Hz Hza). lia.
Qed.

Lemma noStackedTracking_delete l n c :
  noStackedTracking l -> l !! n = Some c -> isTrackingCall c = true ->
  noStackedTracking (delete n l).
Proof.
  intros Hl Hc Ht j x y Hx Hy Hty.
  destruct (decide (S j < n)) as [H1|H1].
  - rewrite list_lookup_delete_lt in Hx by lia. rewrite list_lookup_delete_lt in Hy by lia.
    by eapply Hl.
  - destruct (decide (n <= j)) as [H2|H2].
    + rewrite list_lookup_delete_ge in Hx by lia. rewrite list_lookup_delete_ge in Hy by lia.
      by eapply (Hl (S j)).
    + assert (S j = n) as Hn by lia. rewrite list_lookup_delete_lt in Hx by lia.
      eapply (Hl j x c); [done| |done]. by rewrite Hn.
Qed.

Lemma settledAt_delete a0 l n c :
  noStackedTracking l -> l !! n = Some c -> isTrackingCall c = true ->
  settledAt a0 l -> settledAt a0 (delete n l).
Proof.
  intros Hl Hc Ht Hs j x y Hx Hy Hya.
  destruct (decide (S j < n)) as [H1|H1].
  - rewrite list_lookup_delete_lt in Hx by lia. rewrite list_lookup_delete_lt in Hy by lia.
    by eapply Hs.
  - destruct (decide (n <= j)) as [H2|H2].
    + rewrite list_lookup_delete_ge in Hx by lia. rewrite list_lookup_delete_ge in Hy by lia.
      by eapply (Hs (S j)).
    + assert (S j = n) as Hn by lia. rewrite list_lookup_delete_lt in Hx by lia.
      eapply (Hl j x c); [done| |done]. by rewrite Hn.
Qed.

(** After the step for [a], the instruction at [a] is settled. *)
Lemma eraseL_settles a l :
  NoDup (map iaddr l) -> noStackedTracking l -> settledAt a (eraseL a l).
Proof.
  intros Hnd Hl. unfold eraseL.
  destruct (eraseL_spec a l) as [H|(n & c & i & Hc & Hi & Ha & Ht & H)]; rewrite H.
  - intros j x y Hx Hy Hya. destruct (isTrackingCall x) eqn:Htx; [|done].
    rewrite (eraseL_hit a l j x y Hnd Hx Hy Hya Htx) in H. discriminate.
  - cbn [fst]. intros j x y Hx Hy Hya.
    assert (Huniq : forall k z, l !! k = Some z -> iaddr z = a -> k = S n).
    { intros k z Hz Hza. eapply NoDup_iaddr_lookup; eauto. congruence. }
    destruct (decide (S j < n)) as [H1|H1].
    + rewrite list_lookup_delete_lt in Hy by lia. specialize (Huniq _ _ Hy Hya). lia.
    + destruct (decide (n <= j)) as [H2|H2].
      * rewrite list_lookup_delete_ge in Hy by lia. specialize (Huniq _ _ Hy Hya). lia.
      * assert (S j = n) as Hn by lia. rewrite list_lookup_delete_lt in Hx by lia.
        eapply (Hl j x c); [done| |done]. by rewrite Hn.
Qed.

Lemma eraseL_keeps a l :
  (NoDup (map iaddr l) -> NoDup (map iaddr (eraseL a l))) /\
  (noStackedTracking l -> noStackedTracking (eraseL a l)) /\
  (forall a0, noStackedTracking l -> settledAt a0 l -> settledAt a0 (eraseL a l)) /\
  (forall x, x ∈ eraseL a l -> x ∈ l).
Proof.
  unfold eraseL.
  destruct (eraseL_spec a l) as [H|(n & c & i & Hc & Hi & Ha & Ht & H)]; rewrite H;
    cbn [fst]; [done|].
  split; [|split; [|split]].
  - intros Hnd. rewrite map_delete. by apply NoDup_delete.
  - intros Hl. by eapply noStackedTracking_delete.
  - intros a0 Hl Hs. by eapply settledAt_delete.
  - intros x Hx. by eapply list_elem_of_delete_inv.
Qed.

(** ** Running the removal loop twice: the function *)

Lemma erasePrevBlocks_first a bs :
  (Forall (fun B => hasInst a (insts B) = false) bs /\ erasePrevBlocks a bs = (bs, false)) \/
  (exists bs1 B bs2,
     bs = bs1 ++ B :: bs2 /\
     Forall (fun B' => hasInst a (insts B') = false) bs1 /\
     hasInst a (insts B) = true /\
     (erasePrevBlocks a bs).1 = bs1 ++ mkBlock (baddr B) (eraseL a (insts B)) :: bs2).
Proof.
  induction bs as [|B bs IH]; [left; by split|]. simpl.
  destruct (hasInst a (insts B)) eqn:Hhas.
  - right. by exists [], B, bs.
  - destruct IH as [[Hall ->]|(bs1 & B' & bs2 & -> & Hall & HB' & ->)].
    + left. split; [by constructor|done].
    + right. exists (B :: bs1), B', bs2. split; [done|]. split; [by constructor|done].
Qed.

Lemma erasePrevBlocks_settled a bs :
  Forall (fun B => settledAt a (insts B)) bs -> erasePrevBlocks a bs = (bs, false).
Proof.
  induction bs as [|B bs IH]; [done|]. intros H. apply Forall_cons in H as [HB Hbs].
  simpl. rewrite (eraseL_settled a (insts B) HB), IH by done. simpl.
  destruct (hasInst a (insts B)); [by destruct B|done].
Qed.

Lemma removeOmittable_settled omit F r :
  (forall a, a ∈ omit -> Forall (fun B => settledAt a (insts B)) (blocks F)) ->
  removeOmittable omit F r = (F, r).
Proof.
  unfold removeOmittable. induction omit as [|a omit IH]; intros H; simpl; [done|].
  assert (removeStep (F, r) a = (F, r)) as ->.
  { unfold removeStep. cbn [fst snd]. rewrite erasePrevBlocks_settled by (apply H; left).
    simpl. by destruct F. }
  apply IH. intros a0 Ha0. apply H. by right.
Qed.

Lemma sublist_map {X Y} (f : X -> Y) (l1 l2 : list X) :
  sublist l1 l2 -> sublist (map f l1) (map f l2).
Proof. induction 1; simpl; by constructor. Qed.

Lemma eraseL_sublist a l : sublist (eraseL a l) l.
Proof.
  unfold eraseL. destruct (eraseL_spec a l) as [->|(n & c & i & _ & _ & _ & _ & ->)];
    [done|apply sublist_delete].
Qed.

Lemma NoDup_iaddr_app_disjoint (l1 l2 : list Instruction) x y :
  NoDup (map iaddr (l1 ++ l2)) -> x ∈ l1 -> y ∈ l2 -> iaddr x <> iaddr y.
Proof.
  rewrite map_app. intros (_ & Hdis & _)%NoDup_app Hx Hy Heq.
  apply (Hdis (iaddr x)).
  - apply list_elem_of_In, in_map. by apply list_elem_of_In.
  - rewrite Heq. apply list_elem_of_In, in_map. by apply list_elem_of_In.
Qed.

Lemma elem_of_allInsts bs x :
  x ∈ allInsts bs <-> exists B, B ∈ bs /\ x ∈ insts B.
Proof. apply (elem_of_instructions (mkFunction "" bs) x). Qed.

Lemma erasePrevBlocks_step a bs :
  goodBlocks bs ->
  goodBlocks (erasePrevBlocks a bs).1 /\
  Forall (fun B => settledAt a (insts B)) (erasePrevBlocks a bs).1 /\
  (forall a0, Forall (fun B => settledAt a0 (insts B)) bs ->
              Forall (fun B => settledAt a0 (insts B)) (erasePrevBlocks a bs).1) /\
  (forall x, x ∈ allInsts (erasePrevBlocks a bs).1 -> x ∈ allInsts bs).
Proof.
  intros [Hnd Hst].
  destruct (erasePrevBlocks_first a bs)
    as [[Hall ->]|(bs1 & B & bs2 & -> & Hall & HB & ->)]; cbn [fst].
  - split; [done|]. split; [|done].
    eapply Forall_impl; [exact Hall|]. intros B. apply settledAt_absent.
  - rewrite allInsts_middle in Hnd.
    apply Forall_app in Hst as [Hst1 Hst2]. apply Forall_cons in Hst2 as [HstB Hst2].
    assert (HndB : NoDup (map iaddr (insts B))).
    { rewrite !map_app in Hnd. apply NoDup_app in Hnd as (_ & _ & Hnd).
      by apply NoDup_app in Hnd as (Hnd & _ & _). }
    destruct (eraseL_keeps a (insts B)) as (Hk1 & Hk2 & Hk3 & Hk4).
    split; [split|split; [|split]].
    + rewrite allInsts_middle. cbn [insts].
      eapply sublist_NoDup; [exact Hnd|]. apply sublist_map.
      apply sublist_app; [done|]. apply sublist_app; [apply eraseL_sublist|done].
    + apply Forall_app. split; [done|]. constructor; [by apply Hk2|done].
    + apply Forall_app. split.
      * eapply Forall_impl; [exact Hall|]. intros B'. apply settledAt_absent.
      * constructor; [by apply eraseL_settles|].
        apply Forall_forall. intros B2 HB2. apply settledAt_absent, hasInst_false.
        intros y Hy Hya. apply hasInst_true in HB as (z & Hz & Hza).
        rewrite app_assoc in Hnd.
        eapply (NoDup_iaddr_app_disjoint _ _ z y Hnd).
        -- apply elem_of_app. by right.
        -- apply elem_of_allInsts. by exists B2.
        -- congruence.
    + intros a0 H0. apply Forall_app in H0 as [H1 H2].
      apply Forall_cons in H2 as [HB0 H2]. apply Forall_app. split; [done|].
      constructor; [by apply Hk3|done].
    + intros x. rewrite !allInsts_middle. cbn [insts]. rewrite !elem_of_app.
      intros [H|[H|H]]; auto.
Qed.

Lemma removeOmittable_settles omit F r :
  goodBlocks (blocks F) ->
  goodBlocks (blocks (removeOmittable omit F r).1) /\
  (forall a, a ∈ omit ->
     Forall (fun B => settledAt a (insts B)) (blocks (removeOmittable omit F r).1)) /\
  (forall a0, Forall (fun B => settledAt a0 (insts B)) (blocks F) ->
     Forall (fun B => settledAt a0 (insts B)) (blocks (removeOmittable omit F r).1)) /\
  (forall x, x ∈ instructions (removeOmittable omit F r).1 -> x ∈ instructions F).
Proof.
  unfold removeOmittable. revert F r.
  induction omit as [|a omit IH]; intros F r Hgood; simpl.
  - split; [done|]. split; [|done]. intros a Ha. by apply elem_of_nil in Ha.
  - destruct (erasePrevBlocks_step a (blocks F) Hgood) as (Hg & Hs & Hk & Hin).
    destruct (IH (removeStep (F, r) a).1 (removeStep (F, r) a).2 Hg)
      as (Hg' & Hs' & Hk' & Hin').
    replace ((removeStep (F, r) a).1, (removeStep (F, r) a).2)
      with (removeStep (F, r) a) in * by (by destruct (removeStep (F, r) a)).
    split; [done|]. split; [|split].
    + intros a0 [-> | Ha0]%elem_of_cons; [by apply Hk'|by apply Hs'].
    + intros a0 H0. by apply Hk', Hk.
    + intros x Hx. by apply Hin, Hin'.
Qed.

(** ** Running the pass twice: the analysis sees the same sets *)

Lemma foldl_untracked {S} (f : S -> Instruction -> S) :
  (forall s c, isTrackingCall c = true -> f s c = s) ->
  forall l s, foldl f s l = foldl f s (untracked l).
Proof.
  intros Hf. unfold untracked. induction l as [|i l IH]; intros s; simpl; [done|].
  destruct (isTrackingCall i) eqn:Hi; simpl; [by rewrite Hf|done].
Qed.

Lemma isTrackingCall_kind c :
  isTrackingCall c = true ->
  exists fn args, ikind c = Call (Fn fn) args /\ (fn = "__dp_write" \/ fn = "__dp_read").
Proof.
  unfold isTrackingCall. destruct (ikind c) as [| |callee args| |]; try done.
  destruct callee as [|fn| | |]; try done. simpl. intros H%isTrackingName_spec.
  by exists fn, args.
Qed.

Lemma collectLocal_tracking s c : isTrackingCall c = true -> collectLocal s c = s.
Proof.
  intros (fn & args & Hk & [-> | ->])%isTrackingCall_kind;
    unfold collectLocal, asDbgDeclare, asDbgValue; by rewrite Hk.
Qed.

Lemma selectStep_tracking lv wv omit c :
  isTrackingCall c = true -> selectStep lv wv omit c = omit.
Proof.
  intros (fn & args & Hk & _)%isTrackingCall_kind. unfold selectStep. by rewrite Hk.
Qed.

Lemma writes_tracking c : isTrackingCall c = true -> writes c = [].
Proof.
  intros (fn & args & Hk & _)%isTrackingCall_kind. unfold writes. by rewrite Hk.
Qed.

Lemma elem_of_untracked l x :
  x ∈ untracked l <-> x ∈ l /\ isTrackingCall x = false.
Proof.
  unfold untracked. rewrite !list_elem_of_In, List.filter_In, negb_true_iff. done.
Qed.

Section SameAnalysis.
Variables F F' : Function.
Hypothesis Hsame : untracked (instructions F') = untracked (instructions F).
Hypothesis Hincl : forall x, x ∈ instructions F' -> x ∈ instructions F.
Hypothesis Hargs : trackingArgsUndeclared F.

Lemma same_seeds : localSeeds F' = localSeeds F.
Proof.
  unfold localSeeds.
  rewrite (foldl_untracked collectLocal collectLocal_tracking (instructions F')).
  rewrite (foldl_untracked collectLocal collectLocal_tracking (instructions F)).
  by rewrite Hsame.
Qed.

Lemma same_written : writtenSet F' = writtenSet F.
Proof.
  rewrite !writtenSet_closed. apply set_eq. intros v.
  rewrite !elem_of_list_to_set, !list_elem_of_bind.
  assert (Hun : forall G x, x ∈ instructions G -> v ∈ writes x ->
                  x ∈ untracked (instructions G)).
  { intros G x Hx Hv. apply elem_of_untracked. split; [done|].
    destruct (isTrackingCall x) eqn:Ht; [|done].
    rewrite writes_tracking in Hv by done. by apply elem_of_nil in Hv. }
  split; intros (x & Hv & Hx); exists x; (split; [done|]).
  - apply Hun in Hx; [|done]. rewrite Hsame in Hx. by apply elem_of_untracked in Hx as [? _].
  - apply Hun in Hx; [|done]. rewrite <- Hsame in Hx.
    by apply elem_of_untracked in Hx as [? _].
Qed.

Lemma same_local : localSet F' = localSet F.
Proof.
  rewrite !localSet_closed, same_seeds. apply set_eq. intros v.
  rewrite !elem_of_difference, !elem_of_list_to_set, !list_elem_of_bind.
  split; intros [Hseed Hesc]; (split; [done|]); intros (x & Hv & Hx); apply Hesc.
  - destruct (isTrackingCall x) eqn:Ht.
    + exfalso. by apply (Hargs x v).
    + exists x. split; [done|].
      assert (x ∈ untracked (instructions F)) as Hu by (by apply elem_of_untracked).
      rewrite <- Hsame in Hu. by apply elem_of_untracked in Hu as [? _].
  - exists x. split; [done|]. by apply Hincl.
Qed.

Lemma same_baseline : baselineSet F' = baselineSet F.
Proof.
  unfold baselineSet, baselineOmittable. rewrite same_local, same_written.
  rewrite (foldl_untracked _ (selectStep_tracking (localSet F) (writtenSet F))
             (instructions F')).
  rewrite (foldl_untracked _ (selectStep_tracking (localSet F) (writtenSet F))
             (instructions F)).
  by rewrite Hsame.
Qed.
End SameAnalysis.

Lemma rerunSafe_goodBlocks F : rerunSafe F -> goodBlocks (blocks F).
Proof.
  intros (Hnd & Hst & _). split; [done|]. by apply Forall_forall.
Qed.

Lemma omittableSet_baseline A F : omittableSet A false F = baselineSet F.
Proof. reflexivity. Qed.

(** A function the pass has rewritten is left as it is by a second run. *)
Lemma processFunction_again A st st' F :
  rerunSafe F ->
  (processFunction A false st' (processFunction A false st F).1).1
  = (processFunction A false st F).1.
Proof.
  intros Hsafe.
  destruct (decide (getInstructionCount F = 0)) as [Hz|Hnz].
  { rewrite (processFunction_skip A false st F Hz). cbn [fst].
    by rewrite processFunction_skip. }
  rewrite (processFunction_eq A false st F Hnz). cbn [fst snd afterReports].
  rewrite omittableSet_baseline.
  set (F' := (removeOmittable (baselineSet F) F (removedInstrumentations st)).1).
  destruct (decide (getInstructionCount F' = 0)) as [Hz'|Hnz'].
  { by rewrite processFunction_skip. }
  rewrite (processFunction_eq A false st' F' Hnz'). cbn [fst snd afterReports].
  rewrite omittableSet_baseline.
  destruct (removeOmittable_settles (baselineSet F) F (removedInstrumentations st)
              (rerunSafe_goodBlocks F Hsafe)) as (_ & Hset & _ & Hincl).
  fold F' in Hset, Hincl.
  assert (Hsame : untracked (instructions F') = untracked (instructions F)).
  { unfold untracked, F'. apply filter_removeOmittable. intros c ->. done. }
  rewrite (same_baseline F F' Hsame Hincl (proj2 (proj2 Hsafe))).
  by rewrite removeOmittable_settled.
Qed.

Lemma runFunctions_again A M st st' :
  (forall F, F ∈ M -> rerunSafe F) ->
  (runFunctions A false st' (runFunctions A false st M).1).1
  = (runFunctions A false st M).1.
Proof.
  revert st st'. induction M as [|F M IH]; intros st st' Hsafe; [done|].
  simpl. rewrite processFunction_again by (apply Hsafe; left).
  rewrite IH; [done|]. intros F0 HF0. apply Hsafe. by right.
Qed.

(** C8, as the code has it.  With the deep analysis disabled, running the
    pass on a module it has rewritten leaves the module as it is,
    provided that in the module first given to the pass the instructions
    of every function have distinct addresses, no tracking call stands
    directly in front of another tracking call, and no tracking call
    takes an address bound by a debug intrinsic as an argument.  Without
    the deep analysis the pass creates no call at all. *)
Theorem C8_second_run_without_deep_analysis
    (A : Analyses) (st st' : PassState) (M : Module) :
  (forall F, F ∈ M -> rerunSafe F) ->
  (runOnModule A false st' (runOnModule A false st M).1.2).1.2
  = (runOnModule A false st M).1.2.
Proof.
  intros Hsafe. unfold runOnModule. cbn [negb fst snd].
  by apply runFunctions_again.
Qed.

Lemma retvalExample_rerunSafe : forall F, F ∈ [retvalExample] -> rerunSafe F.
Proof.
  intros F ->%list_elem_of_singleton. split; [|split].
  - apply (bool_decide_unpack _). by vm_compute.
  - intros B ->%list_elem_of_singleton. intros n c c' Hc Hc' Ht.
    destruct n as [|[|[|n]]]; simpl in *; try done;
      injection Hc as <-; injection Hc' as <-; done.
  - intros c v Hc Ht Hv. unfold localSeeds. simpl. apply not_elem_of_empty.
Qed.

Lemma C8_second_run_without_deep_analysis_witness :
  (runOnModule noAnalyses false freshPass
     (runOnModule noAnalyses false freshPass [retvalExample]).1.2).1.2
  = (runOnModule noAnalyses false freshPass [retvalExample]).1.2.
Proof.
  exact (C8_second_run_without_deep_analysis noAnalyses freshPass freshPass
           [retvalExample] retvalExample_rerunSafe).
Defined.

(** C8 as stated fails.  With the deep analysis enabled a second run puts
    a second [__dp_add_omission_deps] call in front of [__dp_finalize].
    With it disabled a second run erases the second of two stacked
    tracking calls, and erases the tracking call of a load whose address
    was an argument of a tracking call erased by the first run. *)
Lemma C8_counterexample_second_run_changes :
  runTwice noAnalyses true [finalizeExample] <> (runOnce noAnalyses true [finalizeExample]).1
  /\ (exists F2,
        runTwice noAnalyses true [finalizeExample] !! 0 = Some F2 /\
        length (List.filter (isCallTo "__dp_add_omission_deps") (instructions F2)) = 2)
  /\ runTwice noAnalyses false [stackedExample] <> (runOnce noAnalyses false [stackedExample]).1
  /\ runTwice noAnalyses false [declaredArgExample]
     <> (runOnce noAnalyses false [declaredArgExample]).1.
Proof.
  split; [|split; [|split]].
  - vm_compute. discriminate.
  - eexists. split; [by vm_compute|]. by vm_compute.
  - vm_compute. discriminate.
  - vm_compute. discriminate.
Qed.

(** * Further properties of the pass *)

(** ** The classifier in closed form *)

Lemma collectLocal_seedsOf s I :
  collectLocal s I = list_to_set (seedsOf I) ∪ s.
Proof.
  unfold collectLocal, seedsOf.
  destruct (asDbgDeclare I) as [[v|]|]; simpl; [set_solver|set_solver|].
  destruct (asDbgValue I) as [[v|]|]; simpl; set_solver.
Qed.

Lemma foldl_collectLocal l s :
  foldl collectLocal s l = s ∪ list_to_set (l ≫= seedsOf).
Proof.
  revert s. induction l as [|I l IH]; intros s; simpl.
  - set_solver.
  - rewrite IH, collectLocal_seedsOf. set_solver.
Qed.

Lemma localSeeds_closed F :
  localSeeds F = list_to_set (instructions F ≫= seedsOf).
Proof. unfold localSeeds. rewrite foldl_collectLocal. set_solver. Qed.

Lemma elem_of_localSet F v :
  v ∈ localSet F <->
  (exists I, I ∈ instructions F /\ v ∈ seedsOf I) /\
  (forall I, I ∈ instructions F -> v ∉ escapes I).
Proof.
  rewrite localSet_closed, localSeeds_closed, elem_of_difference,
    !elem_of_list_to_set, !list_elem_of_bind.
  split.
  - intros [(I & Hv & HI) Hesc]. split; [by exists I|].
    intros J HJ Hv'. apply Hesc. by exists J.
  - intros [(I & HI & Hv) Hesc]. split; [by exists I|].
    intros (J & Hv' & HJ). by apply (Hesc J).
Qed.

Lemma elem_of_writtenSet F v :
  v ∈ writtenSet F <->
  exists I val, I ∈ instructions F /\ ikind I = Store val v /\ idebugloc I = true.
Proof.
  rewrite writtenSet_closed, elem_of_list_to_set, list_elem_of_bind. split.
  - intros (I & Hv & HI). unfold writes in Hv.
    destruct (ikind I) as [|val ptr| | |] eqn:Hk; try by apply elem_of_nil in Hv.
    destruct (idebugloc I) eqn:Hd; [|by apply elem_of_nil in Hv].
    apply list_elem_of_singleton in Hv as ->. by exists I, val.
  - intros (I & val & HI & Hk & Hd). exists I. split; [|done].
    unfold writes. rewrite Hk, Hd. left.
Qed.

(** X1. A value is in the local set of a function exactly when some debug
    intrinsic of the function binds it and no instruction of the function
    passes it to a direct call or stores it. *)
Theorem X1_local_set_characterization (F : Function) (v : Value) :
  v ∈ localSet F <->
  (exists I, I ∈ instructions F /\ v ∈ seedsOf I) /\
  (forall I, I ∈ instructions F -> v ∉ escapes I).
Proof. apply elem_of_localSet. Qed.

(** X2. A value is in the written set exactly when it is the address
    operand of a store that carries a debug location; a store without one
    contributes nothing. *)
Theorem X2_written_set_characterization (F : Function) (v : Value) :
  v ∈ writtenSet F <->
  exists I val, I ∈ instructions F /\ ikind I = Store val v /\ idebugloc I = true.
Proof. apply elem_of_writtenSet. Qed.

(** X3. The classification does not look at the order of the
    instructions: two functions with the same instructions, in whatever
    order and blocks, have the same local set, the same written set and
    the same baseline omittable operations.  An escape or a write that
    comes after a use counts like one that comes before. *)
Theorem X3_classification_ignores_order (F F' : Function) :
  (forall I, I ∈ instructions F <-> I ∈ instructions F') ->
  localSet F = localSet F' /\ writtenSet F = writtenSet F' /\
  (forall a, a ∈ baselineSet F <-> a ∈ baselineSet F').
Proof.
  intros Hsame.
  assert (Hl : localSet F = localSet F').
  { apply set_eq. intros v. rewrite !elem_of_localSet. split.
    - intros [(I & HI & Hv) Hesc]. split; [exists I; split; [by apply Hsame|done]|].
      intros J HJ. apply Hesc. by apply Hsame.
    - intros [(I & HI & Hv) Hesc]. split; [exists I; split; [by apply Hsame|done]|].
      intros J HJ. apply Hesc. by apply Hsame. }
  assert (Hw : writtenSet F = writtenSet F').
  { apply set_eq. intros v. rewrite !elem_of_writtenSet. split.
    - intros (I & val & HI & H). exists I, val. split; [by apply Hsame|done].
    - intros (I & val & HI & H). exists I, val. split; [by apply Hsame|done]. }
  split; [done|]. split; [done|].
  intros a. rewrite !elem_of_baselineSet, Hl, Hw. split.
  - intros (I & v & HI & H). exists I, v. split; [by apply Hsame|done].
  - intros (I & v & HI & H). exists I, v. split; [by apply Hsame|done].
Qed.

Lemma X3_classification_ignores_order_witness :
  localSet stackedExample = localSet reorderedExample /\
  writtenSet stackedExample = writtenSet reorderedExample /\
  (forall a, a ∈ baselineSet stackedExample <-> a ∈ baselineSet reorderedExample).
Proof.
  apply (X3_classification_ignores_order stackedExample reorderedExample).
  intros I. rewrite !list_elem_of_In. simpl. tauto.
Defined.

(** ** A function without debug bindings *)

Lemma analyzeNodes_nothing_local dom nodes st :
  foldl (analyzeNode dom ∅) st nodes = st.
Proof.
  revert st. induction nodes as [|n nodes IH]; intros st; simpl; [done|].
  rewrite <- (IH st) at 2. f_equal. unfold analyzeNode.
  destruct (getItem n) as [I0|]; [|done].
  destruct (nodeDeps dom I0 n) as [tmpDeps|]; [|done].
  assert (isLocal ∅ I0 = false) as ->.
  { unfold isLocal. destruct (addressOperand I0); [|done].
    apply bool_decide_eq_false. set_solver. }
  by rewrite andb_false_r.
Qed.

(** X4. When no debug intrinsic of a function binds a value, the local set
    is empty, the omittable operations are, with and without the deep
    analysis, exactly the loads and stores whose address operand is named
    [retval], and the deep analysis gives no block a descriptor set. *)
Theorem X4_no_debug_bindings (A : Analyses) (deep : bool) (F : Function) :
  (forall I, I ∈ instructions F -> seedsOf I = []) ->
  localSet F = ∅ /\
  (forall a, a ∈ omittableSet A deep F <->
     exists I v, I ∈ instructions F /\ iaddr I = a /\ memoryAddress I = Some v /\
                 getName v = "retval") /\
  depMapOf A F = [].
Proof.
  intros Hno.
  assert (Hl : localSet F = ∅).
  { apply set_eq. intros v. rewrite elem_of_localSet. split; [|set_solver].
    intros [(I & HI & Hv) _]. rewrite (Hno I HI) in Hv. by apply elem_of_nil in Hv. }
  assert (Hb : forall a, a ∈ baselineSet F <->
     exists I v, I ∈ instructions F /\ iaddr I = a /\ memoryAddress I = Some v /\
                 getName v = "retval").
  { intros a. rewrite elem_of_baselineSet. split.
    - intros (I & v & HI & Ha & Hm & Ht). exists I, v. repeat split; try done.
      apply baselineTest_true in Ht as [[Hv _]|Hr]; [|done]. rewrite Hl in Hv. set_solver.
    - intros (I & v & HI & Ha & Hm & Hr). exists I, v. repeat split; try done.
      apply baselineTest_true. by right. }
  split; [done|]. split.
  - intros a. rewrite <- Hb. unfold omittableSet. fold (localSet F). fold (writtenSet F).
    fold (baselineSet F). destruct deep; [|done].
    unfold analyzeNodes. by rewrite Hl, analyzeNodes_nothing_local.
  - unfold depMapOf, analyzeNodes. fold (localSet F).
    by rewrite Hl, analyzeNodes_nothing_local.
Qed.

Lemma X4_no_debug_bindings_witness :
  localSet retvalExample = ∅ /\
  (forall a, a ∈ omittableSet noAnalyses true retvalExample <->
     exists I v, I ∈ instructions retvalExample /\ iaddr I = a /\
                 memoryAddress I = Some v /\ getName v = "retval") /\
  depMapOf noAnalyses retvalExample = [].
Proof.
  apply (X4_no_debug_bindings noAnalyses true retvalExample).
  intros I HI. apply list_elem_of_In in HI. simpl in HI.
  destruct HI as [<-|[<-|[<-|[]]]]; reflexivity.
Defined.

(** ** The omittable set is a set *)

Lemma ptrset_insert_sorted a s :
  StronglySorted lt s -> StronglySorted lt (ptrset_insert a s).
Proof.
  unfold ptrset_insert. induction s as [|b s IH]; simpl; intros Hs.
  - repeat constructor.
  - apply StronglySorted_inv in Hs as [Hs Hb].
    destruct (Nat.ltb_spec a b) as [Hab|Hab].
    + constructor; [by constructor|]. constructor; [done|].
      eapply Forall_impl; [exact Hb|]. simpl. lia.
    + destruct (Nat.ltb_spec b a) as [Hba|Hba]; [|by constructor].
      constructor; [by apply IH|]. apply Forall_forall. intros x Hx.
      apply (elem_of_ptrset_insert a s x) in Hx as [-> | Hx]; [done|].
      by eapply Forall_forall in Hb.
Qed.

Lemma select_sorted lv wv l omit :
  StronglySorted lt omit -> StronglySorted lt (foldl (selectStep lv wv) omit l).
Proof.
  revert omit. induction l as [|I l IH]; intros omit Hs; simpl; [done|].
  apply IH. unfold selectStep.
  destruct (ikind I) as [p|w p| | |]; try done;
    destruct (baselineTest lv wv p); try done; by apply ptrset_insert_sorted.
Qed.

Lemma analyzeNodes_sorted dom lv nodes st :
  StronglySorted lt (omittableInstructions st) ->
  StronglySorted lt (omittableInstructions (foldl (analyzeNode dom lv) st nodes)).
Proof.
  revert st. induction nodes as [|n nodes IH]; intros st Hs; simpl; [done|].
  apply IH. unfold analyzeNode.
  destruct (getItem n) as [I0|]; [|done].
  destruct (nodeDeps dom I0 n) as [tmpDeps|]; [|done].
  destruct ((0 <? length tmpDeps) && isLocal lv I0); [|done].
  simpl. by apply ptrset_insert_sorted.
Qed.

Lemma omittableSet_sorted A deep F : StronglySorted lt (omittableSet A deep F).
Proof.
  unfold omittableSet.
  assert (Hb : StronglySorted lt
            (baselineOmittable (localValues (scanFunction 0 F))
               (writtenValues (scanFunction 0 F)) F))
    by (apply select_sorted; constructor).
  destruct deep; [|done]. by apply analyzeNodes_sorted.
Qed.

Lemma sorted_lt_NoDup (l : list nat) : StronglySorted lt l -> NoDup l.
Proof.
  induction 1 as [|x l Hs IH Hx]; constructor; [|done].
  intros Hin. eapply Forall_forall in Hx; [|exact Hin]. lia.
Qed.

Lemma removalTrace_length omit F : length (removalTrace omit F) <= length omit.
Proof.
  revert F. induction omit as [|a omit IH]; intros F; simpl; [done|].
  rewrite length_app. specialize (IH (removeStep (F, 0) a).1). simpl in IH.
  destruct (erasedBlocks a (blocks F)); simpl; lia.
Qed.

(** X5. The omittable set of a function is a strictly increasing list of
    addresses, so it lists every operation once, and the pass removes at
    most one tracking call for each operation in it. *)
Theorem X5_one_removal_per_operation
    (A : Analyses) (deep : bool) (st : PassState) (F : Function) :
  StronglySorted lt (omittableSet A deep F) /\
  NoDup (omittableSet A deep F) /\
  removedInstrumentations (processFunction A deep st F).2
    <= removedInstrumentations st + length (omittableSet A deep F).
Proof.
  split; [apply omittableSet_sorted|]. split; [apply sorted_lt_NoDup, omittableSet_sorted|].
  destruct (decide (getInstructionCount F = 0)) as [Hz|Hnz].
  - rewrite processFunction_skip by done. simpl. lia.
  - destruct (processFunction_counters A deep st F Hnz) as (_ & -> & _).
    pose proof (removalTrace_length (omittableSet A deep F)
                  (afterReports A deep (conditionalBBDeps st) F).1). lia.
Qed.

(** ** Which calls the removal loop erases *)

Lemma sweep_cons omit c l :
  sweep omit (c :: l) =
    (if isTrackingCall c && from_option (inOmit omit) false (head l) then [] else [c])
    ++ sweep omit l.
Proof.
  destruct l as [|i l]; simpl; [by rewrite andb_false_r|].
  by destruct (isTrackingCall c && inOmit omit i).
Qed.

Lemma inOmit_cons a omit i :
  inOmit (a :: omit) i = (iaddr i =? a) || inOmit omit i.
Proof. reflexivity. Qed.

Lemma inOmit_true omit i : inOmit omit i = true <-> iaddr i ∈ omit.
Proof.
  unfold inOmit. rewrite existsb_exists. split.
  - intros (x & Hx & He). apply Nat.eqb_eq in He as ->. by apply list_elem_of_In.
  - intros H. exists (iaddr i). split; [by apply list_elem_of_In|apply Nat.eqb_refl].
Qed.

Lemma sweep_ext omit omit' l :
  (forall i, inOmit omit i = inOmit omit' i) -> sweep omit l = sweep omit' l.
Proof.
  intros Hext. induction l as [|c l IH]; [done|]. rewrite !sweep_cons, IH.
  destruct (head l) as [i|]; simpl; [by rewrite Hext|done].
Qed.

Lemma sweep_nil l : sweep [] l = l.
Proof.
  induction l as [|c l IH]; [done|]. rewrite sweep_cons, IH.
  destruct (head l); simpl; by rewrite ?andb_false_r.
Qed.

(** An address no later instruction of the block has can be dropped from
    the set. *)
Lemma sweep_absent_tail a omit l :
  (forall j, j ∈ tail l -> iaddr j <> a) -> sweep (a :: omit) l = sweep omit l.
Proof.
  induction l as [|c l IH]; [done|]. intros Hj. simpl in Hj.
  rewrite !sweep_cons, IH.
  - destruct l as [|i l]; cbn [head from_option]; [done|]. rewrite inOmit_cons.
    destruct (Nat.eqb_spec (iaddr i) a) as [He|He]; [|done].
    exfalso. apply (Hj i); [left|done].
  - intros j Hin. apply Hj. destruct l; [done|]. by right.
Qed.

Lemma erasePrevIn_head a i rest :
  head (erasePrevIn a (i :: rest)).1 = Some i \/
  (isTrackingCall i = true /\
   exists j, head (erasePrevIn a (i :: rest)).1 = Some j /\ iaddr j = a).
Proof.
  destruct rest as [|j rest]; [by left|]. rewrite erasePrevIn_cons.
  destruct (Nat.eqb_spec (iaddr j) a) as [He|He]; [|by left].
  destruct (isTrackingCall i) eqn:Hi; [|by left].
  right. split; [done|]. by exists j.
Qed.

Lemma NoDup_iaddr_cons_tail i rest j :
  NoDup (map iaddr (i :: rest)) -> j ∈ rest -> iaddr j <> iaddr i.
Proof.
  simpl. intros [Hi _]%NoDup_cons Hj He. apply Hi. rewrite <- He.
  apply list_elem_of_In, in_map. by apply list_elem_of_In.
Qed.

Section SweepStep.
Variables (a : nat) (omit : list nat).
Hypothesis Ha : a ∉ omit.

Lemma inOmit_at i : iaddr i = a -> inOmit omit i = false.
Proof.
  intros He. destruct (inOmit omit i) eqn:Hin; [|done].
  apply inOmit_true in Hin. by rewrite He in Hin.
Qed.

Lemma sweep_erasePrevIn l :
  NoDup (map iaddr l) ->
  (forall x, x ∈ l -> isTrackingCall x = true -> inOmit (a :: omit) x = false) ->
  (forall x, head l = Some x -> iaddr x <> a) ->
  sweep omit (erasePrevIn a l).1 = sweep (a :: omit) l.
Proof.
  induction l as [|p l IH]; [done|]. intros Hnd Htr Hhead.
  destruct l as [|i rest]; [done|].
  assert (Hnd' : NoDup (map iaddr (i :: rest))) by (by apply NoDup_cons in Hnd as [_ ?]).
  rewrite erasePrevIn_cons.
  destruct (Nat.eqb_spec (iaddr i) a) as [He|He].
  - assert (Htail : sweep (a :: omit) (i :: rest) = sweep omit (i :: rest)).
    { apply sweep_absent_tail. simpl. intros j Hj. rewrite <- He.
      by eapply NoDup_iaddr_cons_tail. }
    rewrite (sweep_cons (a :: omit) p). cbn [head from_option].
    rewrite inOmit_cons, (proj2 (Nat.eqb_eq _ _) He), orb_true_l, andb_true_r.
    destruct (isTrackingCall p) eqn:Hp; cbn [fst].
    + by rewrite Htail.
    + rewrite sweep_cons, Hp, Htail. done.
  - cbn [fst]. rewrite (sweep_cons omit p), (sweep_cons (a :: omit) p).
    rewrite IH; [|done| |].
    + f_equal. cbn [head from_option]. rewrite inOmit_cons.
      rewrite (proj2 (Nat.eqb_neq _ _) He), orb_false_l.
      destruct (isTrackingCall p) eqn:Hp; [|done]. rewrite !andb_true_l.
      destruct (erasePrevIn_head a i rest) as [-> |(Hi & j & -> & Hj)]; [done|].
      cbn [from_option]. rewrite (inOmit_at j Hj).
      specialize (Htr i). rewrite inOmit_cons in Htr.
      destruct (inOmit omit i); [|done].
      rewrite orb_true_r in Htr. by discriminate Htr; [right; left|].
    + intros x Hx. apply Htr. by right.
    + intros x [= <-]. done.
Qed.

Lemma sweep_eraseL l :
  NoDup (map iaddr l) ->
  (forall x, x ∈ l -> isTrackingCall x = true -> inOmit (a :: omit) x = false) ->
  sweep omit (eraseL a l) = sweep (a :: omit) l.
Proof.
  intros Hnd Htr. unfold eraseL, erasePrevBlock.
  destruct l as [|i rest]; [done|].
  destruct (Nat.eqb_spec (iaddr i) a) as [He|He].
  - cbn [fst]. symmetry. apply sweep_absent_tail. simpl. intros j Hj. rewrite <- He.
    by eapply NoDup_iaddr_cons_tail.
  - apply sweep_erasePrevIn; [done|done|]. by intros x [= <-].
Qed.

Lemma sweep_absent l : hasInst a l = false -> sweep (a :: omit) l = sweep omit l.
Proof.
  intros H. apply sweep_absent_tail. intros j Hj.
  apply (proj1 (hasInst_false a l) H). destruct l; [done|]. by right.
Qed.

Lemma sweepBlocks_absent bs :
  Forall (fun B => hasInst a (insts B) = false) bs ->
  sweepBlocks (a :: omit) bs = sweepBlocks omit bs.
Proof.
  unfold sweepBlocks. induction 1 as [|B bs HB _ IH]; [done|]. simpl.
  by rewrite IH, sweep_absent.
Qed.

Lemma sweepBlocks_step bs :
  NoDup (map iaddr (allInsts bs)) ->
  (forall x, x ∈ allInsts bs -> isTrackingCall x = true -> inOmit (a :: omit) x = false) ->
  sweepBlocks omit (erasePrevBlocks a bs).1 = sweepBlocks (a :: omit) bs.
Proof.
  intros Hnd Htr.
  destruct (erasePrevBlocks_first a bs)
    as [[Hall ->]|(bs1 & B & bs2 & -> & Hall & HB & ->)]; cbn [fst].
  - by rewrite sweepBlocks_absent.
  - rewrite allInsts_middle in Hnd.
    assert (HndB : NoDup (map iaddr (insts B))).
    { rewrite !map_app in Hnd. apply NoDup_app in Hnd as (_ & _ & Hnd).
      by apply NoDup_app in Hnd as (Hnd & _ & _). }
    assert (Hall2 : Forall (fun B' => hasInst a (insts B') = false) bs2).
    { apply Forall_forall. intros B2 HB2. apply hasInst_false. intros y Hy Hya.
      apply hasInst_true in HB as (z & Hz & Hza). rewrite app_assoc in Hnd.
      eapply (NoDup_iaddr_app_disjoint _ _ z y Hnd).
      - apply elem_of_app. by right.
      - apply elem_of_allInsts. by exists B2.
      - congruence. }
    unfold sweepBlocks in *. rewrite !map_app. simpl.
    fold (sweepBlocks omit bs1). fold (sweepBlocks (a :: omit) bs1).
    fold (sweepBlocks omit bs2). fold (sweepBlocks (a :: omit) bs2).
    rewrite (sweepBlocks_absent bs1 Hall), (sweepBlocks_absent bs2 Hall2).
    rewrite sweep_eraseL; [done|done|].
    intros x Hx. apply Htr. rewrite allInsts_middle, !elem_of_app. auto.
Qed.
End SweepStep.

Lemma erasePrevBlocks_sublist a bs :
  sublist (allInsts (erasePrevBlocks a bs).1) (allInsts bs).
Proof.
  destruct (erasePrevBlocks_spec a bs)
    as [[-> _]|(bs1 & B & bs2 & l1 & c & i & l2 & -> & Hl & _ & _ & _ & _ & -> & _)];
    [done|].
  cbn [fst]. rewrite !allInsts_middle, Hl. cbn [insts].
  apply sublist_app; [done|]. apply sublist_app; [|done].
  apply sublist_app; [done|]. by apply sublist_cons.
Qed.

Lemma sweepBlocks_nil bs : sweepBlocks [] bs = bs.
Proof.
  unfold sweepBlocks. induction bs as [|B bs IH]; [done|]. simpl.
  rewrite IH, sweep_nil. by destruct B.
Qed.

(** The removal loop as one pass over every block. *)
Lemma foldl_removeStep_sweep omit st :
  NoDup (map iaddr (instructions st.1)) ->
  NoDup omit ->
  (forall x, x ∈ instructions st.1 -> isTrackingCall x = true -> inOmit omit x = false) ->
  blocks (foldl removeStep st omit).1 = sweepBlocks omit (blocks st.1).
Proof.
  revert st. induction omit as [|a omit IH]; intros st Hnd Hnd' Htr; simpl.
  - by rewrite sweepBlocks_nil.
  - apply NoDup_cons in Hnd' as [Ha Hnd'].
    assert (Hnd1 : NoDup (map iaddr (instructions (removeStep st a).1))).
    { unfold removeStep, instructions. cbn [fst blocks].
      eapply sublist_NoDup; [exact Hnd|]. apply sublist_map, erasePrevBlocks_sublist. }
    rewrite (IH _ Hnd1 Hnd').
    + unfold removeStep. cbn [fst blocks]. by apply sweepBlocks_step.
    + intros x Hx Ht.
      assert (Hin : x ∈ instructions st.1).
      { unfold removeStep, instructions in *. cbn [fst blocks] in Hx.
        eapply elem_of_sublist; [exact Hx|]. apply erasePrevBlocks_sublist. }
      specialize (Htr x Hin Ht). rewrite inOmit_cons in Htr.
      by apply orb_false_iff in Htr as [_ ?].
Qed.

Lemma removeOmittable_sweep omit F r :
  NoDup (map iaddr (instructions F)) ->
  NoDup omit ->
  (forall x, x ∈ instructions F -> isTrackingCall x = true -> inOmit omit x = false) ->
  (removeOmittable omit F r).1 = mkFunction (fname F) (sweepBlocks omit (blocks F)).
Proof.
  intros Hnd Hnd' Htr.
  pose proof (foldl_removeStep_sweep omit (F, r) Hnd Hnd' Htr) as Hb.
  pose proof (fname_removeOmittable omit F r) as Hn.
  unfold removeOmittable in *. cbn [fst] in Hb.
  destruct (foldl removeStep (F, r) omit).1 as [n bs]. simpl in *. by subst.
Qed.

(** Tracking calls are not in the baseline set when addresses are
    distinct: the set holds the addresses of loads and stores. *)
Lemma baselineSet_not_tracking F x :
  NoDup (map iaddr (instructions F)) ->
  x ∈ instructions F -> isTrackingCall x = true -> inOmit (baselineSet F) x = false.
Proof.
  intros Hnd Hx Ht. destruct (inOmit (baselineSet F) x) eqn:Hin; [|done].
  apply inOmit_true, elem_of_baselineSet in Hin as (I & v & HI & Ha & Hm & _).
  assert (I = x) as -> by (eapply NoDup_map_inj; eauto).
  apply isTrackingCall_kind in Ht as (fn & args & Hk & _).
  unfold memoryAddress in Hm. by rewrite Hk in Hm.
Qed.

Lemma instructions_nil_blocks F B :
  getInstructionCount F = 0 -> B ∈ blocks F -> insts B = [].
Proof.
  unfold getInstructionCount. intros Hz HB.
  destruct (insts B) as [|i l] eqn:Hi; [done|]. exfalso.
  assert (i ∈ instructions F).
  { apply elem_of_instructions. exists B. split; [done|]. rewrite Hi. left. }
  destruct (instructions F); [by apply elem_of_nil in H|done].
Qed.

(** X6. Without the deep analysis, a function whose instructions have
    distinct addresses leaves the pass as the function it was with, in
    every block, exactly those direct calls to [__dp_write] and
    [__dp_read] dropped that stood directly in front of a baseline
    omittable load or store of the same block. *)
Theorem X6_exactly_the_calls_before_omittable
    (A : Analyses) (st : PassState) (F : Function) :
  NoDup (map iaddr (instructions F)) ->
  (processFunction A false st F).1
  = mkFunction (fname F) (sweepBlocks (baselineSet F) (blocks F)).
Proof.
  intros Hnd. destruct (decide (getInstructionCount F = 0)) as [Hz|Hnz].
  - rewrite processFunction_skip by done. cbn [fst].
    assert (sweepBlocks (baselineSet F) (blocks F) = blocks F) as ->; [|by destruct F].
    unfold sweepBlocks. rewrite <- (map_id (blocks F)) at 2. apply map_ext_in.
    intros B HB%list_elem_of_In. rewrite (instructions_nil_blocks F B Hz HB).
    destruct B as [b l]. simpl. f_equal. symmetry.
    by apply (instructions_nil_blocks F (mkBlock b l) Hz).
  - rewrite processFunction_eq by done. cbn [fst snd afterReports].
    rewrite omittableSet_baseline. apply removeOmittable_sweep; [done| |].
    + rewrite <- (omittableSet_baseline A F). apply sorted_lt_NoDup, omittableSet_sorted.
    + intros x. by apply baselineSet_not_tracking.
Qed.

Lemma X6_exactly_the_calls_before_omittable_witness :
  (processFunction noAnalyses false freshPass stackedExample).1
  = mkFunction (fname stackedExample)
      (sweepBlocks (baselineSet stackedExample) (blocks stackedExample)).
Proof.
  apply (X6_exactly_the_calls_before_omittable noAnalyses freshPass stackedExample).
  apply (bool_decide_unpack _). by vm_compute.
Defined.

(** X7. The outcome of the removal loop does not depend on the order in
    which the set of omittable instructions is walked: for a function with
    distinct instruction addresses and a set that holds no address of a
    tracking call, two duplicate-free lists with the same elements give
    the same function and the same count. *)
Theorem X7_removal_ignores_set_order
    (omit omit' : list nat) (F : Function) (r : nat) :
  NoDup (map iaddr (instructions F)) ->
  NoDup omit -> NoDup omit' -> (forall a, a ∈ omit <-> a ∈ omit') ->
  (forall x, x ∈ instructions F -> isTrackingCall x = true -> inOmit omit x = false) ->
  removeOmittable omit F r = removeOmittable omit' F r.
Proof.
  intros Hnd Ho Ho' Hsame Htr.
  assert (Hext : forall i, inOmit omit i = inOmit omit' i).
  { intros i. destruct (inOmit omit i) eqn:H1, (inOmit omit' i) eqn:H2; try done.
    - apply inOmit_true, Hsame, inOmit_true in H1. congruence.
    - apply inOmit_true, Hsame, inOmit_true in H2. congruence. }
  assert (Hfst : (removeOmittable omit F r).1 = (removeOmittable omit' F r).1).
  { rewrite !removeOmittable_sweep; try done.
    - unfold sweepBlocks. f_equal. apply map_ext. intros B. f_equal. by apply sweep_ext.
    - intros x Hx Ht. rewrite <- Hext. by apply Htr. }
  pose proof (removeOmittable_count omit F r) as H1.
  pose proof (removeOmittable_count omit' F r) as H2.
  rewrite Hfst in H1.
  destruct (removeOmittable omit F r) as [F1 r1], (removeOmittable omit' F r) as [F2 r2].
  simpl in *. subst. f_equal. lia.
Qed.

Lemma X7_removal_ignores_set_order_witness :
  removeOmittable [4; 6] twoReadsExample 0 = removeOmittable [6; 4] twoReadsExample 0.
Proof.
  apply (X7_removal_ignores_set_order [4; 6] [6; 4] twoReadsExample 0).
  - apply (bool_decide_unpack _). by vm_compute.
  - apply (bool_decide_unpack _). by vm_compute.
  - apply (bool_decide_unpack _). by vm_compute.
  - intros a. rewrite !list_elem_of_In. simpl. tauto.
  - intros x Hx Ht. apply list_elem_of_In in Hx. simpl in Hx.
    destruct Hx as [<-|[<-|[<-|[<-|[<-|[<-|[<-|[]]]]]]]]; by vm_compute.
Defined.

(** ** Functions without tracking calls *)

Lemma trackingCalls_zero l c :
  trackingCalls l = 0 -> c ∈ l -> isTrackingCall c = false.
Proof.
  unfold trackingCalls. intros Hz Hc. destruct (isTrackingCall c) eqn:Ht; [|done].
  assert (c ∈ List.filter isTrackingCall l)
    by (apply list_elem_of_In, List.filter_In; split; [by apply list_elem_of_In|done]).
  destruct (List.filter isTrackingCall l); [by apply elem_of_nil in H|done].
Qed.

Lemma removeOmittable_no_tracking omit F r :
  trackingCalls (instructions F) = 0 -> removeOmittable omit F r = (F, r).
Proof.
  intros Hz. unfold removeOmittable. induction omit as [|a omit IH]; [done|]. simpl.
  assert (removeStep (F, r) a = (F, r)) as ->; [|done].
  unfold removeStep. cbn [fst snd].
  destruct (erasePrevBlocks_spec a (blocks F))
    as [[-> _]|(bs1 & B & bs2 & l1 & c & i & l2 & Hbs & Hl & _ & Hc & _)].
  - simpl. by destruct F.
  - exfalso. rewrite (trackingCalls_zero (instructions F) c Hz) in Hc; [done|].
    apply elem_of_instructions. exists B. rewrite Hbs, Hl.
    split; [apply elem_of_app; right; left|apply elem_of_app; right; left].
Qed.

(** X8. Without the deep analysis, a function that has no direct call to
    [__dp_write] or [__dp_read] is handed back as it is, and the state of
    the pass, counters included, is as before. *)
Theorem X8_uninstrumented_function_untouched
    (A : Analyses) (st : PassState) (F : Function) :
  trackingCalls (instructions F) = 0 ->
  processFunction A false st F = (F, st).
Proof.
  intros Hz. destruct (decide (getInstructionCount F = 0)) as [Hc|Hc].
  - by apply processFunction_skip.
  - rewrite processFunction_eq by done. cbn [fst snd afterReports].
    rewrite removeOmittable_no_tracking by done. cbn [fst snd].
    rewrite Hz, Nat.add_0_r. by destruct st.
Qed.

Lemma X8_uninstrumented_function_untouched_witness :
  processFunction noAnalyses false freshPass indirectCallExample
  = (indirectCallExample, freshPass).
Proof.
  apply (X8_uninstrumented_function_untouched noAnalyses freshPass indirectCallExample).
  reflexivity.
Defined.

(** ** What the whole pass keeps *)

(** The function at position [k] of the result. *)
Lemma runOnModule_lookup A deep st M k F :
  M !! k = Some F ->
  exists stk s,
    (runOnModule A deep st M).1.2 !! k
    = Some (if deep then attachFunction s (processFunction A deep stk F).1
            else (processFunction A deep stk F).1).
Proof.
  intros Hk. destruct (runFunctions_lookup A deep M st k F Hk) as (stk & Hk1).
  exists stk, (buildDepString (conditionalBBDeps (runFunctions A deep st M).2)).
  unfold runOnModule. destruct deep; cbn [negb fst snd]; [|done].
  apply declareAddDeps_lookup. by apply map_lookup_Some.
Qed.

Lemma filter_attachInsts (p : Instruction -> bool) s n l :
  (forall addr parent, p (addDepsCall addr parent s) = false) ->
  List.filter p (attachInsts s n l).1 = List.filter p l.
Proof.
  intros Hp. revert n. induction l as [|i l IH]; intros n; [done|]. simpl.
  destruct (isFinalizeCall i); simpl; rewrite ?Hp, IH; done.
Qed.

Lemma filter_attachBlocks (p : Instruction -> bool) s n bs :
  (forall addr parent, p (addDepsCall addr parent s) = false) ->
  List.filter p (allInsts (attachBlocks s n bs)) = List.filter p (allInsts bs).
Proof.
  intros Hp. revert n. induction bs as [|B bs IH]; intros n; [done|].
  simpl. unfold allInsts in *. simpl. rewrite !List.filter_app, IH.
  by rewrite filter_attachInsts.
Qed.

Lemma filter_attachFunction (p : Instruction -> bool) s F :
  (forall addr parent, p (addDepsCall addr parent s) = false) ->
  List.filter p (instructions (attachFunction s F)) = List.filter p (instructions F).
Proof.
  intros Hp. unfold attachFunction.
  destruct (negb (hasName F) || negb (fname F =? "main")%string); [done|].
  by apply filter_attachBlocks.
Qed.

Lemma fname_attachFunction s F : fname (attachFunction s F) = fname F.
Proof.
  unfold attachFunction.
  by destruct (negb (hasName F) || negb (fname F =? "main")%string).
Qed.

Lemma filter_processFunction (p : Instruction -> bool) A deep st F :
  (forall addr parent index, p (reportCall addr parent index) = false) ->
  (forall c, isTrackingCall c = true -> p c = false) ->
  List.filter p (instructions (processFunction A deep st F).1)
  = List.filter p (instructions F).
Proof.
  intros Hr Ht. destruct (decide (getInstructionCount F = 0)) as [Hz|Hnz].
  - by rewrite processFunction_skip.
  - rewrite processFunction_eq by done. cbn [fst].
    rewrite filter_removeOmittable by done. by apply filter_afterReports.
Qed.

Lemma isProgramInst_tracking c : isTrackingCall c = true -> isProgramInst c = false.
Proof. unfold isProgramInst. by intros ->. Qed.

Lemma isProgramInst_report addr parent index :
  isProgramInst (reportCall addr parent index) = false.
Proof. reflexivity. Qed.

Lemma isProgramInst_addDeps addr parent s :
  isProgramInst (addDepsCall addr parent s) = false.
Proof. reflexivity. Qed.

(** X9. The pass keeps the program: for every function of the module, the
    function at the same position of the result has the same name and the
    same instructions in the same order, direct calls to [__dp_write],
    [__dp_read], [__dp_report_bb] and [__dp_add_omission_deps] left
    aside.  No load, store, terminator or other call is erased, created
    or moved. *)
Theorem X9_program_instructions_kept
    (A : Analyses) (deep : bool) (st : PassState) (M : Module) :
  forall k F,
    M !! k = Some F ->
    exists F',
      (runOnModule A deep st M).1.2 !! k = Some F' /\
      fname F' = fname F /\
      List.filter isProgramInst (instructions F')
        = List.filter isProgramInst (instructions F).
Proof.
  intros k F Hk. destruct (runOnModule_lookup A deep st M k F Hk) as (stk & s & Hres).
  eexists. split; [exact Hres|].
  assert (Hp : List.filter isProgramInst (instructions (processFunction A deep stk F).1)
               = List.filter isProgramInst (instructions F)).
  { apply filter_processFunction;
      [apply isProgramInst_report|apply isProgramInst_tracking]. }
  destruct deep.
  - split; [by rewrite fname_attachFunction, fname_processFunction|].
    rewrite filter_attachFunction; [done|]. intros. apply isProgramInst_addDeps.
  - split; [apply fname_processFunction|done].
Qed.

(** ** Blocks and their last instructions *)

Lemma sameFrame_refl B : sameFrame B B.
Proof. by split. Qed.

Lemma Forall2_sameFrame_refl bs : Forall2 sameFrame bs bs.
Proof. induction bs; constructor; [apply sameFrame_refl|done]. Qed.

Lemma Forall2_sameFrame_trans bs1 bs2 bs3 :
  Forall2 sameFrame bs1 bs2 -> Forall2 sameFrame bs2 bs3 -> Forall2 sameFrame bs1 bs3.
Proof.
  intros H12. revert bs3. induction H12 as [|B1 B2 l1 l2 [Ha Hl] _ IH]; intros bs3 H23.
  - by inversion H23.
  - inversion H23 as [|? B3 ? l3 [Ha' Hl'] H23']; subst. constructor; [|by apply IH].
    split; congruence.
Qed.

Lemma last_insertBeforeTerminator c l : last (insertBeforeTerminator c l) = last l.
Proof.
  induction l as [|i l IH]; [done|]. destruct l as [|j l].
  - simpl. by destruct (isTerminator i).
  - change (insertBeforeTerminator c (i :: j :: l))
      with (i :: insertBeforeTerminator c (j :: l)).
    rewrite last_cons, IH. by rewrite <- last_cons.
Qed.

Lemma last_erasePrevBlock a l : last (erasePrevBlock a l).1 = last l.
Proof.
  destruct (erasePrevBlock_spec a l)
    as [[-> _]|(l1 & c & i & l2 & -> & _ & _ & _ & -> & _)]; [done|].
  cbn [fst]. by rewrite !last_app_cons, last_cons_cons.
Qed.

Lemma last_attachInsts s n l : last (attachInsts s n l).1 = last l.
Proof.
  revert n. induction l as [|i l IH]; intros n; [done|]. simpl.
  destruct (isFinalizeCall i); cbn [fst]; rewrite ?last_cons_cons, !last_cons, IH; done.
Qed.

Lemma sameFrame_insertReport b c F :
  Forall2 sameFrame (blocks F) (blocks (insertReport b c F)).
Proof.
  unfold insertReport. simpl. induction (blocks F) as [|B bs IH]; constructor; [|done].
  destruct (baddr B =? b); [|apply sameFrame_refl].
  split; [done|]. apply last_insertBeforeTerminator.
Qed.

Lemma sameFrame_reportSteps m st :
  Forall2 sameFrame (blocks st.1) (blocks (foldl reportStep st m).1).
Proof.
  revert st. induction m as [|pair m IH]; intros st; simpl;
    [apply Forall2_sameFrame_refl|].
  eapply Forall2_sameFrame_trans; [|apply IH]. apply sameFrame_insertReport.
Qed.

Lemma sameFrame_erasePrevBlocks a bs :
  Forall2 sameFrame bs (erasePrevBlocks a bs).1.
Proof.
  induction bs as [|B bs IH]; [constructor|]. simpl.
  destruct (hasInst a (insts B)); cbn [fst].
  - constructor; [|apply Forall2_sameFrame_refl].
    split; [done|]. apply last_erasePrevBlock.
  - constructor; [apply sameFrame_refl|done].
Qed.

Lemma sameFrame_removeOmittable omit F r :
  Forall2 sameFrame (blocks F) (blocks (removeOmittable omit F r).1).
Proof.
  unfold removeOmittable. change F with (F, r).1 at 1. generalize (F, r).
  induction omit as [|a omit IH]; intros st; simpl; [apply Forall2_sameFrame_refl|].
  eapply Forall2_sameFrame_trans; [|apply IH]. apply sameFrame_erasePrevBlocks.
Qed.

Lemma sameFrame_attachBlocks s n bs : Forall2 sameFrame bs (attachBlocks s n bs).
Proof.
  revert n. induction bs as [|B bs IH]; intros n; [constructor|]. simpl.
  constructor; [|apply IH]. split; [done|]. apply last_attachInsts.
Qed.

Lemma sameFrame_attachFunction s F :
  Forall2 sameFrame (blocks F) (blocks (attachFunction s F)).
Proof.
  unfold attachFunction.
  destruct (negb (hasName F) || negb (fname F =? "main")%string);
    [apply Forall2_sameFrame_refl|apply sameFrame_attachBlocks].
Qed.

Lemma sameFrame_processFunction A deep st F :
  Forall2 sameFrame (blocks F) (blocks (processFunction A deep st F).1).
Proof.
  destruct (decide (getInstructionCount F = 0)) as [Hz|Hnz].
  - rewrite processFunction_skip by done. apply Forall2_sameFrame_refl.
  - rewrite processFunction_eq by done. cbn [fst].
    eapply Forall2_sameFrame_trans; [|apply sameFrame_removeOmittable].
    unfold afterReports. destruct deep; [|apply Forall2_sameFrame_refl].
    apply (sameFrame_reportSteps _ (F, conditionalBBDeps st)).
Qed.

(** X10. The pass keeps the frame of every function: the function at the
    same position of the result has as many blocks, block by block at the
    same address and ending in the same instruction.  A reported or
    attached call never lands behind the last instruction of a block and
    a terminator is never erased. *)
Theorem X10_blocks_and_terminators_kept
    (A : Analyses) (deep : bool) (st : PassState) (M : Module) :
  forall k F,
    M !! k = Some F ->
    exists F',
      (runOnModule A deep st M).1.2 !! k = Some F' /\
      Forall2 sameFrame (blocks F) (blocks F').
Proof.
  intros k F Hk. destruct (runOnModule_lookup A deep st M k F Hk) as (stk & s & Hres).
  eexists. split; [exact Hres|]. destruct deep.
  - eapply Forall2_sameFrame_trans; [apply sameFrame_processFunction|].
    apply sameFrame_attachFunction.
  - apply sameFrame_processFunction.
Qed.

(** ** One attached call for every finalize call *)

Lemma finalize_not_addDeps i :
  isFinalizeCall i = true -> isCallTo "__dp_add_omission_deps" i = false.
Proof.
  unfold isFinalizeCall, isCallTo. destruct (ikind i) as [| |callee args| |]; try done.
  destruct (getCalledFunction callee) as [fn|]; [|done].
  intros ->%String.eqb_eq. reflexivity.
Qed.

Lemma attachInsts_count s n l :
  length (List.filter (isCallTo "__dp_add_omission_deps") (attachInsts s n l).1)
  = length (List.filter (isCallTo "__dp_add_omission_deps") l)
    + length (List.filter isFinalizeCall l).
Proof.
  revert n. induction l as [|i l IH]; intros n; [done|].
  cbn [attachInsts]. destruct (isFinalizeCall i) eqn:Hi.
  - cbn [fst]. change (List.filter ?p (addDepsCall n (iparent i) s :: ?k))
      with (addDepsCall n (iparent i) s :: List.filter p k).
    assert (Hf : forall (p : Instruction -> bool) x k,
              List.filter p (x :: k) = if p x then x :: List.filter p k else List.filter p k)
      by reflexivity.
    rewrite !Hf, Hi, (finalize_not_addDeps i Hi). simpl length. rewrite IH. lia.
  - cbn [fst].
    assert (Hf : forall (p : Instruction -> bool) x k,
              List.filter p (x :: k) = if p x then x :: List.filter p k else List.filter p k)
      by reflexivity.
    rewrite !Hf, Hi. destruct (isCallTo "__dp_add_omission_deps" i); simpl length;
      rewrite IH; lia.
Qed.

Lemma attachBlocks_count s n bs :
  length (List.filter (isCallTo "__dp_add_omission_deps") (allInsts (attachBlocks s n bs)))
  = length (List.filter (isCallTo "__dp_add_omission_deps") (allInsts bs))
    + length (List.filter isFinalizeCall (allInsts bs)).
Proof.
  revert n. induction bs as [|B bs IH]; intros n; [done|].
  simpl. unfold allInsts in *. simpl.
  rewrite !List.filter_app, !length_app, IH, attachInsts_count. lia.
Qed.

Lemma attachFunction_count s F :
  length (List.filter (isCallTo "__dp_add_omission_deps") (instructions (attachFunction s F)))
  = length (List.filter (isCallTo "__dp_add_omission_deps") (instructions F))
    + (if isMain F then length (List.filter isFinalizeCall (instructions F)) else 0).
Proof.
  unfold attachFunction, isMain.
  destruct (hasName F); cbn [negb orb andb]; [|lia].
  destruct (fname F =? "main")%string; cbn [negb]; [|lia].
  apply attachBlocks_count.
Qed.

(** X11. With the deep analysis enabled the number of calls to
    [__dp_add_omission_deps] grows, in a function named [main], by the
    number of its direct calls to [__dp_finalize], and stays as it is in
    every other function; with the deep analysis disabled it stays as it
    is everywhere. *)
Theorem X11_one_attached_call_per_finalize
    (A : Analyses) (deep : bool) (st : PassState) (M : Module) :
  forall k F,
    M !! k = Some F ->
    exists F',
      (runOnModule A deep st M).1.2 !! k = Some F' /\
      length (List.filter (isCallTo "__dp_add_omission_deps") (instructions F'))
      = length (List.filter (isCallTo "__dp_add_omission_deps") (instructions F))
        + (if deep && isMain F
           then length (List.filter isFinalizeCall (instructions F)) else 0).
Proof.
  intros k F Hk. destruct (runOnModule_lookup A deep st M k F Hk) as (stk & s & Hres).
  eexists. split; [exact Hres|].
  pose proof (callsTo_processFunction "__dp_add_omission_deps" A deep stk F) as Hadd.
  pose proof (callsTo_processFunction "__dp_finalize" A deep stk F) as Hfin.
  destruct deep; cbn [andb].
  - rewrite attachFunction_count, isMain_processFunction.
    change isFinalizeCall with (isCallTo "__dp_finalize").
    rewrite Hadd, Hfin by done. done.
  - rewrite Hadd by done. lia.
Qed.

(** ** The statistics over a whole module *)

Lemma moduleInsts_cons F (M : Module) :
  moduleInsts (F :: M) = instructions F ++ moduleInsts M.
Proof. reflexivity. Qed.

Lemma moduleInsts_app (M1 M2 : Module) :
  moduleInsts (M1 ++ M2) = moduleInsts M1 ++ moduleInsts M2.
Proof. unfold moduleInsts. by rewrite map_app, concat_app. Qed.

Lemma instructions_of_empty F : getInstructionCount F = 0 -> instructions F = [].
Proof. unfold getInstructionCount. by destruct (instructions F). Qed.

Lemma processFunction_account A deep st F :
  totalInstrumentations (processFunction A deep st F).2
    = totalInstrumentations st + trackingCalls (instructions F) /\
  removedInstrumentations (processFunction A deep st F).2
    + trackingCalls (instructions (processFunction A deep st F).1)
    = removedInstrumentations st + trackingCalls (instructions F).
Proof.
  destruct (decide (getInstructionCount F = 0)) as [Hz|Hnz].
  - rewrite processFunction_skip by done. cbn [fst snd].
    rewrite (instructions_of_empty F Hz). unfold trackingCalls. simpl. lia.
  - rewrite processFunction_eq by done. cbn [fst snd totalInstrumentations
      removedInstrumentations]. split; [done|].
    pose proof (removeOmittable_count (omittableSet A deep F)
                  (afterReports A deep (conditionalBBDeps st) F).1
                  (removedInstrumentations st)) as Hc.
    assert (Ht : trackingCalls (instructions (afterReports A deep (conditionalBBDeps st) F).1)
                 = trackingCalls (instructions F)).
    { unfold trackingCalls. f_equal. apply filter_afterReports.
      intros. apply reportCall_not_tracking. }
    lia.
Qed.

Lemma runFunctions_account A deep M st :
  totalInstrumentations (runFunctions A deep st M).2
    = totalInstrumentations st + trackingCalls (moduleInsts M) /\
  removedInstrumentations (runFunctions A deep st M).2
    + trackingCalls (moduleInsts (runFunctions A deep st M).1)
    = removedInstrumentations st + trackingCalls (moduleInsts M).
Proof.
  revert st. induction M as [|F M IH]; intros st.
  - simpl. unfold trackingCalls, moduleInsts. simpl. lia.
  - cbn [runFunctions fst snd]. rewrite !moduleInsts_cons, !trackingCalls_app.
    destruct (IH (processFunction A deep st F).2) as [IH1 IH2].
    destruct (processFunction_account A deep st F) as [H1 H2]. lia.
Qed.

Lemma addDepsCall_not_tracking addr parent s :
  isTrackingCall (addDepsCall addr parent s) = false.
Proof. reflexivity. Qed.

Lemma trackingCalls_attached s (M : Module) :
  trackingCalls (moduleInsts (map (attachFunction s) M)) = trackingCalls (moduleInsts M).
Proof.
  induction M as [|F M IH]; [done|].
  change (map (attachFunction s) (F :: M))
    with (attachFunction s F :: map (attachFunction s) M).
  rewrite !moduleInsts_cons, !trackingCalls_app, IH. f_equal.
  unfold trackingCalls. f_equal. apply filter_attachFunction.
  intros. apply addDepsCall_not_tracking.
Qed.

Lemma moduleInsts_declareAddDeps b (M : Module) :
  moduleInsts (declareAddDeps b M) = moduleInsts M.
Proof.
  unfold declareAddDeps.
  destruct (b && negb (existsb (fun F => (fname F =? "__dp_add_omission_deps")%string) M));
    [|done].
  rewrite moduleInsts_app. unfold moduleInsts at 2. simpl. apply app_nil_r.
Qed.

(** X12. The two statistics account for every tracking call of the
    module: the total grows by the number of direct calls to [__dp_write]
    and [__dp_read] that the module holds when the pass starts, and the
    number of removals grows by exactly the number of such calls that the
    module has lost when the pass is done. *)
Theorem X12_statistics_account_for_tracking_calls
    (A : Analyses) (deep : bool) (st : PassState) (M : Module) :
  totalInstrumentations (runOnModule A deep st M).2
    = totalInstrumentations st + trackingCalls (moduleInsts M) /\
  removedInstrumentations (runOnModule A deep st M).2
    + trackingCalls (moduleInsts (runOnModule A deep st M).1.2)
    = removedInstrumentations st + trackingCalls (moduleInsts M).
Proof.
  rewrite runOnModule_state.
  destruct (runFunctions_account A deep M st) as [H1 H2]. split; [done|].
  unfold runOnModule. destruct deep; cbn [negb fst snd]; [|done].
  by rewrite moduleInsts_declareAddDeps, trackingCalls_attached.
Qed.

(** ** Without the deep analysis the pass only deletes *)

Lemma removeOmittable_sublist omit F r :
  sublist (instructions (removeOmittable omit F r).1) (instructions F).
Proof.
  unfold removeOmittable. change F with (F, r).1 at 2. generalize (F, r).
  induction omit as [|a omit IH]; intros st; simpl; [done|].
  etrans; [apply IH|]. unfold removeStep. cbn [fst].
  apply erasePrevBlocks_sublist.
Qed.

Lemma processFunction_baseline A st F :
  conditionalBBDeps (processFunction A false st F).2 = conditionalBBDeps st /\
  sublist (instructions (processFunction A false st F).1) (instructions F).
Proof.
  destruct (decide (getInstructionCount F = 0)) as [Hz|Hnz].
  - by rewrite processFunction_skip.
  - rewrite processFunction_eq by done. cbn [fst snd conditionalBBDeps afterReports].
    split; [done|]. apply removeOmittable_sublist.
Qed.

Lemma runFunctions_baseline A M st :
  conditionalBBDeps (runFunctions A false st M).2 = conditionalBBDeps st /\
  Forall2 (fun F F' => fname F' = fname F /\
                       sublist (instructions F') (instructions F))
          M (runFunctions A false st M).1.
Proof.
  revert st. induction M as [|F M IH]; intros st; [by split; [|constructor]|].
  cbn [runFunctions fst snd].
  destruct (IH (processFunction A false st F).2) as [IH1 IH2].
  destruct (processFunction_baseline A st F) as [H1 H2].
  split; [congruence|]. constructor; [|done].
  split; [apply fname_processFunction|done].
Qed.

(** X13. With the deep analysis disabled the pass only deletes: the table
    of the pass is left as it was, the result has the same functions by
    name in the same order, none added, and the instructions of each are
    the instructions it had, in their order, with some left out.  Nothing
    is inserted and nothing is moved. *)
Theorem X13_baseline_pass_only_deletes
    (A : Analyses) (st : PassState) (M : Module) :
  conditionalBBDeps (runOnModule A false st M).2 = conditionalBBDeps st /\
  Forall2 (fun F F' => fname F' = fname F /\
                       sublist (instructions F') (instructions F))
          M (runOnModule A false st M).1.2.
Proof. apply runFunctions_baseline. Qed.

(** ** Serialization of appended tables *)

Lemma tailWith_app sep l1 l2 :
  tailWith sep (l1 ++ l2) = String.append (tailWith sep l1) (tailWith sep l2).
Proof.
  induction l1 as [|x l1 IH]; [done|]. simpl tailWith.
  by rewrite IH, !append_assoc.
Qed.

Lemma joinWith_app sep l1 l2 :
  l1 <> [] -> l2 <> [] ->
  joinWith sep (l1 ++ l2)
  = String.append (joinWith sep l1) (String.append sep (joinWith sep l2)).
Proof.
  intros H1 H2. destruct l1 as [|x l1]; [done|]. destruct l2 as [|y l2]; [done|].
  change ((x :: l1) ++ y :: l2) with (x :: (l1 ++ y :: l2)).
  rewrite !joinWith_cons, tailWith_app. simpl tailWith.
  by rewrite !append_assoc.
Qed.

(** X14. The serialization of a table made of two non-empty tables, one
    after the other, is the serialization of the first, a slash, and the
    serialization of the second: the string built for a module is the
    slash-separated sequence of the strings of its parts, and an entry
    keeps its text whatever stands before it. *)
Theorem X14_serialization_of_appended_tables (t1 t2 : list (list string)) :
  t1 <> [] -> t2 <> [] ->
  buildDepString (t1 ++ t2)
  = String.append (buildDepString t1) (String.append "/" (buildDepString t2)).
Proof.
  intros H1 H2. rewrite !buildDepString_join, map_app.
  apply joinWith_app; by destruct t1, t2.
Qed.

Lemma X14_serialization_of_appended_tables_witness :
  buildDepString ([["a"; "b"]] ++ [["c"]; ["d"]])
  = String.append (buildDepString [["a"; "b"]])
      (String.append "/" (buildDepString [["c"]; ["d"]])).
Proof. apply X14_serialization_of_appended_tables; discriminate. Defined.

(** ** The omittable set with the deep analysis *)

Lemma staticallyOrdered_nodeDeps A F I :
  staticallyOrdered A F I ->
  exists node deps,
    node ∈ getNodes A F /\ getItem node = Some I /\
    nodeDeps (dominates A F) I node = Some deps /\ deps <> [].
Proof.
  intros (node & Hn & Hitem & Hout & Hin & e & He).
  destruct (nodeDeps_pass _ _ _ Hout Hin) as (deps & Hd & Hmem).
  exists node, deps. split; [done|]. split; [done|]. split; [done|].
  assert (Hd1 : edgeToDPDep e ∈ deps).
  { apply Hmem. destruct He as [[He Hs]|[He Hs]]; [left|right]; by exists e. }
  intros ->. by apply elem_of_nil in Hd1.
Qed.

(** X15. With the deep analysis enabled an address is in the omittable
    set exactly when it is in the baseline set or it is the address of the
    operation of a node of the dependence graph that has an edge with an
    operation at its other end, has all such edges ordered by dominance,
    and works on an address of the local set. *)
Theorem X15_deep_omittable_set (A : Analyses) (F : Function) (a : nat) :
  a ∈ omittableSet A true F <->
  a ∈ baselineSet F \/
  exists I, iaddr I = a /\ staticallyOrdered A F I /\ isLocal (localSet F) I = true.
Proof.
  unfold omittableSet, analyzeNodes. rewrite elem_of_analyzeNodes.
  cbn [omittableInstructions]. fold (localSet F) (writtenSet F) (baselineSet F).
  split.
  - intros [Hb|(node & I0 & deps & Hn & Hitem & Ha & Hd & Hne & Hl)]; [by left|].
    right. exists I0. split; [done|]. split; [|done].
    by eapply nodeDeps_staticallyOrdered.
  - intros [Hb|(I0 & Ha & Hs & Hl)]; [by left|]. right.
    destruct (staticallyOrdered_nodeDeps A F I0 Hs) as (node & deps & Hn & Hitem & Hd & Hne).
    by exists node, I0, deps.
Qed.

Lemma analyzeNodes_none_accepted dom lv nodes st :
  (forall node I0 deps, node ∈ nodes -> getItem node = Some I0 ->
      nodeDeps dom I0 node = Some deps -> deps <> [] -> isLocal lv I0 = false) ->
  foldl (analyzeNode dom lv) st nodes = st.
Proof.
  revert st. induction nodes as [|n nodes IH]; intros st H; simpl; [done|].
  assert (Hn : analyzeNode dom lv st n = st).
  { unfold analyzeNode. destruct (getItem n) as [I0|] eqn:Hitem; [|done].
    destruct (nodeDeps dom I0 n) as [deps|] eqn:Hd; [|done].
    destruct deps as [|d deps]; [done|].
    rewrite (H n I0 (d :: deps)); [by rewrite andb_false_r|left|done|done|done]. }
  rewrite Hn. apply IH. intros node I0 deps Hin. apply H. by right.
Qed.

(** X16. When the dominance analysis accepts no operation on a local
    address (in particular when the dependence graph of the function is
    empty), the pass with the deep analysis enabled does to the function
    and to its own state exactly what it does with the deep analysis
    disabled: no block report is inserted, the table gets no entry and the
    same tracking calls are erased. *)
Theorem X16_deep_analysis_without_accepted_node
    (A : Analyses) (st : PassState) (F : Function) :
  (forall I, staticallyOrdered A F I -> isLocal (localSet F) I = false) ->
  processFunction A true st F = processFunction A false st F.
Proof.
  intros H.
  assert (Hds : analyzeNodes (dominates A F) (localSet F) (baselineSet F) (getNodes A F)
                = mkDeep (baselineSet F) []).
  { apply analyzeNodes_none_accepted. intros node I0 deps Hn Hitem Hd Hne.
    apply H. by eapply nodeDeps_staticallyOrdered. }
  destruct (decide (getInstructionCount F = 0)) as [Hz|Hnz].
  - by rewrite !processFunction_skip.
  - rewrite !processFunction_eq by done.
    assert (Ho : omittableSet A true F = omittableSet A false F).
    { unfold omittableSet. fold (localSet F) (writtenSet F) (baselineSet F).
      by rewrite Hds. }
    assert (Hm : depMapOf A F = []).
    { unfold depMapOf. fold (localSet F) (writtenSet F) (baselineSet F).
      by rewrite Hds. }
    unfold afterReports. rewrite Ho, Hm. done.
Qed.

Lemma X16_deep_analysis_without_accepted_node_witness :
  processFunction noAnalyses true freshPass retvalExample
  = processFunction noAnalyses false freshPass retvalExample.
Proof.
  apply X16_deep_analysis_without_accepted_node.
  intros I0 (node & Hn & _). by apply elem_of_nil in Hn.
Defined.

(** ** The functions the pass calls are declared *)

Lemma declares_names name (M M' : Module) :
  map fname M = map fname M' -> declares name M = declares name M'.
Proof.
  revert M'. induction M as [|F M IH]; intros [|F' M'] H; try done.
  simpl in H. injection H as Hf Hm. unfold declares in *. simpl.
  by rewrite Hf, (IH M' Hm).
Qed.

Lemma names_runFunctions A deep M st :
  map fname (runFunctions A deep st M).1 = map fname M.
Proof.
  revert st. induction M as [|F M IH]; intros st; [done|].
  cbn [runFunctions fst]. simpl. by rewrite fname_processFunction, IH.
Qed.

Lemma names_attached s (M : Module) : map fname (map (attachFunction s) M) = map fname M.
Proof.
  induction M as [|F M IH]; [done|]. simpl. by rewrite fname_attachFunction, IH.
Qed.

Lemma declares_app name (M1 M2 : Module) :
  declares name (M1 ++ M2) = declares name M1 || declares name M2.
Proof. unfold declares. apply existsb_app. Qed.

Lemma declares_declareAddDeps name b (M : Module) :
  declares name M = true -> declares name (declareAddDeps b M) = true.
Proof.
  intros H. unfold declareAddDeps.
  destruct (b && negb (existsb (fun F => (fname F =? "__dp_add_omission_deps")%string) M));
    [|done].
  by rewrite declares_app, H.
Qed.

Lemma declareAddDeps_declares (M : Module) :
  declares "__dp_add_omission_deps" (declareAddDeps true M) = true.
Proof.
  unfold declareAddDeps. cbn [andb].
  fold (declares "__dp_add_omission_deps" M).
  destruct (declares "__dp_add_omission_deps" M) eqn:Hd; cbn [negb]; [done|].
  rewrite declares_app. apply orb_true_r.
Qed.

Lemma getOrInsertFunction_declares name (M : Module) :
  declares name (getOrInsertFunction name M) = true.
Proof.
  unfold getOrInsertFunction. fold (declares name M).
  destruct (declares name M) eqn:Hd; [done|].
  rewrite declares_app. unfold declares at 2. simpl.
  rewrite String.eqb_refl. apply orb_true_r.
Qed.

Lemma getOrInsertFunction_lookup name (M : Module) k F :
  M !! k = Some F -> getOrInsertFunction name M !! k = Some F.
Proof.
  intros Hk. unfold getOrInsertFunction.
  destruct (existsb (fun F0 => (fname F0 =? name)%string) M); [done|].
  by apply lookup_app_l_Some.
Qed.

(** X17. After [doInitialization] and [runOnModule] the module declares
    every function the pass creates calls to: [__dp_report_bb] always,
    and [__dp_add_omission_deps] whenever the deep analysis is enabled
    and a function named [main] holds a direct call to [__dp_finalize].
    [doInitialization] leaves the functions of the module at their
    positions, and changes nothing when [__dp_report_bb] is declared. *)
Theorem X17_created_calls_have_declared_callees
    (A : Analyses) (deep : bool) (st : PassState) (M : Module) :
  declares "__dp_report_bb" (runOnModule A deep st (doInitialization M)).1.2 = true /\
  (forall F, deep = true -> F ∈ M -> isMain F = true -> hasFinalizeCall F = true ->
     declares "__dp_add_omission_deps"
       (runOnModule A deep st (doInitialization M)).1.2 = true) /\
  (forall k F, M !! k = Some F -> doInitialization M !! k = Some F) /\
  (declares "__dp_report_bb" M = true -> doInitialization M = M).
Proof.
  split; [|split; [|split]].
  - assert (Hr : declares "__dp_report_bb"
                   (runFunctions A deep st (doInitialization M)).1 = true).
    { rewrite (declares_names _ _ (doInitialization M)) by apply names_runFunctions.
      apply getOrInsertFunction_declares. }
    unfold runOnModule. destruct deep; cbn [negb fst snd]; [|done].
    apply declares_declareAddDeps.
    rewrite (declares_names _ _ (runFunctions A true st (doInitialization M)).1)
      by apply names_attached.
    done.
  - intros F -> HF Hmain Hfin.
    apply list_elem_of_lookup in HF as [k Hk].
    apply (getOrInsertFunction_lookup "__dp_report_bb") in Hk.
    fold (doInitialization M) in Hk.
    destruct (runFunctions_lookup A true _ st k F Hk) as (stk & Hk1).
    unfold runOnModule. cbn [negb fst snd].
    assert (Hins : existsb (fun F0 => isMain F0 && hasFinalizeCall F0)
                     (runFunctions A true st (doInitialization M)).1 = true).
    { apply existsb_exists. exists (processFunction A true stk F).1. split.
      - apply list_elem_of_In. by eapply list_elem_of_lookup_2.
      - by rewrite isMain_processFunction, hasFinalizeCall_processFunction, Hmain, Hfin. }
    rewrite Hins. apply declareAddDeps_declares.
  - intros k F. apply getOrInsertFunction_lookup.
  - intros Hd. unfold doInitialization, getOrInsertFunction.
    fold (declares "__dp_report_bb" M). by rewrite Hd.
Qed.

(** ** Examples for the properties of the whole pass *)

Lemma X9_program_instructions_kept_witness :
  [finalizeExample] !! 0 = Some finalizeExample /\
  exists F',
    (runOnModule noAnalyses true freshPass [finalizeExample]).1.2 !! 0 = Some F' /\
    fname F' = fname finalizeExample /\
    List.filter isProgramInst (instructions F')
      = List.filter isProgramInst (instructions finalizeExample).
Proof.
  split; [reflexivity|].
  apply (X9_program_instructions_kept noAnalyses true freshPass [finalizeExample] 0).
  reflexivity.
Defined.

Lemma X10_blocks_and_terminators_kept_witness :
  [finalizeExample] !! 0 = Some finalizeExample /\
  exists F',
    (runOnModule noAnalyses true freshPass [finalizeExample]).1.2 !! 0 = Some F' /\
    Forall2 sameFrame (blocks finalizeExample) (blocks F').
Proof.
  split; [reflexivity|].
  apply (X10_blocks_and_terminators_kept noAnalyses true freshPass [finalizeExample] 0).
  reflexivity.
Defined.

Lemma X11_one_attached_call_per_finalize_witness :
  [finalizeExample] !! 0 = Some finalizeExample /\
  exists F',
    (runOnModule noAnalyses true freshPass [finalizeExample]).1.2 !! 0 = Some F' /\
    length (List.filter (isCallTo "__dp_add_omission_deps") (instructions F'))
    = length (List.filter (isCallTo "__dp_add_omission_deps") (instructions finalizeExample))
      + (if true && isMain finalizeExample
         then length (List.filter isFinalizeCall (instructions finalizeExample)) else 0).
Proof.
  split; [reflexivity|].
  apply (X11_one_attached_call_per_finalize noAnalyses true freshPass [finalizeExample] 0).
  reflexivity.
Defined.

(** ** Removal and provable locality *)


Lemma provablyLocal_local F v : provablyLocal F v -> v ∈ localSet F.
Proof.
  intros (Hb & Hcall & Hstore). apply elem_of_localSet. split; [done|].
  intros I0 HI Hv. unfold escapes in Hv.
  destruct (ikind I0) as [|val ptr|callee args| |] eqn:Hk;
    try by apply elem_of_nil in Hv.
  - apply list_elem_of_singleton in Hv. by apply (Hstore I0 val ptr).
  - destruct (getCalledFunction callee); [|by apply elem_of_nil in Hv].
    by apply (Hcall I0 callee args).
Qed.




(** ** The node loop over the whole graph *)

(** The descriptors a node hands over are those of its edges. *)
Lemma nodeDeps_descriptors dom I node deps :
  nodeDeps dom I node = Some deps ->
  forall d, d ∈ deps <->
    (exists e, e ∈ getOutEdges node /\ is_Some (dstItem e) /\ edgeToDPDep e = d) \/
    (exists e, e ∈ getInEdges node /\ is_Some (srcItem e) /\ edgeToDPDep e = d).
Proof.
  intros Hd. destruct (nodeDeps_Some _ _ _ _ Hd) as [Hout Hin].
  destruct (nodeDeps_pass _ _ _ Hout Hin) as (deps' & Hd' & Hmem).
  rewrite Hd in Hd'. by injection Hd' as <-.
Qed.

Lemma failing_not_ordered A F node I :
  failingNode A F node I -> ~ orderedNode A F node I.
Proof.
  intros [(e & J & He & HJ & Hbad)|(e & J & He & HJ & Hbad)] [Hout Hin].
  - destruct (Hout e J He HJ) as [Hne Hdom]. destruct Hbad; congruence.
  - destruct (Hin e J He HJ) as [Hne Hdom]. destruct Hbad; congruence.
Qed.

(** One iteration and the descriptor sets. *)
Lemma analyzeNode_inBlock dom lv st node b d :
  cdm_sorted (conditionalDepMap st) ->
  (exists ds, cdm_lookup b (conditionalDepMap (analyzeNode dom lv st node)) = Some ds /\
              d ∈ ds) <->
  (exists ds, cdm_lookup b (conditionalDepMap st) = Some ds /\ d ∈ ds) \/
  (exists I deps,
     getItem node = Some I /\ nodeDeps dom I node = Some deps /\ deps <> [] /\
     isLocal lv I = true /\ iparent I = b /\ d ∈ deps).
Proof.
  intros Hs. unfold analyzeNode.
  destruct (getItem node) as [I0|] eqn:Hitem; [|naive_solver].
  destruct (nodeDeps dom I0 node) as [deps|] eqn:Hd; [|naive_solver].
  destruct (0 <? length deps) eqn:Hpos; cbn [andb].
  2:{ split; [by left|]. intros [H|(I1 & deps1 & HI & Hd1 & Hne & _)]; [done|].
      injection HI as <-. rewrite Hd in Hd1. injection Hd1 as <-.
      destruct deps; [done|discriminate]. }
  destruct (isLocal lv I0) eqn:Hl.
  2:{ split; [by left|]. intros [H|(I1 & deps1 & HI & _ & _ & Hl1 & _)]; [done|].
      injection HI as <-. congruence. }
  cbn [conditionalDepMap].
  assert (Hne : deps <> []) by (intros ->; discriminate).
  destruct (decide (iparent I0 = b)) as [<-|Hb].
  - rewrite cdm_lookup_update_eq by done. split.
    + intros (ds & Hds & Hin). injection Hds as <-.
      destruct (cdm_lookup (iparent I0) (conditionalDepMap st)) as [s|] eqn:Hlook.
      * apply (elem_of_oset_insert_range _ string_ltb_total) in Hin as [Hin|Hin].
        -- left. by exists s.
        -- right. by exists I0, deps.
      * right. by exists I0, deps.
    + intros [(ds & Hds & Hin)|(I1 & deps1 & HI & Hd1 & _ & _ & _ & Hin)].
      * rewrite Hds. eexists. split; [done|].
        apply (elem_of_oset_insert_range _ string_ltb_total). by left.
      * injection HI as <-. rewrite Hd in Hd1. injection Hd1 as <-.
        eexists. split; [done|].
        destruct (cdm_lookup (iparent I0) (conditionalDepMap st)); [|done].
        apply (elem_of_oset_insert_range _ string_ltb_total). by right.
  - rewrite cdm_lookup_update_ne by done. split; [by left|].
    intros [H|(I1 & deps1 & HI & _ & _ & _ & Hp & _)]; [done|].
    injection HI as <-. done.
Qed.

Lemma analyzeNodes_inBlock dom lv nodes st b d :
  cdm_sorted (conditionalDepMap st) ->
  Forall (fun p => p.2 <> []) (conditionalDepMap st) ->
  (exists ds, cdm_lookup b (conditionalDepMap (foldl (analyzeNode dom lv) st nodes))
                = Some ds /\ d ∈ ds) <->
  (exists ds, cdm_lookup b (conditionalDepMap st) = Some ds /\ d ∈ ds) \/
  (exists node I deps,
     node ∈ nodes /\ getItem node = Some I /\ nodeDeps dom I node = Some deps /\
     deps <> [] /\ isLocal lv I = true /\ iparent I = b /\ d ∈ deps).
Proof.
  revert st. induction nodes as [|n nodes IH]; intros st Hs Hn; simpl.
  - split; [by left|]. intros [H|(node & I0 & deps & Hin & _)]; [done|].
    by apply elem_of_nil in Hin.
  - destruct (analyzeNode_map_inv dom lv st n (conj Hs Hn)) as [Hs' Hn'].
    rewrite (IH _ Hs' Hn'), (analyzeNode_inBlock dom lv st n b d Hs). split.
    + intros [[H|(I0 & deps & H)]|(node & I0 & deps & Hin & H)].
      * by left.
      * right. exists n, I0, deps. split; [left|done].
      * right. exists node, I0, deps. split; [by right|done].
    + intros [H|(node & I0 & deps & Hin & H)]; [by left; left|].
      apply elem_of_cons in Hin as [-> | Hin].
      * left. right. by exists I0, deps.
      * right. by exists node, I0, deps.
Qed.

(** C2, as the code has it, over the whole node loop of the deep
    analysis.  An
    operation is in the omittable set exactly when it is in the baseline
    set or it is the operation of an accepted node: a node of the graph
    all of whose edges with an operation at the other end pass the test
    (an outgoing edge leads to a different operation that dominates the
    node's, an incoming edge comes from a different operation that the
    node's dominates), that has such an edge, and whose address operand is
    in the local set.  A descriptor is in the set of a block exactly when
    it is the descriptor of an edge of an accepted node whose operation is
    in that block, so every descriptor of an accepted node is in the set
    of its block and nothing else is in any set.  A node with a failing
    edge is not accepted: its own iteration adds nothing, and a descriptor
    of one of its edges is in a set only when it is also a descriptor of
    an accepted node. *)
Theorem C2_only_accepted_nodes_contribute (A : Analyses) (F : Function) :
  (forall a,
     a ∈ omittableSet A true F <->
     a ∈ baselineSet F \/ exists node I, acceptedNode A F node I /\ iaddr I = a)
  /\ (forall b d,
        inBlockSet A F b d <->
        exists node I, acceptedNode A F node I /\ iparent I = b /\ descriptorOf node d)
  /\ (forall node I, failingNode A F node I -> ~ acceptedNode A F node I).
Proof.
  split; [|split].
  - intros a. unfold omittableSet, analyzeNodes. rewrite elem_of_analyzeNodes.
    cbn [omittableInstructions]. fold (localSet F) (writtenSet F) (baselineSet F).
    split.
    + intros [Hb|(node & I0 & deps & Hn & Hitem & Ha & Hd & Hne & Hl)]; [by left|].
      right. exists node, I0. split; [|done].
      destruct (nodeDeps_Some _ _ _ _ Hd) as [Hout Hin].
      split; [done|]. split; [done|]. split; [by split|]. split; [|done].
      destruct deps as [|d deps]; [done|]. exists d.
      apply (nodeDeps_descriptors _ _ _ _ Hd). left.
    + intros [Hb|(node & I0 & (Hn & Hitem & [Hout Hin] & [d Hdesc] & Hl) & Ha)];
        [by left|].
      right. destruct (nodeDeps_pass _ _ _ Hout Hin) as (deps & Hd & Hmem).
      exists node, I0, deps. split; [done|]. split; [done|]. split; [done|].
      split; [done|]. split; [|done].
      intros ->. apply Hmem in Hdesc. by apply elem_of_nil in Hdesc.
  - intros b d. unfold inBlockSet, depMapOf, analyzeNodes.
    rewrite analyzeNodes_inBlock by (simpl; constructor).
    cbn [conditionalDepMap]. fold (localSet F). split.
    + intros [(ds & H & _)|(node & I0 & deps & Hn & Hitem & Hd & Hne & Hl & Hb & Hin)];
        [done|].
      exists node, I0. destruct (nodeDeps_Some _ _ _ _ Hd) as [Hout Hinn].
      assert (Hdesc : descriptorOf node d) by by apply (nodeDeps_descriptors _ _ _ _ Hd).
      split; [|done]. split; [done|]. split; [done|]. split; [by split|].
      split; [by exists d|done].
    + intros (node & I0 & (Hn & Hitem & [Hout Hin] & _ & Hl) & Hb & Hdesc).
      right. destruct (nodeDeps_pass _ _ _ Hout Hin) as (deps & Hd & Hmem).
      assert (Hin' : d ∈ deps) by by apply Hmem.
      exists node, I0, deps. split; [done|]. split; [done|]. split; [done|].
      split; [by intros ->; apply elem_of_nil in Hin'|]. done.
  - intros node I0 Hfail (_ & _ & Hord & _). by apply (failing_not_ordered A F node I0).
Qed.

(** C2 as stated fails at [sharedEdgeExample]: the load has an edge that
    fails, to the store behind it, and the descriptor of its other edge is
    in the set of the block all the same, handed over by the store in
    front of it, whose node is accepted and has that edge as an incoming
    edge. *)
Lemma C2_counterexample_shared_edge :
  ~ rejectedContributesNothing sharedEdgeAnalyses sharedEdgeExample.
Proof.
  intros H.
  destruct (H sharedLoadNode sharedLoad) as [_ Hdesc].
  - right. left.
  - reflexivity.
  - left. exists sharedEdge2, sharedStore2. split; [right; left|].
    split; [reflexivity|]. by right.
  - apply (Hdesc "RAW 4" 100).
    + left. exists sharedEdge1. split; [left|]. split; [by eexists|reflexivity].
    + exists ["RAW 4"]. split; [by vm_compute|left].
Qed.

(** ** Where the erase loops are defined *)

Lemma searchAndErase_Some lv v lv' :
  searchAndErase lv v = Some lv' -> lv' = lv /\ v ∉ lv.
Proof.
  unfold searchAndErase. destruct (bool_decide (v ∈ lv)) eqn:Hv; [done|].
  intros [= <-]. split; [done|]. by apply bool_decide_eq_false in Hv.
Qed.

Lemma searchAndErase_None lv v : v ∈ lv -> searchAndErase lv v = None.
Proof. intros Hv. unfold searchAndErase. by rewrite bool_decide_eq_true_2. Qed.

Lemma eraseArgs_Some lv args lv' :
  eraseArgs lv args = Some lv' -> lv' = lv /\ forall v, v ∈ args -> v ∉ lv.
Proof.
  revert lv. induction args as [|x args IH]; intros lv; simpl.
  - intros [= <-]. split; [done|]. intros v Hv. by apply elem_of_nil in Hv.
  - destruct (searchAndErase lv x) as [lv1|] eqn:Hx; [|done].
    apply searchAndErase_Some in Hx as [-> Hx]. intros H.
    destruct (IH _ H) as [-> Hargs]. split; [done|].
    intros v Hv. apply elem_of_cons in Hv as [-> | Hv]; [done|by apply Hargs].
Qed.

Lemma eraseValue_absent lv v : v ∉ lv -> eraseValue lv v = lv.
Proof. unfold eraseValue. set_solver. Qed.

Lemma foldl_eraseValue_absent lv args :
  (forall v, v ∈ args -> v ∉ lv) -> foldl eraseValue lv args = lv.
Proof.
  induction args as [|x args IH]; intros H; simpl; [done|].
  rewrite eraseValue_absent by (apply H; left). apply IH.
  intros v Hv. apply H. by right.
Qed.

(** A defined step erases nothing, and [scanStep] agrees with it. *)
Lemma scanStepDefined_Some st I st' :
  scanStepDefined st I = Some st' ->
  st' = scanStep st I /\ localValues st' = localValues st /\
  forall v, v ∈ escapes I -> v ∉ localValues st.
Proof.
  unfold scanStepDefined, scanStep, escapes.
  destruct (ikind I) as [ptr|val ptr|callee args|ops|ops].
  - intros [= <-]. split; [done|]. split; [done|]. intros v Hv. by apply elem_of_nil in Hv.
  - destruct (searchAndErase (localValues st) val) as [lv|] eqn:Hv; [|done].
    apply searchAndErase_Some in Hv as [-> Hv]. intros [= <-]. cbn [localValues].
    rewrite eraseValue_absent by done. split; [done|]. split; [done|].
    intros v Hin. by apply list_elem_of_singleton in Hin as ->.
  - destruct (getCalledFunction callee) as [fn|].
    + destruct (eraseArgs (localValues st) args) as [lv|] eqn:Ha; [|done].
      apply eraseArgs_Some in Ha as [-> Ha]. intros [= <-]. cbn [localValues].
      rewrite foldl_eraseValue_absent by done. done.
    + intros [= <-]. split; [done|]. split; [done|].
      intros v Hv. by apply elem_of_nil in Hv.
  - intros [= <-]. split; [done|]. split; [done|]. intros v Hv. by apply elem_of_nil in Hv.
  - intros [= <-]. split; [done|]. split; [done|]. intros v Hv. by apply elem_of_nil in Hv.
Qed.

Lemma scanDefinedFrom_Some st l st' :
  scanDefinedFrom st l = Some st' ->
  st' = foldl scanStep st l /\ localValues st' = localValues st /\
  forall I v, I ∈ l -> v ∈ escapes I -> v ∉ localValues st.
Proof.
  revert st. induction l as [|I0 l IH]; intros st; simpl.
  - intros [= <-]. split; [done|]. split; [done|]. intros I1 v HI. by apply elem_of_nil in HI.
  - destruct (scanStepDefined st I0) as [st1|] eqn:H0; [|done].
    apply scanStepDefined_Some in H0 as (-> & Hlv & Hesc). intros H.
    destruct (IH _ H) as (-> & Hlv' & Hesc'). split; [done|]. split; [congruence|].
    intros I1 v HI Hv. apply elem_of_cons in HI as [-> | HI]; [by apply Hesc|].
    rewrite <- Hlv. by apply (Hesc' I1).
Qed.

(** Where the scan is defined the classifier of the pass is the one
    modelled by [scanFunction], and no bound value is an argument of a
    direct call or a stored value. *)
Lemma scanFunctionDefined_Some t F sc :
  scanFunctionDefined t F = Some sc ->
  sc = scanFunction t F /\
  forall I v, I ∈ instructions F -> v ∈ escapes I -> v ∉ boundValues F.
Proof.
  unfold scanFunctionDefined. intros H.
  apply scanDefinedFrom_Some in H as (-> & _ & Hesc). split; [done|].
  intros I0 v HI Hv Hb. apply (Hesc I0 v HI Hv). cbn [localValues].
  rewrite localSeeds_closed. by apply elem_of_list_to_set.
Qed.

Lemma scanDefined_false F I v :
  I ∈ instructions F -> v ∈ escapes I -> v ∈ boundValues F -> scanDefined F = false.
Proof.
  intros HI Hv Hb. unfold scanDefined.
  destruct (scanFunctionDefined 0 F) as [sc|] eqn:Hsc; [|done].
  apply scanFunctionDefined_Some in Hsc as [_ Hesc]. by destruct (Hesc I v).
Qed.

(** C9.  Where a value bound by a debug intrinsic is an argument of a
    direct call or the stored value of a store, the search loop of lines
    57-61 or 72-76 erases the element its iterator stands on, and
    [runOnModule] has no defined run: it does not return [true] there.
    [passedLocalModule], whose function hands the address of a local to
    another function, is such an input, with the deep analysis disabled or
    enabled. *)
Theorem C9_passed_local_has_no_defined_run :
  (forall A deep st, definedRun A deep st passedLocalModule = None)
  /\ (forall A deep st M F I v,
        F ∈ M -> I ∈ instructions F -> v ∈ escapes I -> v ∈ boundValues F ->
        definedRun A deep st M = None).
Proof.
  assert (Hgen : forall A deep st M F I v,
            F ∈ M -> I ∈ instructions F -> v ∈ escapes I -> v ∈ boundValues F ->
            definedRun A deep st M = None).
  { intros A deep st M F I0 v HF HI Hv Hb. unfold definedRun.
    destruct (forallb _ M) eqn:Hall; [|done].
    rewrite forallb_forall in Hall.
    apply list_elem_of_In, Hall, orb_true_iff in HF as [Hz|Hd].
    - apply Nat.eqb_eq in Hz. unfold getInstructionCount in Hz.
      destruct (instructions F); [by apply elem_of_nil in HI|done].
    - by rewrite (scanDefined_false F I0 v HI Hv Hb) in Hd. }
  split; [|exact Hgen].
  intros A deep st.
  apply (Hgen A deep st passedLocalModule passedLocalExample
           (mkInst 2 100 (Call (Fn "g") [Val 7 "x"]) true) (Val 7 "x")).
  - left.
  - apply list_elem_of_In. simpl. right. left. reflexivity.
  - left.
  - left.
Qed.

(** ** The attached calls, block by block *)

Lemma attachInsts_kinds s n l :
  map ikind (attachInsts s n l).1 = attachedKinds s l.
Proof.
  revert n. induction l as [|i l IH]; intros n; [done|].
  unfold attachedKinds in *. simpl. destruct (isFinalizeCall i); simpl; by rewrite IH.
Qed.

Lemma attachInsts_sublist s n l : sublist l (attachInsts s n l).1.
Proof.
  revert n. induction l as [|i l IH]; intros n; simpl; [constructor|].
  destruct (isFinalizeCall i); simpl.
  - apply sublist_cons. apply sublist_skip. apply IH.
  - apply sublist_skip. apply IH.
Qed.

Lemma attachBlocks_blocks s n bs :
  Forall2 (fun B B' => baddr B' = baddr B /\
                       map ikind (insts B') = attachedKinds s (insts B) /\
                       sublist (insts B) (insts B'))
          bs (attachBlocks s n bs).
Proof.
  revert n. induction bs as [|B bs IH]; intros n; simpl; constructor; [|apply IH].
  simpl. split; [done|]. split; [apply attachInsts_kinds|apply attachInsts_sublist].
Qed.

(** X18. With the deep analysis enabled, the last step of the pass leaves
    every function that is not named [main] as the loop over the functions
    left it, and turns every block of a function named [main] into the
    same block with a call to [__dp_add_omission_deps], whose argument is
    the serialized table, directly in front of every direct call to
    [__dp_finalize]: the kinds of the instructions of the block are the
    former ones with that call put in front of each finalize call, and the
    former instructions are all there, in their order. *)
Theorem X18_table_attached_before_each_finalize
    (A : Analyses) (st : PassState) (M : Module) :
  forall k F1,
    (runFunctions A true st M).1 !! k = Some F1 ->
    exists F',
      (runOnModule A true st M).1.2 !! k = Some F' /\
      fname F' = fname F1 /\
      (isMain F1 = false -> F' = F1) /\
      (isMain F1 = true ->
       Forall2 (fun B B' =>
                  baddr B' = baddr B /\
                  map ikind (insts B')
                    = attachedKinds
                        (buildDepString (conditionalBBDeps (runOnModule A true st M).2))
                        (insts B) /\
                  sublist (insts B) (insts B'))
               (blocks F1) (blocks F')).
Proof.
  intros k F1 Hk. rewrite runOnModule_state. unfold runOnModule. cbn [negb fst snd].
  set (s := buildDepString (conditionalBBDeps (runFunctions A true st M).2)).
  exists (attachFunction s F1). split.
  { apply declareAddDeps_lookup. by apply map_lookup_Some. }
  split; [apply fname_attachFunction|].
  unfold attachFunction, isMain.
  destruct (hasName F1); cbn [negb orb andb]; [|by split].
  destruct (fname F1 =? "main")%string; cbn [negb]; [|by split].
  split; [done|]. intros _. cbn [blocks]. apply attachBlocks_blocks.
Qed.

Lemma X18_table_attached_before_each_finalize_witness :
  exists F',
    (runOnModule noAnalyses true freshPass [finalizeExample]).1.2 !! 0 = Some F' /\
    fname F' = fname finalizeExample /\
    (isMain finalizeExample = false -> F' = finalizeExample) /\
    (isMain finalizeExample = true ->
     Forall2 (fun B B' =>
                baddr B' = baddr B /\
                map ikind (insts B')
                  = attachedKinds
                      (buildDepString
                         (conditionalBBDeps
                            (runOnModule noAnalyses true freshPass [finalizeExample]).2))
                      (insts B) /\
                sublist (insts B) (insts B'))
             (blocks finalizeExample) (blocks F')).
Proof.
  apply (X18_table_attached_before_each_finalize noAnalyses freshPass [finalizeExample] 0).
  reflexivity.
Defined.
